(** * Sort visualizer of the student database application

    A shallow embedding of [src/PythonProject.py]: the [SortVisualizer]
    class (canvas bookkeeping, animated swap, insertion and selection
    sort) and the run controller part of [StudentApp].

    Modelling choices.
    - A database row [(id, name, roll, marks)] is the record [Student];
      the sort key [d[3]] is the field [marks], a Python [int] ([Z]).
    - Python lists are Rocq lists read with [getitem] (Python's rules:
      negative indices count from the end, anything else out of range
      raises [IndexError]).
    - The Tk canvas is a finite map from item ids to items.  Python floats
      (coordinates, delays, the slider value) are idealised as rationals.
    - The sort runs on a background thread.  Every call that hands control
      to the outside ([canvas.update()], [time.sleep], the progress
      callback) is an observable point: it is logged in the trace together
      with a snapshot of the visualizer, and the environment may then act
      (press "Stop Sorting", move the speed slider).  The environment's
      moves are the script [pending]. *)

From Stdlib Require Import ZArith QArith Qminmax Lqa String List Sorted Permutation Lia.
From Stdlib Require DecimalString.
From Stdlib Require Import SpecFloat.
From stdpp Require Import base option list sorting gmap strings.

Local Open Scope Z_scope.

(** ** Records *)

Record Student := mkStudent {
  sid : Z;
  name : string;
  roll : string;
  marks : Z
}.

(** ** The canvas *)

Inductive Item :=
| Rectangle (x0 y0 x1 y1 : Q) (fill : string)
| Text (x y : Q) (text : string) (fill : string).

Record Canvas := mkCanvas {
  items : gmap Z Item;
  next_id : Z
}.

Definition move_item (dx dy : Q) (it : Item) : Item :=
  match it with
  | Rectangle x0 y0 x1 y1 f => Rectangle (x0 + dx) (y0 + dy) (x1 + dx) (y1 + dy) f
  | Text x y t f => Text (x + dx) (y + dy) t f
  end.

Definition fill_item (color : string) (it : Item) : Item :=
  match it with
  | Rectangle x0 y0 x1 y1 _ => Rectangle x0 y0 x1 y1 color
  | Text x y t _ => Text x y t color
  end.

Definition item_coords (it : Item) : list Q :=
  match it with
  | Rectangle x0 y0 x1 y1 _ => [x0; y0; x1; y1]
  | Text x y _ _ => [x; y]
  end.

Definition item_fill (it : Item) : string :=
  match it with
  | Rectangle _ _ _ _ f => f
  | Text _ _ _ f => f
  end.

(** [canvas.delete("all")]: ids are not reused. *)
Definition canvas_delete_all (c : Canvas) : Canvas :=
  {| items := ∅; next_id := next_id c |}.

(** [canvas.create_rectangle] / [canvas.create_text]. *)
Definition canvas_create (it : Item) (c : Canvas) : Z * Canvas :=
  (next_id c, {| items := <[next_id c := it]> (items c); next_id := next_id c + 1 |}).

(** [canvas.coords(id)]: the empty list for an id that does not exist. *)
Definition canvas_coords (id : Z) (c : Canvas) : list Q :=
  match items c !! id with
  | Some it => item_coords it
  | None => []
  end.

(** [canvas.move(id, dx, dy)]. *)
Definition canvas_move (id : Z) (dx dy : Q) (c : Canvas) : Canvas :=
  {| items := alter (move_item dx dy) id (items c); next_id := next_id c |}.

(** [canvas.itemconfig(id, fill=color)]. *)
Definition canvas_itemconfig (id : Z) (color : string) (c : Canvas) : Canvas :=
  {| items := alter (fill_item color) id (items c); next_id := next_id c |}.

(** ** The visualizer object *)

Record SortVisualizer := mkVis {
  canvas : Canvas;
  speed_scale : Q;
  data : list Student;
  bar_items : list Z;
  text_items : list (Z * Z);
  width : Z;
  height : Z;
  padding : Z;
  running : bool
}.

Definition set_canvas (c : Canvas) (v : SortVisualizer) : SortVisualizer :=
  mkVis c (speed_scale v) (data v) (bar_items v) (text_items v)
        (width v) (height v) (padding v) (running v).
Definition set_speed_scale (q : Q) (v : SortVisualizer) : SortVisualizer :=
  mkVis (canvas v) q (data v) (bar_items v) (text_items v)
        (width v) (height v) (padding v) (running v).
Definition set_data (l : list Student) (v : SortVisualizer) : SortVisualizer :=
  mkVis (canvas v) (speed_scale v) l (bar_items v) (text_items v)
        (width v) (height v) (padding v) (running v).
Definition set_bar_items (l : list Z) (v : SortVisualizer) : SortVisualizer :=
  mkVis (canvas v) (speed_scale v) (data v) l (text_items v)
        (width v) (height v) (padding v) (running v).
Definition set_text_items (l : list (Z * Z)) (v : SortVisualizer) : SortVisualizer :=
  mkVis (canvas v) (speed_scale v) (data v) (bar_items v) l
        (width v) (height v) (padding v) (running v).
Definition set_running (b : bool) (v : SortVisualizer) : SortVisualizer :=
  mkVis (canvas v) (speed_scale v) (data v) (bar_items v) (text_items v)
        (width v) (height v) (padding v) b.

(** ** Observable points and the environment *)

Inductive Event :=
| EvUpdate                              (* canvas.update() *)
| EvSleep (delay : Q)                   (* time.sleep(delay) *)
| EvCallback (order : list Student).    (* callback(self.data) *)

Inductive EnvAction :=
| EnvNone
| EnvStop                               (* SortVisualizer.stop() *)
| EnvSlide (value : Q).                 (* the user drags the speed slider *)

Record World := mkWorld {
  vis : SortVisualizer;
  pending : list EnvAction;
  trace : list (Event * SortVisualizer)   (* newest first *)
}.

Definition set_vis (v : SortVisualizer) (w : World) : World :=
  mkWorld v (pending w) (trace w).

(** [SortVisualizer.stop] *)
Definition stop (v : SortVisualizer) : SortVisualizer := set_running false v.

Definition env_apply (a : EnvAction) (v : SortVisualizer) : SortVisualizer :=
  match a with
  | EnvNone => v
  | EnvStop => stop v
  | EnvSlide q => set_speed_scale q v
  end.

(** ** The monad: state and [IndexError] *)

Inductive Exn := IndexError.

Inductive Res (A : Type) :=
| Ok (a : A) (w : World)
| Raise (e : Exn) (w : World).
Arguments Ok {A} a w.
Arguments Raise {A} e w.

Definition M (A : Type) : Type := World → Res A.

#[global] Instance M_ret : MRet M := λ A a w, Ok a w.
#[global] Instance M_bind : MBind M := λ A B f m w,
  match m w with
  | Ok a w' => f a w'
  | Raise e w' => Raise e w'
  end.

Definition raise {A} (e : Exn) : M A := λ w, Raise e w.
Definition gets {A} (f : SortVisualizer → A) : M A := λ w, Ok (f (vis w)) w.
Definition modify (f : SortVisualizer → SortVisualizer) : M unit :=
  λ w, Ok tt (set_vis (f (vis w)) w).

(** An observable point: the event and the state it shows are logged, then
    the environment makes its next scripted move. *)
Definition yield (e : Event) : M unit := λ w,
  let tr := (e, vis w) :: trace w in
  match pending w with
  | [] => Ok tt (mkWorld (vis w) [] tr)
  | a :: rest => Ok tt (mkWorld (env_apply a (vis w)) rest tr)
  end.

(** Python's [l[i]] and [l[i] = x]. *)
Definition py_index {A} (l : list A) (i : Z) : option nat :=
  let n := Z.of_nat (length l) in
  if (0 <=? i) && (i <? n) then Some (Z.to_nat i)
  else if (i <? 0) && (- n <=? i) then Some (Z.to_nat (n + i))
  else None.

Definition getitem {A} (l : list A) (i : Z) : M A :=
  match py_index l i with
  | Some k => match l !! k with Some x => mret x | None => raise IndexError end
  | None => raise IndexError
  end.

Definition setitem {A} (l : list A) (i : Z) (x : A) : M (list A) :=
  match py_index l i with
  | Some k => mret (<[k := x]> l)
  | None => raise IndexError
  end.

(** ** Numbers the way Python computes them *)

(** [max(a, b)] keeps its first argument unless the second is strictly
    greater. *)
Definition Qltb (a b : Q) : bool := negb (Qle_bool b a).
Definition py_max (a b : Q) : Q := if Qltb a b then b else a.

Definition Qz (z : Z) : Q := inject_Z z.
Definition Qn (n : nat) : Q := inject_Z (Z.of_nat n).

(** [str(z)] for an [int]. *)
Definition str (z : Z) : string :=
  DecimalString.NilZero.string_of_int (Z.to_int z).

Definition len {A} (l : list A) : Z := Z.of_nat (length l).

(** ** [SortVisualizer] methods *)

Definition minimum_delay : Q := 1 # 1000.
Definition speed_divisor : Q := 700 # 1.

(** The pure part of [get_speed]: [max(0.001, (101 - val) / 700)]. *)
Definition speed_of (val : Q) : Q :=
  py_max minimum_delay ((Qz 101 - val) / speed_divisor)%Q.

Definition get_speed : M Q :=
  val ← gets speed_scale;
  mret (speed_of val).

(** [speed_of] computed as Python does, in IEEE 754 binary64: every
    operation rounds to nearest, and the literal [0.001] is the double
    nearest to 1/1000. *)
Definition f64_of_int (z : Z) : spec_float := binary_normalize 53 1024 z 0 false.

Definition f64_minimum_delay : spec_float :=
  SFdiv 53 1024 (f64_of_int 1) (f64_of_int 1000).

Definition f64_max (a b : spec_float) : spec_float :=
  if SFltb a b then b else a.

Definition f64_speed_of (val : spec_float) : spec_float :=
  f64_max f64_minimum_delay
    (SFdiv 53 1024 (SFsub 53 1024 (f64_of_int 101) val) (f64_of_int 700)).

(** The integer positions 1, 2, ..., 100 of the slider. *)
Definition slider_positions : list Z := Z.of_nat <$> seq 1 100.

Fixpoint f64_antitone (l : list spec_float) : bool :=
  match l with
  | a :: (b :: _) as rest => SFleb b a && f64_antitone rest
  | _ => true
  end.

Definition canvas_update : M unit := yield EvUpdate.

Definition sleep : M unit :=
  d ← get_speed;
  yield (EvSleep d).

Definition on_canvas (f : Canvas → Canvas) : M unit :=
  modify (λ v, set_canvas (f (canvas v)) v).

Fixpoint repeatM (k : nat) (m : M unit) : M unit :=
  match k with
  | O => mret tt
  | S k' => m;; repeatM k' m
  end.

Definition move_bar (index : Z) (dx dy : Q) (steps : nat) : M unit :=
  bars ← gets bar_items;
  if (index <? 0) || (index >=? len bars) then mret tt
  else
    repeatM steps (
      bars ← gets bar_items;
      b ← getitem bars index;
      on_canvas (canvas_move b (dx / Qn steps) (dy / Qn steps));;
      texts ← gets text_items;
      tn ← getitem texts index;
      on_canvas (canvas_move (fst tn) (dx / Qn steps) (dy / Qn steps));;
      on_canvas (canvas_move (snd tn) (dx / Qn steps) (dy / Qn steps));;
      canvas_update;;
      sleep).

(** [l[i], l[j] = l[j], l[i]] on one of the visualizer's lists: both reads,
    then the store at [i], then the store at [j]. *)
Definition swap_items {A} (get : SortVisualizer → list A)
    (set : list A → SortVisualizer → SortVisualizer) (i j : Z) : M unit :=
  l ← gets get;
  xj ← getitem l j;
  xi ← getitem l i;
  l1 ← setitem l i xj;
  modify (set l1);;
  l1 ← gets get;
  l2 ← setitem l1 j xi;
  modify (set l2).

Definition default_steps : nat := 20.

Definition swap_bars (i j : Z) : M unit :=
  if i =? j then mret tt
  else
    bars ← gets bar_items;
    if negb ((0 <=? i) && (i <? len bars) && ((0 <=? j) && (j <? len bars)))
    then mret tt
    else
      bi ← getitem bars i;
      coords_i ← gets (λ v, canvas_coords bi (canvas v));
      bj ← getitem bars j;
      coords_j ← gets (λ v, canvas_coords bj (canvas v));
      match coords_i, coords_j with
      | x1 :: _, x2 :: _ =>
          let dx := (x2 - x1)%Q in
          move_bar i 0 (- Qz 30) default_steps;;
          move_bar j 0 (- Qz 30) default_steps;;
          move_bar i dx 0 default_steps;;
          move_bar j (- dx) 0 default_steps;;
          move_bar i 0 (Qz 30) default_steps;;
          move_bar j 0 (Qz 30) default_steps;;
          swap_items bar_items set_bar_items i j;;
          swap_items text_items set_text_items i j;;
          swap_items data set_data i j;;
          canvas_update
      | _, _ => mret tt
      end.

Fixpoint highlight_each (indices : list Z) (color : string) : M unit :=
  match indices with
  | [] => mret tt
  | i :: rest =>
      bars ← gets bar_items;
      (if (0 <=? i) && (i <? len bars)
       then b ← getitem bars i; on_canvas (canvas_itemconfig b color)
       else mret tt);;
      highlight_each rest color
  end.

Definition highlight (indices : list Z) (color : string) : M unit :=
  highlight_each indices color;;
  canvas_update.

Definition default_color : string := "#2b7a78".
Definition key_color : string := "#fdd835".
Definition compare_color : string := "#cc241d".
Definition settled_color : string := "#66bb6a".
Definition sorted_color : string := "#388e3c".

Fixpoint reset_each (indices : list nat) : M unit :=
  match indices with
  | [] => mret tt
  | i :: rest =>
      bars ← gets bar_items;
      b ← getitem bars (Z.of_nat i);
      on_canvas (canvas_itemconfig b default_color);;
      reset_each rest
  end.

Definition reset_colors : M unit :=
  n ← gets (λ v, length (bar_items v));
  reset_each (seq 0 n);;
  canvas_update.

(** [range(a, b)] as the list of its values. *)
Definition range (a b : nat) : list nat := seq a (b - a).
Definition zrange (a b : nat) : list Z := Z.of_nat <$> range a b.

(** [if callback: callback(self.data)]: the progress notification hands
    the current order to the table view. *)
Definition notify (callback : bool) : M unit :=
  if callback then d ← gets data; yield (EvCallback d) else mret tt.

Definition key_at (k : Z) : M Z :=
  d ← gets data;
  x ← getitem d k;
  mret (marks x).

(** The [while j > 0 and self.data[j - 1][3] > self.data[j][3]] loop of
    [insertion_sort]. *)
Fixpoint insertion_while (callback : bool) (j : nat) : M unit :=
  match j with
  | O => mret tt
  | S j' =>
      a ← key_at (Z.of_nat j - 1);
      b ← key_at (Z.of_nat j);
      if a >? b then
        r ← gets running;
        if negb r then mret tt
        else
          highlight [Z.of_nat j; Z.of_nat j - 1] compare_color;;
          swap_bars (Z.of_nat j) (Z.of_nat j - 1);;
          highlight [Z.of_nat j - 1] settled_color;;
          notify callback;;
          sleep;;
          insertion_while callback j'
      else mret tt
  end.

(** The [for i in range(1, n)] loop of [insertion_sort]. *)
Fixpoint insertion_for (callback : bool) (indices : list nat) : M unit :=
  match indices with
  | [] => mret tt
  | i :: rest =>
      r ← gets running;
      if negb r then mret tt
      else
        highlight [Z.of_nat i] key_color;;
        sleep;;
        insertion_while callback i;;
        reset_colors;;
        insertion_for callback rest
  end.

Definition insertion_sort (callback : bool) : M unit :=
  modify (set_running true);;
  n ← gets (λ v, length (data v));
  insertion_for callback (range 1 n);;
  highlight (zrange 0 n) sorted_color;;
  modify (set_running false).

(** The [for j in range(i + 1, n)] loop of [selection_sort]; the result is
    [min_idx] when the loop is left. *)
Fixpoint selection_scan (i : nat) (js : list nat) (min_idx : nat) : M nat :=
  match js with
  | [] => mret min_idx
  | j :: rest =>
      r ← gets running;
      if negb r then mret min_idx
      else
        highlight [Z.of_nat j] compare_color;;
        sleep;;
        a ← key_at (Z.of_nat j);
        b ← key_at (Z.of_nat min_idx);
        let min_idx := if a <? b then j else min_idx in
        reset_colors;;
        highlight [Z.of_nat i; Z.of_nat min_idx] key_color;;
        selection_scan i rest min_idx
  end.

(** The [for i in range(n)] loop of [selection_sort]. *)
Fixpoint selection_for (callback : bool) (n : nat) (indices : list nat) : M unit :=
  match indices with
  | [] => mret tt
  | i :: rest =>
      r ← gets running;
      if negb r then mret tt
      else
        highlight [Z.of_nat i] key_color;;
        min_idx ← selection_scan i (range (i + 1) n) i;
        r ← gets running;
        if negb r then mret tt
        else
          (if negb (min_idx =? i)%nat
           then swap_bars (Z.of_nat i) (Z.of_nat min_idx);; notify callback
           else mret tt);;
          highlight (zrange 0 (i + 1)) settled_color;;
          selection_for callback n rest
  end.

Definition selection_sort (callback : bool) : M unit :=
  modify (set_running true);;
  n ← gets (λ v, length (data v));
  selection_for callback n (range 0 n);;
  highlight (zrange 0 n) sorted_color;;
  modify (set_running false).

(** ** [load_data] *)

(** [max(d[3] for d in self.data) if any(...) else 1]; marks are never
    [None] here, so the guard only fails on the empty list. *)
Definition max_marks (l : list Student) : Z :=
  match l with
  | [] => 1
  | d :: rest => foldl (λ m x, Z.max m (marks x)) (marks d) rest
  end.

Definition create (it : Item) : M Z := λ w,
  let '(id, c) := canvas_create it (canvas (vis w)) in
  Ok id (set_vis (set_canvas c (vis w)) w).

Definition text_color : string := "white".

(** One turn of [for i, d in enumerate(self.data)]. *)
Definition load_bar (max_val : Z) (bar_width : Q) (i : nat) (d : Student) : M unit :=
  v ← gets id;
  let x0 := (Qz (padding v) + Qn i * (bar_width + Qz 10))%Q in
  let y1 := Qz (height v - 40) in
  let bar_height :=
    if 0 <? max_val
    then ((Qz (marks d) / Qz max_val) * Qz (height v - 100))%Q
    else Qz 10 in
  let y0 := (y1 - bar_height)%Q in
  rect ← create (Rectangle x0 y0 (x0 + bar_width) y1 default_color);
  text ← create (Text (x0 + bar_width / Qz 2) (y0 - Qz 15) (str (marks d)) text_color);
  name_text ← create (Text (x0 + bar_width / Qz 2) (y1 + Qz 10) (name d) text_color);
  modify (λ v, set_bar_items (bar_items v ++ [rect]) v);;
  modify (λ v, set_text_items (text_items v ++ [(text, name_text)]) v).

Fixpoint load_bars (max_val : Z) (bar_width : Q) (i : nat) (ds : list Student) : M unit :=
  match ds with
  | [] => mret tt
  | d :: rest =>
      load_bar max_val bar_width i d;;
      load_bars max_val bar_width (S i) rest
  end.

Definition load_data (data_list : list Student) : M unit :=
  on_canvas canvas_delete_all;;
  modify (set_bar_items []);;
  modify (set_text_items []);;
  modify (set_data data_list);;
  d ← gets data;
  let n := length d in
  if (n =? 0)%nat then mret tt
  else
    let max_val := max_marks d in
    v ← gets id;
    let total_gap := (Z.of_nat n - 1) * 10 in
    let available_width := Z.max 100 (width v - 2 * padding v) in
    let bar_width := py_max (Qz 10) (Qz (available_width - total_gap) / Qn n) in
    load_bars max_val bar_width 0 d;;
    canvas_update.

(** ** The run controller in [StudentApp] *)

Inductive Algo := Insertion | Selection.

(** The [threading.Thread] object kept in [self.sort_thread]. *)
Record Thread := mkThread {
  target : Algo;
  is_alive : bool
}.

Inductive Signal :=
| ShowInfo (title message : string)   (* messagebox.showinfo *)
| Started                             (* the thread was started *)
| Failed (e : Exn).

Record StudentApp := mkApp {
  db : list Student;              (* what [self.db.fetch_all()] returns *)
  visualizer : World;
  info_label : string;
  sort_thread : option Thread
}.

Definition thread_alive (t : option Thread) : bool :=
  match t with
  | Some th => is_alive th
  | None => false
  end.

Definition start_sort (algo : Algo) (label : string) (app : StudentApp)
  : Signal * StudentApp :=
  if thread_alive (sort_thread app)
  then (ShowInfo "Sorting" "Already running.", app)
  else
    let rows := db app in
    match rows with
    | [] => (ShowInfo "Empty" "No data.", app)
    | _ :: _ =>
        match load_data rows (visualizer app) with
        | Ok _ w =>
            (Started, mkApp (db app) w label (Some (mkThread algo true)))
        | Raise e w =>
            (Failed e, mkApp (db app) w (info_label app) (sort_thread app))
        end
    end.

Definition start_insertion_sort : StudentApp → Signal * StudentApp :=
  start_sort Insertion "Insertion Sort running...".

Definition start_selection_sort : StudentApp → Signal * StudentApp :=
  start_sort Selection "Selection Sort running...".

(** The body of the background thread, [_run_sort]. *)
Definition _run_sort (algo : Algo) : M unit :=
  match algo with
  | Insertion => insertion_sort true
  | Selection => selection_sort true
  end.

(** A fresh visualizer on the application's 620 x 360 canvas. *)
Definition new_visualizer (slider : Q) : SortVisualizer :=
  mkVis (mkCanvas ∅ 1) slider [] [] [] 620 360 40 false.

Definition new_world (slider : Q) (script : list EnvAction) : World :=
  mkWorld (new_visualizer slider) script [].

(** * Specification vocabulary *)

(** Weakest preconditions: the run returns, and its result satisfies [Q]. *)
Definition wp {A} (m : M A) (Q : A → World → Prop) (w : World) : Prop :=
  match m w with
  | Ok a w' => Q a w'
  | Raise _ _ => False
  end.

(** The lists have one length: every index valid for one is valid for all. *)
Definition wf (v : SortVisualizer) : Prop :=
  length (data v) = length (bar_items v) ∧
  length (text_items v) = length (bar_items v).

(** Every bar handle names an item that is on the canvas. *)
Definition bars_drawn (v : SortVisualizer) : Prop :=
  ∀ b, b ∈ bar_items v → is_Some (items (canvas v) !! b).

(** The events logged between [w] and [w'] all show a state satisfying [P]. *)
Definition shows (P : SortVisualizer → Prop) (w w' : World) : Prop :=
  ∃ new, trace w' = new ++ trace w ∧ Forall (λ e, P e.2) new.

(** What a canvas item is: a rectangle, or a text with its content.  Moving
    and recolouring an item do not change it. *)
Definition item_label (it : Item) : option string :=
  match it with
  | Rectangle _ _ _ _ _ => None
  | Text _ _ t _ => Some t
  end.

Definition labels (c : Canvas) : gmap Z (option string) := item_label <$> items c.

Definition canvas_labels (w : World) : gmap Z (option string) :=
  labels (canvas (vis w)).

(** What the visualizer holds, up to positions and colours: the three
    lists and the items on the canvas. *)
Definition layout (v : SortVisualizer)
  : list Student * list Z * list (Z * Z) * gmap Z (option string) :=
  (data v, bar_items v, text_items v, labels (canvas v)).

(** Unless the user asks for a stop, a running sort is still running. *)
Definition stays_running (w w' : World) : Prop :=
  running (vis w) = true → EnvStop ∉ pending w → running (vis w') = true.

(** Between [w] and [w'] nothing was reordered, created or destroyed: only
    positions, colours, the slider and the [running] flag may differ. *)
Record quiet (w w' : World) : Prop := mkQuiet {
  quiet_layout : layout (vis w') = layout (vis w);
  quiet_labels : canvas_labels w' = canvas_labels w;
  quiet_pending : pending w' `suffix_of` pending w;
  quiet_trace : shows (λ v, layout v = layout (vis w)) w w';
  quiet_running : stays_running w w'
}.

(** The exchange [l[i], l[j] = l[j], l[i]] on a list. *)
Definition list_swap {A} (i j : nat) (l : list A) : list A :=
  match l !! i, l !! j with
  | Some xi, Some xj => <[j := xi]> (<[i := xj]> l)
  | _, _ => l
  end.

(** The bar at position [k] exists and is on the canvas. *)
Definition drawn (v : SortVisualizer) (k : nat) : Prop :=
  ∃ b, bar_items v !! k = Some b ∧ is_Some (items (canvas v) !! b).

(** The guards of [swap_bars] let the exchange of [i] and [j] through. *)
Definition swap_applies (i j : nat) (v : SortVisualizer) : Prop :=
  i ≠ j ∧ drawn v i ∧ drawn v j.

(** What a performed [swap_bars(i, j)] does between [w] and [w']. *)
Record swapped (i j : nat) (w w' : World) : Prop := mkSwapped {
  sw_data : data (vis w') = list_swap i j (data (vis w));
  sw_bars : bar_items (vis w') = list_swap i j (bar_items (vis w));
  sw_texts : text_items (vis w') = list_swap i j (text_items (vis w));
  sw_labels : canvas_labels w' = canvas_labels w;
  sw_pending : pending w' `suffix_of` pending w;
  sw_trace : shows (λ v, layout v = layout (vis w) ∨ layout v = layout (vis w')) w w';
  sw_running : stays_running w w'
}.

(** A record together with the handles at its position. *)
Definition rows (v : SortVisualizer) : list (Student * (Z * (Z * Z))) :=
  zip (data v) (zip (bar_items v) (text_items v)).

(** [v] holds the same records, each with the same handles, as [v0], and
    the same items are on the canvas. *)
Definition aligned (v0 v : SortVisualizer) : Prop :=
  wf v ∧ rows v ≡ₚ rows v0 ∧ labels (canvas v) = labels (canvas v0).

(** Between [w] and [w']: [P] holds at every observable point and at the
    end; no item was added to or removed from the canvas. *)
Record follows (P : SortVisualizer → Prop) (w w' : World) : Prop := mkFollows {
  fo_now : P (vis w');
  fo_labels : canvas_labels w' = canvas_labels w;
  fo_pending : pending w' `suffix_of` pending w;
  fo_trace : shows P w w'
}.

(** The run has not been cancelled and nobody is going to cancel it. *)
Definition calm (w : World) : Prop :=
  running (vis w) = true ∧ EnvStop ∉ pending w.

(** What the inner loop of [insertion_sort] does to [self.data] when it is
    not cancelled and every swap goes through. *)
Fixpoint insertion_while_data (j : nat) (l : list Student) : list Student :=
  match j with
  | O => l
  | S j' =>
      match l !! j', l !! j with
      | Some a, Some b =>
          if marks a >? marks b
          then insertion_while_data j' (list_swap j j' l)
          else l
      | _, _ => l
      end
  end.

Definition insertion_for_data (indices : list nat) (l : list Student) : list Student :=
  foldl (λ l i, insertion_while_data i l) l indices.

(** The fill colour of a canvas item, if the item exists. *)
Definition fill_of (c : Canvas) (id : Z) : option string :=
  item_fill <$> items c !! id.

(** Every bar of the visualizer is painted [color]. *)
Definition all_bars_filled (color : string) (v : SortVisualizer) : Prop :=
  ∀ k b, bar_items v !! k = Some b → fill_of (canvas v) b = Some color.

(** What [highlight(indices, color)] leaves behind on the canvas. *)
Definition painted (color : string) (indices : list Z) (w w' : World) : Prop :=
  bar_items (vis w') = bar_items (vis w) ∧
  (∀ b, fill_of (canvas (vis w)) b = Some color →
        fill_of (canvas (vis w')) b = Some color) ∧
  (∀ b, is_Some (items (canvas (vis w)) !! b) →
        is_Some (items (canvas (vis w')) !! b)) ∧
  (∀ (k : nat) b, Z.of_nat k ∈ indices → bar_items (vis w) !! k = Some b →
        is_Some (items (canvas (vis w)) !! b) →
        fill_of (canvas (vis w')) b = Some color).

(** The outcome of a sort between [w] and [w']; [data_fn] is what the
    uncancelled run does to [self.data]. *)
Record sort_done (data_fn : list Student → list Student) (w w' : World) : Prop :=
  mkSortDone {
    sd_follows : follows (aligned (vis w)) w w';
    sd_running : running (vis w') = false;
    sd_filled : bars_drawn (vis w) → all_bars_filled sorted_color (vis w');
    sd_last : ∃ v rest, trace w' = (EvUpdate, v) :: rest ∧
                        canvas v = canvas (vis w') ∧
                        bar_items v = bar_items (vis w');
    sd_data : EnvStop ∉ pending w → bars_drawn (vis w) →
              data (vis w') = data_fn (data (vis w))
  }.

(** The index [selection_sort]'s scan ends with when it is not cancelled. *)
Fixpoint selection_scan_min (l : list Student) (js : list nat) (min_idx : nat) : nat :=
  match js with
  | [] => min_idx
  | j :: rest =>
      match l !! j, l !! min_idx with
      | Some a, Some b =>
          selection_scan_min l rest (if marks a <? marks b then j else min_idx)
      | _, _ => min_idx
      end
  end.

(** What the outer loop of [selection_sort] does to [self.data] when it is
    not cancelled and every swap goes through. *)
Fixpoint selection_for_data (n : nat) (indices : list nat) (l : list Student)
  : list Student :=
  match indices with
  | [] => l
  | i :: rest =>
      let min_idx := selection_scan_min l (range (i + 1) n) i in
      selection_for_data n rest
        (if (min_idx =? i)%nat then l else list_swap i min_idx l)
  end.

(** Non-decreasing by key. *)
Definition key_le (a b : Student) : Prop := marks a ≤ marks b.

Definition sorted_by_key (l : list Student) : Prop := Sorted key_le l.

(** [m] is the first position in [[lo, hi)] that holds the least key there. *)
Definition earliest_min (l : list Student) (lo hi m : nat) : Prop :=
  (lo ≤ m < hi)%nat ∧
  (∀ k x y, (lo ≤ k < hi)%nat → l !! m = Some x → l !! k = Some y →
            marks x ≤ marks y) ∧
  (∀ k x y, (lo ≤ k < m)%nat → l !! m = Some x → l !! k = Some y →
            marks x < marks y).

(** Every record before position [i] has a key no larger than any record
    after it. *)
Definition settled (l : list Student) (i : nat) : Prop :=
  ∀ a b x y, (a < i)%nat → (a ≤ b)%nat → l !! a = Some x → l !! b = Some y →
             marks x ≤ marks y.

(** The handles of a row are the ones drawn for its record: the bar is a
    rectangle, the value label reads [str(d[3])] and the name label reads
    [d[1]]. *)
Definition row_shown (c : Canvas) (r : Student * (Z * (Z * Z))) : Prop :=
  labels c !! r.2.1 = Some None ∧
  labels c !! r.2.2.1 = Some (Some (str (marks r.1))) ∧
  labels c !! r.2.2.2 = Some (Some (name r.1)).

Definition labelled (v : SortVisualizer) : Prop :=
  Forall (row_shown (canvas v)) (rows v).

(** Item ids below [next_id] only. *)
Definition ids_fresh (c : Canvas) : Prop :=
  ∀ id, is_Some (items c !! id) → id < next_id c.

(** The state in which [load_data] has drawn the records [drawn_rows]. *)
Definition loading (all_rows drawn_rows : list Student) (v : SortVisualizer) : Prop :=
  data v = all_rows ∧
  length (bar_items v) = length drawn_rows ∧
  length (text_items v) = length drawn_rows ∧
  Forall (row_shown (canvas v)) (zip drawn_rows (zip (bar_items v) (text_items v))) ∧
  ids_fresh (canvas v).

(** The outcome of [load_data(data_list)] between [w] and [w']. *)
Record load_done (data_list : list Student) (w w' : World) : Prop := mkLoadDone {
  ld_data : data (vis w') = data_list;
  ld_wf : wf (vis w');
  ld_labelled : labelled (vis w');
  ld_pending : pending w' `suffix_of` pending w;
  ld_trace : shows (λ v, layout v = layout (vis w')) w w'
}.

(** The lists have one length and every position holds a record together
    with the handles drawn for it. *)
Definition consistent (v : SortVisualizer) : Prop := wf v ∧ labelled v.

(** ** Driving the visualizer

    Once the data is loaded, a client of [SortVisualizer] calls its other
    methods one after the other. *)

Inductive Call :=
| CallMove (index : Z) (dx dy : Q) (steps : nat)
| CallSwap (i j : Z)
| CallHighlight (indices : list Z) (color : string)
| CallReset
| CallInsertion (callback : bool)
| CallSelection (callback : bool)
| CallStop.

Definition call (c : Call) : M unit :=
  match c with
  | CallMove index dx dy steps => move_bar index dx dy steps
  | CallSwap i j => swap_bars i j
  | CallHighlight indices color => highlight indices color
  | CallReset => reset_colors
  | CallInsertion callback => insertion_sort callback
  | CallSelection callback => selection_sort callback
  | CallStop => modify stop
  end.

Fixpoint calls (cs : list Call) : M unit :=
  match cs with
  | [] => mret tt
  | c :: rest => call c;; calls rest
  end.

(** [P] holds at every observable point between [w] and [w'], and at [w']. *)
Definition throughout (P : SortVisualizer → Prop) (w w' : World) : Prop :=
  shows P w w' ∧ P (vis w').

(** ** Example inputs *)

Definition example_rows : list Student :=
  [mkStudent 1 "A" "r1" 30; mkStudent 2 "B" "r2" 10; mkStudent 3 "C" "r3" 20].

(** A world in which the user only moves the speed slider. *)
Definition example_world : World := new_world 40 [EnvSlide 90; EnvNone].

(** A world in which the user presses "Stop Sorting" at the fourth
    observable point. *)
Definition stopping_world : World :=
  new_world 40 [EnvNone; EnvNone; EnvNone; EnvStop].

Definition world_of {A} (r : Res A) : World :=
  match r with
  | Ok _ w => w
  | Raise _ w => w
  end.

(** The example rows, drawn. *)
Definition example_loaded : World :=
  Eval vm_compute in world_of (load_data example_rows (new_world 40 [])).

(** An application whose sort thread is running. *)
Definition busy_app : StudentApp :=
  mkApp example_rows example_loaded "Insertion Sort running..."
        (Some (mkThread Insertion true)).

(** An application whose sort thread is running while the table has been
    emptied. *)
Definition busy_empty_app : StudentApp :=
  mkApp [] example_loaded "Insertion Sort running..."
        (Some (mkThread Insertion true)).

(** An idle application with an empty table. *)
Definition idle_empty_app : StudentApp :=
  mkApp [] (new_world 40 []) "Ready" None.

(** ** Progress notifications in the trace *)

Definition is_callback (e : Event) : bool :=
  match e with
  | EvCallback _ => true
  | _ => false
  end.

Fixpoint count_callbacks (tr : list (Event * SortVisualizer)) : nat :=
  match tr with
  | [] => 0
  | e :: rest => ((if is_callback e.1 then 1 else 0) + count_callbacks rest)%nat
  end.

Definition callbacks (w : World) : nat := count_callbacks (trace w).

(** A computation that never calls the progress callback. *)
Definition silent {A} (m : M A) : Prop :=
  ∀ w, callbacks (world_of (m w)) = callbacks w.

(** * Further vocabulary *)

(** The records of [l] whose key is [k], in the order in which [l] has
    them. *)
Definition with_key (k : Z) (l : list Student) : list Student :=
  filter (λ d, marks d = k) l.


(** ** Recolouring *)

(** [canvas.itemconfig(b, fill=color)] for each [b] of [bs] in turn. *)
Definition recolor (bs : list Z) (color : string) (c : Canvas) : Canvas :=
  foldl (λ c b, canvas_itemconfig b color c) c bs.

(** The bars that [highlight(indices, ...)] reaches: those at the indices
    that pass its bounds test. *)
Definition picked (bars : list Z) (indices : list Z) : list Z :=
  omap (λ i, if (0 <=? i) && (i <? len bars) then bars !! Z.to_nat i else None)
       indices.

(** Where an item is and, for a text, what it reads. *)
Definition item_shape (it : Item) : list Q * option string :=
  (item_coords it, item_label it).

(** The world with the canvas changed by [f]. *)
Definition with_canvas (f : Canvas → Canvas) (w : World) : World :=
  set_vis (set_canvas (f (canvas (vis w))) (vis w)) w.

(** ** What [load_data] draws *)

(** The ids of the three items drawn for the record at position [k], when
    the canvas hands out ids from [n0] on. *)
Definition bar_id (n0 : Z) (k : nat) : Z := n0 + 3 * Z.of_nat k.
Definition value_id (n0 : Z) (k : nat) : Z := n0 + 3 * Z.of_nat k + 1.
Definition name_id (n0 : Z) (k : nat) : Z := n0 + 3 * Z.of_nat k + 2.

(** [bar_width] for [n] records on a canvas [wd] wide with padding [pad]. *)
Definition bar_width_of (wd pad : Z) (n : nat) : Q :=
  py_max (Qz 10) (Qz (Z.max 100 (wd - 2 * pad) - (Z.of_nat n - 1) * 10) / Qn n).

Definition bar_left (pad : Z) (bar_width : Q) (i : nat) : Q :=
  (Qz pad + Qn i * (bar_width + Qz 10))%Q.

Definition bar_height_of (ht max_val : Z) (d : Student) : Q :=
  if 0 <? max_val
  then ((Qz (marks d) / Qz max_val) * Qz (ht - 100))%Q
  else Qz 10.

Definition bar_bottom (ht : Z) : Q := Qz (ht - 40).

Definition bar_item (pad ht max_val : Z) (bar_width : Q) (i : nat) (d : Student) : Item :=
  Rectangle (bar_left pad bar_width i)
            (bar_bottom ht - bar_height_of ht max_val d)
            (bar_left pad bar_width i + bar_width)
            (bar_bottom ht) default_color.

Definition value_item (pad ht max_val : Z) (bar_width : Q) (i : nat) (d : Student) : Item :=
  Text (bar_left pad bar_width i + bar_width / Qz 2)
       (bar_bottom ht - bar_height_of ht max_val d - Qz 15)
       (str (marks d)) text_color.

Definition name_item (pad ht : Z) (bar_width : Q) (i : nat) (d : Student) : Item :=
  Text (bar_left pad bar_width i + bar_width / Qz 2)
       (bar_bottom ht + Qz 10)
       (name d) text_color.

(** All the handles a visualizer holds. *)
Definition handles (v : SortVisualizer) : list Z :=
  bar_items v ++ (text_items v).*1 ++ (text_items v).*2.

(** The state in which [load_data] has drawn the records [drawn_rows], the
    first of them with the ids [n0], [n0 + 1], [n0 + 2]. *)
Record drawing (pad ht max_val : Z) (bar_width : Q) (n0 : Z)
    (drawn_rows : list Student) (v : SortVisualizer) : Prop := mkDrawing {
  dr_padding : padding v = pad;
  dr_height : height v = ht;
  dr_bars : bar_items v = bar_id n0 <$> seq 0 (length drawn_rows);
  dr_texts : text_items v
             = (λ k, (value_id n0 k, name_id n0 k)) <$> seq 0 (length drawn_rows);
  dr_next : next_id (canvas v) = n0 + 3 * Z.of_nat (length drawn_rows);
  dr_dom : ∀ id, is_Some (items (canvas v) !! id) →
                 n0 ≤ id < n0 + 3 * Z.of_nat (length drawn_rows);
  dr_items : ∀ k d, drawn_rows !! k = Some d →
      items (canvas v) !! bar_id n0 k = Some (bar_item pad ht max_val bar_width k d) ∧
      items (canvas v) !! value_id n0 k
        = Some (value_item pad ht max_val bar_width k d) ∧
      items (canvas v) !! name_id n0 k = Some (name_item pad ht bar_width k d)
}.

(** ** Moving items *)



(** 1 for the item [x], 0 for the others. *)
Definition ind (x id : Z) : Q := if decide (id = x) then 1 else 0.





(** ** The picture and the lists *)

(** Two items at the same place and, for texts, reading the same; their
    colours may differ. *)
Definition same_place (a b : Item) : Prop :=
  match a, b with
  | Rectangle x0 y0 x1 y1 _, Rectangle x0' y0' x1' y1' _ =>
      (x0 == x0')%Q ∧ (y0 == y0')%Q ∧ (x1 == x1')%Q ∧ (y1 == y1')%Q
  | Text x y t _, Text x' y' t' _ => (x == x')%Q ∧ (y == y')%Q ∧ t = t'
  | _, _ => False
  end.

(** On the canvas [c] the items [b], [t] and [n] are the bar, the value
    label and the name label of the record [d], standing in slot [k]. *)
Definition row_at (pad ht max_val : Z) (bar_width : Q) (c : Canvas)
    (k : nat) (d : Student) (b t n : Z) : Prop :=
  ∃ ib it iN,
    items c !! b = Some ib ∧ same_place ib (bar_item pad ht max_val bar_width k d) ∧
    items c !! t = Some it ∧ same_place it (value_item pad ht max_val bar_width k d) ∧
    items c !! n = Some iN ∧ same_place iN (name_item pad ht bar_width k d).

(** The picture agrees with the lists: the three lists are equally long,
    no handle occurs twice, and the record listed at position [k] is
    drawn in slot [k] by the handles listed at [k]. *)
Record pictured (pad ht max_val : Z) (bar_width : Q) (v : SortVisualizer)
  : Prop := mkPictured {
  pi_wf : wf v;
  pi_handles : NoDup (handles v);
  pi_rows : ∀ k d b t n,
      data v !! k = Some d → bar_items v !! k = Some b →
      text_items v !! k = Some (t, n) →
      row_at pad ht max_val bar_width (canvas v) k d b t n
}.


(** A computation that calls the progress callback at most [k] times,
    whether it returns or raises. *)
Definition calls_at_most {A} (k : nat) (m : M A) : Prop :=
  ∀ w, (callbacks (world_of (m w)) ≤ callbacks w + k)%nat.

(** ** After "Stop Sorting" *)

(** The progress callbacks made while [running] was already false. *)
Fixpoint count_late (tr : list (Event * SortVisualizer)) : nat :=
  match tr with
  | [] => 0
  | e :: rest =>
      ((if is_callback e.1 && negb (running e.2) then 1 else 0) + count_late rest)%nat
  end.

Definition late_callbacks (w : World) : nat := count_late (trace w).

Definition end_of {A} (m : M A) (w : World) : World := world_of (m w).

(** A computation that never calls the callback after a stop and never
    sets [running] again. *)
Definition discreet {A} (m : M A) : Prop :=
  ∀ w, late_callbacks (end_of m w) = late_callbacks w ∧
       (running (vis w) = false → running (vis (end_of m w)) = false).

(** A computation that calls the callback at most once after a stop, and
    never sets [running] again. *)
Definition one_more {A} (m : M A) : Prop :=
  ∀ w, (late_callbacks (end_of m w) ≤ late_callbacks w + 1)%nat ∧
       (running (vis w) = false → running (vis (end_of m w)) = false) ∧
       (running (vis (end_of m w)) = true →
        late_callbacks (end_of m w) = late_callbacks w).

(** A computation that, besides, calls no callback at all when it starts
    stopped. *)
Definition settles {A} (m : M A) : Prop :=
  one_more m ∧
  ∀ w, running (vis w) = false → late_callbacks (end_of m w) = late_callbacks w.
(** * Reasoning about runs *)

Lemma wp_ret {A} (a : A) (Q : A → World → Prop) w : Q a w → wp (mret a) Q w.
Proof. done. Qed.

Lemma wp_bind {A B} (m : M A) (f : A → M B) (Q : B → World → Prop) w :
  wp m (λ a w', wp (f a) Q w') w → wp (m ≫= f) Q w.
Proof. unfold wp, mbind, M_bind. by destruct (m w). Qed.

Lemma wp_mono {A} (m : M A) (Q Q' : A → World → Prop) w :
  wp m Q w → (∀ a w', Q a w' → Q' a w') → wp m Q' w.
Proof. unfold wp. destruct (m w); eauto. Qed.

Lemma wp_gets {A} (f : SortVisualizer → A) (Q : A → World → Prop) w :
  Q (f (vis w)) w → wp (gets f) Q w.
Proof. done. Qed.

Lemma wp_modify f (Q : unit → World → Prop) w :
  Q tt (set_vis (f (vis w)) w) → wp (modify f) Q w.
Proof. done. Qed.

Lemma wp_run {A} (m : M A) (Q : A → World → Prop) w :
  wp m Q w → ∃ a w', m w = Ok a w' ∧ Q a w'.
Proof. unfold wp. destruct (m w); [eauto | done]. Qed.

Lemma wp_of_run {A} (m : M A) (Q : A → World → Prop) w a w' :
  m w = Ok a w' → Q a w' → wp m Q w.
Proof. unfold wp. by intros ->. Qed.

(** ** Python indexing *)

Lemma py_index_nat {A} (l : list A) (k : nat) :
  (k < length l)%nat → py_index l (Z.of_nat k) = Some k.
Proof.
  intros Hk. unfold py_index.
  replace (0 <=? Z.of_nat k) with true by (symmetry; apply Z.leb_le; lia).
  replace (Z.of_nat k <? Z.of_nat (length l)) with true
    by (symmetry; apply Z.ltb_lt; lia).
  simpl. by rewrite Nat2Z.id.
Qed.

Lemma py_index_lt {A} (l : list A) (i : Z) (k : nat) :
  py_index l i = Some k → (k < length l)%nat.
Proof.
  unfold py_index. intros H.
  destruct ((0 <=? i) && (i <? Z.of_nat (length l))) eqn:E1.
  - apply andb_true_iff in E1 as [?%Z.leb_le ?%Z.ltb_lt]. simplify_eq. lia.
  - destruct ((i <? 0) && (- Z.of_nat (length l) <=? i)) eqn:E2; [|done].
    apply andb_true_iff in E2 as [?%Z.ltb_lt ?%Z.leb_le]. simplify_eq. lia.
Qed.

Lemma wp_getitem {A} (l : list A) (k : nat) (x : A) (Q : A → World → Prop) w :
  l !! k = Some x → Q x w → wp (getitem l (Z.of_nat k)) Q w.
Proof.
  intros Hx HQ. unfold wp, getitem.
  rewrite py_index_nat by (by eapply lookup_lt_Some). by rewrite Hx.
Qed.

Lemma wp_setitem {A} (l : list A) (k : nat) (x : A) (Q : list A → World → Prop) w :
  (k < length l)%nat → Q (<[k := x]> l) w → wp (setitem l (Z.of_nat k) x) Q w.
Proof. intros Hk HQ. unfold wp, setitem. by rewrite py_index_nat. Qed.

(** ** Runs that leave the three lists alone *)

Lemma shows_refl P w : shows P w w.
Proof. by exists []. Qed.

Lemma shows_trans P w1 w2 w3 : shows P w1 w2 → shows P w2 w3 → shows P w1 w3.
Proof.
  intros (n1 & E1 & F1) (n2 & E2 & F2). exists (n2 ++ n1). split.
  - by rewrite E2, E1, app_assoc.
  - by apply Forall_app.
Qed.

Lemma shows_mono (P P' : SortVisualizer → Prop) w w' :
  (∀ v, P v → P' v) → shows P w w' → shows P' w w'.
Proof.
  intros HP (new & E & F). exists new. split; [done|].
  eapply Forall_impl; [exact F|]. intros e. apply HP.
Qed.

Lemma no_stop_suffix (p p' : list EnvAction) :
  p' `suffix_of` p → EnvStop ∉ p → EnvStop ∉ p'.
Proof. intros [k ->] H Hin. apply H. apply elem_of_app. by right. Qed.

Lemma quiet_refl w : quiet w w.
Proof. split; [done | done | done | apply shows_refl | by intros ? ?]. Qed.

Lemma quiet_trans w1 w2 w3 : quiet w1 w2 → quiet w2 w3 → quiet w1 w3.
Proof.
  intros [L1 D1 P1 T1 R1] [L2 D2 P2 T2 R2]. split.
  - by rewrite L2.
  - by rewrite D2.
  - by etrans.
  - eapply shows_trans; [exact T1|].
    eapply shows_mono; [|exact T2]. intros v Hv. simpl in Hv. by rewrite Hv.
  - intros Hr Hn. apply R2; [by apply R1|]. by eapply no_stop_suffix.
Qed.

#[global] Instance quiet_preorder : PreOrder quiet.
Proof. split; [exact quiet_refl | exact quiet_trans]. Qed.

Lemma layout_eq v v' :
  layout v' = layout v →
  data v' = data v ∧ bar_items v' = bar_items v ∧ text_items v' = text_items v.
Proof. unfold layout. intros H. by simplify_eq. Qed.

Lemma quiet_fields w w' :
  quiet w w' →
  data (vis w') = data (vis w) ∧ bar_items (vis w') = bar_items (vis w) ∧
  text_items (vis w') = text_items (vis w).
Proof. intros [L _ _ _ _]. by apply layout_eq. Qed.

Lemma quiet_wf w w' : quiet w w' → wf (vis w) → wf (vis w').
Proof.
  intros (Hd & Hb & Ht)%quiet_fields. unfold wf. by rewrite Hd, Hb, Ht.
Qed.

Lemma labels_is_Some c c' id :
  labels c' = labels c → is_Some (items c !! id) → is_Some (items c' !! id).
Proof.
  intros HL. rewrite <- !elem_of_dom.
  rewrite <- (dom_fmap_L item_label (items c)), <- (dom_fmap_L item_label (items c')).
  unfold labels in HL. by rewrite HL.
Qed.

Lemma quiet_bars_drawn w w' : quiet w w' → bars_drawn (vis w) → bars_drawn (vis w').
Proof.
  intros Hq H b Hb. pose proof (quiet_fields _ _ Hq) as (_ & Hbars & _).
  destruct Hq as [_ D _ _ _].
  eapply labels_is_Some; [exact D|]. apply H. by rewrite <- Hbars.
Qed.

Lemma env_apply_layout a v : layout (env_apply a v) = layout v.
Proof. by destruct a. Qed.

Lemma env_apply_canvas a v : canvas (env_apply a v) = canvas v.
Proof. by destruct a. Qed.

Lemma yield_quiet e w : wp (yield e) (λ _ w', quiet w w') w.
Proof.
  unfold wp, yield. destruct (pending w) as [|a rest] eqn:Ep; simpl.
  - split.
    + done.
    + done.
    + simpl. apply suffix_nil.
    + exists [(e, vis w)]. split; [done|]. by repeat constructor.
    + by intros ? ?.
  - split.
    + apply env_apply_layout.
    + unfold canvas_labels. simpl. by rewrite env_apply_canvas.
    + simpl. rewrite Ep. by apply suffix_cons_r.
    + exists [(e, vis w)]. split; [done|]. by repeat constructor.
    + intros Hr Hn. simpl. destruct a; simpl; try done.
      exfalso. apply Hn. rewrite Ep. by left.
Qed.

Lemma canvas_update_quiet w : wp canvas_update (λ _ w', quiet w w') w.
Proof. apply yield_quiet. Qed.

Lemma sleep_quiet w : wp sleep (λ _ w', quiet w w') w.
Proof.
  unfold sleep, get_speed. apply wp_bind, wp_bind, wp_gets, wp_ret, yield_quiet.
Qed.

Lemma notify_quiet callback w : wp (notify callback) (λ _ w', quiet w w') w.
Proof.
  unfold notify. destruct callback.
  - apply wp_bind, wp_gets, yield_quiet.
  - apply wp_ret, quiet_refl.
Qed.

Lemma on_canvas_quiet f w :
  (∀ c, labels (f c) = labels c) →
  wp (on_canvas f) (λ _ w', quiet w w') w.
Proof.
  intros Hf. apply wp_modify. split.
  - unfold layout. simpl. by rewrite Hf.
  - unfold canvas_labels. simpl. apply Hf.
  - done.
  - by exists [].
  - by intros ? ?.
Qed.

Lemma labels_alter f id (m : gmap Z Item) :
  (∀ it, item_label (f it) = item_label it) →
  item_label <$> alter f id m = item_label <$> m.
Proof.
  intros Hf. apply map_eq. intros k. rewrite !lookup_fmap.
  destruct (decide (id = k)) as [->|Hne].
  - rewrite lookup_alter_eq. destruct (m !! k); simpl; [by rewrite Hf | done].
  - by rewrite lookup_alter_ne.
Qed.

Lemma canvas_move_labels id dx dy c : labels (canvas_move id dx dy c) = labels c.
Proof. unfold labels. simpl. apply labels_alter. by intros []. Qed.

Lemma canvas_itemconfig_labels id color c :
  labels (canvas_itemconfig id color c) = labels c.
Proof. unfold labels. simpl. apply labels_alter. by intros []. Qed.

(** Chaining: run [m] with a known specification, continue from its result. *)
Lemma wp_seq {A B} (m : M A) (f : A → M B) (R : A → World → Prop)
    (Q : B → World → Prop) w :
  wp m R w → (∀ a w', R a w' → wp (f a) Q w') → wp (m ≫= f) Q w.
Proof. intros Hm Hf. apply wp_bind. eapply wp_mono; [exact Hm | exact Hf]. Qed.

Lemma wp_quiet_seq {A} (m : M unit) (f : unit → M A) (Q : A → World → Prop) w :
  wp m (λ _ w', quiet w w') w →
  (∀ w', quiet w w' → wp (f tt) Q w') →
  wp (m ≫= f) Q w.
Proof. intros Hm Hf. eapply wp_seq; [exact Hm|]. intros [] w'. apply Hf. Qed.

Lemma in_range_nat (i : Z) (n : nat) :
  (0 <=? i) && (i <? Z.of_nat n) = true →
  ∃ k : nat, i = Z.of_nat k ∧ (k < n)%nat.
Proof.
  intros [?%Z.leb_le ?%Z.ltb_lt]%andb_true_iff.
  exists (Z.to_nat i). split; lia.
Qed.

Lemma highlight_each_quiet indices color w :
  wp (highlight_each indices color) (λ _ w', quiet w w') w.
Proof.
  revert w. induction indices as [|i rest IH]; intros w; simpl.
  - apply wp_ret, quiet_refl.
  - apply wp_bind, wp_gets.
    eapply wp_quiet_seq.
    + destruct ((0 <=? i) && (i <? len (bar_items (vis w)))) eqn:E.
      * apply in_range_nat in E as (k & -> & Hk).
        destruct (lookup_lt_is_Some_2 _ _ Hk) as [b Hb].
        apply wp_bind. eapply wp_getitem; [exact Hb|].
        apply on_canvas_quiet. intros c. apply canvas_itemconfig_labels.
      * apply wp_ret, quiet_refl.
    + intros w1 Hq1. eapply wp_mono; [apply IH|].
      intros [] w2 Hq2. simpl in Hq2. by etrans.
Qed.

Lemma highlight_quiet indices color w :
  wp (highlight indices color) (λ _ w', quiet w w') w.
Proof.
  unfold highlight. eapply wp_quiet_seq; [apply highlight_each_quiet|].
  intros w1 Hq1. eapply wp_mono; [apply canvas_update_quiet|].
  intros [] w2 Hq2. simpl in Hq2. by etrans.
Qed.

Lemma reset_each_quiet indices w :
  Forall (λ i, (i < length (bar_items (vis w)))%nat) indices →
  wp (reset_each indices) (λ _ w', quiet w w') w.
Proof.
  revert w. induction indices as [|i rest IH]; intros w Hall; simpl.
  - apply wp_ret, quiet_refl.
  - apply Forall_cons in Hall as [Hi Hrest].
    apply wp_bind, wp_gets.
    destruct (lookup_lt_is_Some_2 _ _ Hi) as [b Hb].
    apply wp_bind. eapply wp_getitem; [exact Hb|].
    eapply wp_quiet_seq.
    + apply on_canvas_quiet. intros c. apply canvas_itemconfig_labels.
    + intros w1 Hq1. eapply wp_mono; [apply IH|].
      * apply quiet_fields in Hq1 as (_ & -> & _). done.
      * intros [] w2 Hq2. simpl in Hq2. by etrans.
Qed.

Lemma reset_colors_quiet w : wp reset_colors (λ _ w', quiet w w') w.
Proof.
  unfold reset_colors. apply wp_bind, wp_gets.
  eapply wp_quiet_seq.
  - apply reset_each_quiet. apply Forall_forall. intros i Hi.
    apply list_elem_of_In, in_seq in Hi. lia.
  - intros w1 Hq1. eapply wp_mono; [apply canvas_update_quiet|].
    intros [] w2 Hq2. simpl in Hq2. by etrans.
Qed.

Lemma repeatM_quiet k (m : M unit) w :
  (∀ w', quiet w w' → wp m (λ _ w'', quiet w' w'') w') →
  wp (repeatM k m) (λ _ w', quiet w w') w.
Proof.
  intros Hm. assert (Hq : quiet w w) by apply quiet_refl.
  revert Hq. generalize w at 2 4 as w0. induction k as [|k IH]; intros w0 Hq; simpl.
  - by apply wp_ret.
  - eapply wp_seq; [by apply Hm|].
    intros [] w1 Hq1. simpl in Hq1. apply IH. by etrans.
Qed.

Lemma move_bar_quiet index dx dy steps w :
  wf (vis w) → wp (move_bar index dx dy steps) (λ _ w', quiet w w') w.
Proof.
  intros Hwf. unfold move_bar. apply wp_bind, wp_gets.
  destruct ((index <? 0) || (index >=? len (bar_items (vis w)))) eqn:E.
  { apply wp_ret, quiet_refl. }
  apply orb_false_iff in E as [E1%Z.ltb_ge E2].
  rewrite Z.geb_leb in E2. apply Z.leb_gt in E2. unfold len in E2.
  assert (∃ k : nat, index = Z.of_nat k ∧ (k < length (bar_items (vis w)))%nat)
    as (k & -> & Hk) by (exists (Z.to_nat index); lia).
  apply repeatM_quiet. intros w1 Hq1.
  pose proof (quiet_wf _ _ Hq1 Hwf) as [Hwf1 Hwf2].
  pose proof (quiet_fields _ _ Hq1) as (_ & Hb1 & _).
  assert (Hk1 : (k < length (bar_items (vis w1)))%nat) by by rewrite Hb1.
  destruct (lookup_lt_is_Some_2 _ _ Hk1) as [b Hb].
  assert (Hk2 : (k < length (text_items (vis w1)))%nat) by by rewrite Hwf2.
  destruct (lookup_lt_is_Some_2 _ _ Hk2) as [tn Htn].
  apply wp_bind, wp_gets. apply wp_bind. eapply wp_getitem; [exact Hb|].
  eapply wp_quiet_seq.
  { apply on_canvas_quiet. intros c. apply canvas_move_labels. }
  intros w2 Hq2. apply wp_bind, wp_gets.
  pose proof (quiet_fields _ _ Hq2) as (_ & _ & Ht2). rewrite Ht2.
  apply wp_bind. eapply wp_getitem; [exact Htn|].
  eapply wp_quiet_seq.
  { apply on_canvas_quiet. intros c. apply canvas_move_labels. }
  intros w3 Hq3.
  eapply wp_quiet_seq.
  { apply on_canvas_quiet. intros c. apply canvas_move_labels. }
  intros w4 Hq4.
  eapply wp_quiet_seq; [apply canvas_update_quiet|].
  intros w5 Hq5.
  eapply wp_mono; [apply sleep_quiet|].
  intros [] w6 Hq6. simpl in Hq6.
  etrans; [exact Hq2|]. etrans; [exact Hq3|]. etrans; [exact Hq4|]. by etrans.
Qed.

Lemma key_at_spec (k : nat) (x : Student) (Q : Z → World → Prop) w :
  data (vis w) !! k = Some x → Q (marks x) w → wp (key_at (Z.of_nat k)) Q w.
Proof.
  intros Hx HQ. unfold key_at. apply wp_bind, wp_gets.
  apply wp_bind. eapply wp_getitem; [exact Hx|]. by apply wp_ret.
Qed.

(** ** The exchange *)

Lemma list_swap_length {A} i j (l : list A) : length (list_swap i j l) = length l.
Proof.
  unfold list_swap. destruct (l !! i), (l !! j); try done.
  by rewrite !length_insert.
Qed.

Lemma list_swap_lookup {A} i j (l : list A) xi xj :
  l !! i = Some xi → l !! j = Some xj →
  list_swap i j l = <[j := xi]> (<[i := xj]> l).
Proof. intros Hi Hj. unfold list_swap. by rewrite Hi, Hj. Qed.

Lemma swap_items_spec {A} (get : SortVisualizer → list A)
    (set : list A → SortVisualizer → SortVisualizer) (i j : nat) w :
  (∀ l v, get (set l v) = l) →
  (∀ l l' v, set l (set l' v) = set l v) →
  (i < length (get (vis w)))%nat → (j < length (get (vis w)))%nat →
  wp (swap_items get set (Z.of_nat i) (Z.of_nat j))
     (λ _ w', w' = set_vis (set (list_swap i j (get (vis w))) (vis w)) w) w.
Proof.
  intros Hgs Hss Hi Hj. unfold swap_items.
  destruct (lookup_lt_is_Some_2 _ _ Hi) as [xi Hxi].
  destruct (lookup_lt_is_Some_2 _ _ Hj) as [xj Hxj].
  apply wp_bind, wp_gets.
  apply wp_bind. eapply wp_getitem; [exact Hxj|].
  apply wp_bind. eapply wp_getitem; [exact Hxi|].
  apply wp_bind. apply wp_setitem; [done|].
  apply wp_bind, wp_modify. apply wp_bind, wp_gets. simpl. rewrite Hgs.
  apply wp_bind. apply wp_setitem; [by rewrite length_insert|].
  apply wp_modify. simpl. rewrite Hss.
  by rewrite (list_swap_lookup _ _ _ _ _ Hxi Hxj).
Qed.

Lemma canvas_coords_drawn b c :
  is_Some (items c !! b) → ∃ x rest, canvas_coords b c = x :: rest.
Proof.
  intros [it Hit]. unfold canvas_coords. rewrite Hit.
  destruct it; simpl; eauto.
Qed.

Lemma canvas_coords_missing b c :
  items c !! b = None → canvas_coords b c = [].
Proof. intros H. unfold canvas_coords. by rewrite H. Qed.

Lemma swap_bars_spec (i j : nat) w :
  wf (vis w) →
  wp (swap_bars (Z.of_nat i) (Z.of_nat j))
     (λ _ w', (swap_applies i j (vis w) ∧ swapped i j w w') ∨
              (¬ swap_applies i j (vis w) ∧ w' = w)) w.
Proof.
  intros Hwf. unfold swap_bars.
  destruct (Z.of_nat i =? Z.of_nat j) eqn:Eij.
  { apply Z.eqb_eq in Eij. apply wp_ret. right. split; [|done].
    intros (Hne & _). lia. }
  apply Z.eqb_neq in Eij.
  apply wp_bind, wp_gets.
  destruct ((0 <=? Z.of_nat i) && (Z.of_nat i <? len (bar_items (vis w))) &&
            ((0 <=? Z.of_nat j) && (Z.of_nat j <? len (bar_items (vis w))))) eqn:Er; simpl.
  2:{ apply wp_ret. right. split; [|done].
      intros (_ & (bi & Hbi & _) & (bj & Hbj & _)).
      apply lookup_lt_Some in Hbi, Hbj. unfold len in Er.
      apply andb_false_iff in Er as [Er|Er]; apply andb_false_iff in Er as [Er|Er];
        try apply Z.leb_gt in Er; try apply Z.ltb_ge in Er; lia. }
  apply andb_true_iff in Er as [(k1 & E1 & Hi)%in_range_nat (k2 & E2 & Hj)%in_range_nat].
  apply Nat2Z.inj in E1, E2. subst k1 k2.
  destruct (lookup_lt_is_Some_2 _ _ Hi) as [bi Hbi].
  destruct (lookup_lt_is_Some_2 _ _ Hj) as [bj Hbj].
  apply wp_bind. eapply wp_getitem; [exact Hbi|].
  apply wp_bind, wp_gets.
  apply wp_bind. eapply wp_getitem; [exact Hbj|].
  apply wp_bind, wp_gets.
  destruct (items (canvas (vis w)) !! bi) as [iti|] eqn:Ebi.
  2:{ rewrite (canvas_coords_missing _ _ Ebi). apply wp_ret. right. split; [|done].
      intros (_ & (b & Hb & [it Hit]) & _). congruence. }
  destruct (canvas_coords_drawn bi (canvas (vis w))) as (x1 & r1 & ->); [by eexists|].
  destruct (items (canvas (vis w)) !! bj) as [itj|] eqn:Ebj.
  2:{ rewrite (canvas_coords_missing _ _ Ebj). apply wp_ret. right. split; [|done].
      intros (_ & _ & (b & Hb & [it Hit])). congruence. }
  destruct (canvas_coords_drawn bj (canvas (vis w))) as (x2 & r2 & ->); [by eexists|].
  assert (Happ : swap_applies i j (vis w)).
  { split; [lia|]. split; eexists; split; eauto. }
  eapply wp_quiet_seq; [by apply move_bar_quiet|]. intros w1 Hq1.
  eapply wp_quiet_seq; [by apply move_bar_quiet, (quiet_wf w)|]. intros w2 Hq2.
  assert (Hq02 : quiet w w2) by by etrans.
  eapply wp_quiet_seq; [by apply move_bar_quiet, (quiet_wf w)|]. intros w3 Hq3.
  assert (Hq03 : quiet w w3) by by etrans.
  eapply wp_quiet_seq; [by apply move_bar_quiet, (quiet_wf w)|]. intros w4 Hq4.
  assert (Hq04 : quiet w w4) by by etrans.
  eapply wp_quiet_seq; [by apply move_bar_quiet, (quiet_wf w)|]. intros w5 Hq5.
  assert (Hq05 : quiet w w5) by by etrans.
  eapply wp_quiet_seq; [by apply move_bar_quiet, (quiet_wf w)|]. intros w6 Hq6.
  assert (Hq : quiet w w6) by by etrans.
  clear Hq1 Hq2 Hq3 Hq4 Hq5 Hq6 Hq02 Hq03 Hq04 Hq05 w1 w2 w3 w4 w5.
  pose proof (quiet_fields _ _ Hq) as (Hd & Hb & Ht).
  destruct Hwf as [Hwf1 Hwf2].
  eapply wp_seq.
  { apply (swap_items_spec bar_items set_bar_items i j); try done; by rewrite Hb. }
  intros [] w7 ->.
  eapply wp_seq.
  { apply (swap_items_spec text_items set_text_items i j); try done; simpl;
      rewrite Ht; lia. }
  intros [] w8 ->.
  eapply wp_seq.
  { apply (swap_items_spec data set_data i j); try done; simpl;
      rewrite Hd; lia. }
  intros [] w9 ->. simpl.
  eapply wp_mono; [apply canvas_update_quiet|].
  intros [] w' Hq'. left. split; [done|].
  pose proof (quiet_fields _ _ Hq') as (Hd' & Hb' & Ht'). simpl in Hd', Hb', Ht'.
  destruct Hq as [HL HD HP HT HR]. destruct Hq' as [HL' HD' HP' HT' HR'].
  unfold canvas_labels, stays_running in *. simpl in *.
  rewrite Hd, Hb, Ht in *.
  split; unfold canvas_labels, stays_running; try done.
  - by rewrite HD'.
  - by etrans.
  - destruct HT as (n1 & E1 & F1), HT' as (n2 & E2 & F2).
    exists (n2 ++ n1). split.
    + simpl in E2. by rewrite E2, E1, app_assoc.
    + apply Forall_app. split.
      * eapply Forall_impl; [exact F2|]. intros e He. right. simpl in He.
        by rewrite He, HL'.
      * eapply Forall_impl; [exact F1|]. intros e He. by left.
  - intros Hr Hn. apply HR'; [by apply HR|]. by eapply no_stop_suffix.
Qed.

Lemma insert_delete_perm {A} (l : list A) j x :
  (j < length l)%nat → <[j := x]> l ≡ₚ x :: delete j l.
Proof.
  revert j. induction l as [|y l IH]; intros [|j] Hj; simpl in *; try lia.
  - done.
  - rewrite IH by lia. apply perm_swap.
Qed.

Lemma list_swap_perm {A} i j (l : list A) : list_swap i j l ≡ₚ l.
Proof.
  unfold list_swap.
  destruct (l !! i) as [xi|] eqn:Hi; [|done].
  destruct (l !! j) as [xj|] eqn:Hj; [|done].
  revert i j Hi Hj. induction l as [|y l IH]; intros [|i] [|j] Hi Hj; simpl in *;
    simplify_eq; try done.
  - rewrite insert_delete_perm by (by eapply lookup_lt_Some).
    rewrite (delete_Permutation l j xj Hj) at 2. apply perm_swap.
  - rewrite insert_delete_perm by (by eapply lookup_lt_Some).
    rewrite (delete_Permutation l i xi Hi) at 2. apply perm_swap.
  - by rewrite IH.
Qed.

Lemma zip_list_swap {A B} i j (l1 : list A) (l2 : list B) :
  length l1 = length l2 →
  zip (list_swap i j l1) (list_swap i j l2) = list_swap i j (zip l1 l2).
Proof.
  intros Hlen. unfold list_swap. rewrite !lookup_zip_with.
  destruct (l1 !! i) as [a1|] eqn:H1i; simpl.
  2:{ apply lookup_ge_None in H1i.
      rewrite (lookup_ge_None_2 l2 i) by lia. by destruct (l1 !! j), (l2 !! j). }
  destruct (lookup_lt_is_Some_2 l2 i) as [b1 H2i];
    [apply lookup_lt_Some in H1i; lia|]. rewrite H2i. simpl.
  destruct (l1 !! j) as [a2|] eqn:H1j; simpl.
  2:{ apply lookup_ge_None in H1j. by rewrite (lookup_ge_None_2 l2 j) by lia. }
  destruct (lookup_lt_is_Some_2 l2 j) as [b2 H2j];
    [apply lookup_lt_Some in H1j; lia|]. rewrite H2j. simpl.
  by rewrite !insert_zip_with.
Qed.

(** ** Alignment is kept by quiet runs and by exchanges *)

Lemma aligned_refl v : wf v → aligned v v.
Proof. by split. Qed.

Lemma aligned_layout v0 v v' : layout v' = layout v → aligned v0 v → aligned v0 v'.
Proof.
  intros HL (Hwf & Hp & Hl). pose proof (layout_eq _ _ HL) as (Hd & Hb & Ht).
  assert (Hl' : labels (canvas v') = labels (canvas v)).
  { unfold layout in HL. by simplify_eq. }
  unfold aligned, wf, rows. by rewrite Hd, Hb, Ht, Hl'.
Qed.

Lemma follows_refl (P : SortVisualizer → Prop) w : P (vis w) → follows P w w.
Proof. intros HP. split; [done | done | done | apply shows_refl]. Qed.

Lemma follows_trans P w1 w2 w3 : follows P w1 w2 → follows P w2 w3 → follows P w1 w3.
Proof.
  intros [N1 L1 P1 T1] [N2 L2 P2 T2]. split.
  - done.
  - by rewrite L2.
  - by etrans.
  - by eapply shows_trans.
Qed.

Lemma follows_mono (P P' : SortVisualizer → Prop) w w' :
  (∀ v, P v → P' v) → follows P w w' → follows P' w w'.
Proof.
  intros HP [N L Pe T]. split; [by apply HP | done | done |].
  by eapply shows_mono.
Qed.

Lemma quiet_follows v0 w w' :
  quiet w w' → aligned v0 (vis w) → follows (aligned v0) w w'.
Proof.
  intros [L Lb Pe T R] Ha. split; [| done | done |].
  - by eapply aligned_layout.
  - eapply shows_mono; [|exact T]. intros v Hv. simpl in Hv.
    eapply aligned_layout; [exact Hv | exact Ha].
Qed.

Lemma swapped_aligned i j v0 w w' :
  swapped i j w w' → aligned v0 (vis w) → aligned v0 (vis w').
Proof.
  intros [Hd Hb Ht Hl _ _ _] ([Hw1 Hw2] & Hp & Hl0). split; [|split].
  - unfold wf. rewrite Hd, Hb, Ht, !list_swap_length. done.
  - unfold rows. rewrite Hd, Hb, Ht.
    rewrite (zip_list_swap i j (bar_items (vis w))) by done.
    rewrite zip_list_swap by (rewrite length_zip; lia).
    by rewrite list_swap_perm.
  - unfold canvas_labels in Hl. by rewrite Hl.
Qed.

Lemma swapped_follows i j v0 w w' :
  swapped i j w w' → aligned v0 (vis w) → follows (aligned v0) w w'.
Proof.
  intros Hs Ha. pose proof (swapped_aligned _ _ _ _ _ Hs Ha) as Ha'.
  destruct Hs as [_ _ _ Lb Pe T _]. split; [done | done | done |].
  eapply shows_mono; [|exact T].
  intros v [Hv|Hv]; (eapply aligned_layout; [exact Hv | done]).
Qed.

Lemma quiet_calm w w' : quiet w w' → calm w → calm w'.
Proof.
  intros [_ _ Pe _ R] [Hr Hn]. split; [by apply R | by eapply no_stop_suffix].
Qed.

Lemma swapped_calm i j w w' : swapped i j w w' → calm w → calm w'.
Proof.
  intros [_ _ _ _ Pe _ R] [Hr Hn]. split; [by apply R | by eapply no_stop_suffix].
Qed.

Lemma follows_bars_drawn v0 w w' :
  follows (aligned v0) w w' → aligned v0 (vis w) →
  bars_drawn (vis w) → bars_drawn (vis w').
Proof.
  intros [(Hwf' & Hp' & _) Lb _ _] (Hwf & Hp & _) Hd b Hb.
  eapply labels_is_Some; [exact Lb|]. apply Hd.
  assert (Hrows : rows (vis w') ≡ₚ rows (vis w)) by (by rewrite Hp', Hp).
  apply (fmap_Permutation (λ r, r.2.1)) in Hrows.
  unfold rows in Hrows.
  destruct Hwf as [W1 W2], Hwf' as [W1' W2'].
  assert (Hproj : ∀ (d : list Student) (bs : list Z) (ts : list (Z * Z)),
    length d = length bs → length ts = length bs →
    (λ r : Student * (Z * (Z * Z)), r.2.1) <$> zip d (zip bs ts) = bs).
  { intros d. induction d as [|x d IH]; intros [|b0 bs] [|t ts] H1 H2;
      simpl in *; try done.
    f_equal. apply IH; lia. }
  rewrite !Hproj in Hrows by done.
  by rewrite <- Hrows.
Qed.

Lemma bars_drawn_at v k :
  wf v → bars_drawn v → (k < length (data v))%nat → drawn v k.
Proof.
  intros [W1 W2] Hd Hk.
  destruct (lookup_lt_is_Some_2 (bar_items v) k) as [b Hb]; [lia|].
  exists b. split; [done|]. apply Hd. by eapply list_elem_of_lookup_2.
Qed.

(** ** Insertion sort *)

Lemma aligned_length v0 v : aligned v0 v → wf v0 → length (data v) = length (data v0).
Proof.
  intros ([W1 W2] & Hp & _) [V1 V2]. apply Permutation_length in Hp.
  unfold rows in Hp. rewrite !length_zip in Hp. lia.
Qed.

Lemma insertion_while_spec callback v0 j w :
  aligned v0 (vis w) → (j < length (data (vis w)))%nat →
  wp (insertion_while callback j)
     (λ _ w', follows (aligned v0) w w' ∧
              (calm w → bars_drawn (vis w) →
               calm w' ∧ data (vis w') = insertion_while_data j (data (vis w)))) w.
Proof.
  revert w. induction j as [|j IH]; intros w Ha Hj.
  { apply wp_ret. split; [by apply follows_refl | done]. }
  cbn [insertion_while insertion_while_data].
  replace (Z.of_nat (S j) - 1) with (Z.of_nat j) by lia.
  destruct (lookup_lt_is_Some_2 (data (vis w)) j) as [a Hda]; [lia|].
  destruct (lookup_lt_is_Some_2 (data (vis w)) (S j)) as [b Hdb]; [lia|].
  rewrite Hda, Hdb.
  apply wp_bind. eapply key_at_spec; [exact Hda|].
  apply wp_bind. eapply key_at_spec; [exact Hdb|].
  destruct (marks a >? marks b) eqn:Hgt.
  2:{ apply wp_ret. split; [by apply follows_refl | done]. }
  apply wp_bind, wp_gets.
  destruct (running (vis w)) eqn:Hrun; simpl.
  2:{ apply wp_ret. split; [by apply follows_refl |]. intros [? ?]. congruence. }
  pose proof Ha as [Hwf _].
  eapply wp_quiet_seq; [apply highlight_quiet|]. intros w1 Hq1.
  pose proof (quiet_wf _ _ Hq1 Hwf) as Hwf1.
  pose proof (quiet_fields _ _ Hq1) as (Hd1 & Hb1 & Ht1).
  eapply wp_seq; [by apply (swap_bars_spec (S j) j)|].
  intros [] w2 Hsw.
  eapply wp_quiet_seq; [apply highlight_quiet|]. intros w3 Hq3.
  eapply wp_quiet_seq; [apply notify_quiet|]. intros w4 Hq4.
  eapply wp_quiet_seq; [apply sleep_quiet|]. intros w5 Hq5.
  assert (Hq25 : quiet w2 w5) by (etrans; [exact Hq3|]; by etrans).
  pose proof (quiet_fields _ _ Hq25) as (Hd5 & Hb5 & Ht5).
  assert (Ha1 : aligned v0 (vis w1)) by (by eapply quiet_follows).
  assert (Hf02 : follows (aligned v0) w w2).
  { eapply follows_trans; [by apply quiet_follows|].
    destruct Hsw as [[_ Hs]|[_ ->]]; [by eapply swapped_follows | by apply follows_refl]. }
  assert (Hf05 : follows (aligned v0) w w5).
  { eapply follows_trans; [exact Hf02|]. apply quiet_follows; [done|]. apply Hf02. }
  assert (Hlen : length (data (vis w5)) = length (data (vis w))).
  { destruct Hsw as [[_ Hs]|[_ ->]].
    - rewrite Hd5. destruct Hs as [-> _ _ _ _ _ _].
      by rewrite list_swap_length, Hd1.
    - by rewrite Hd5, Hd1. }
  eapply wp_mono; [apply IH; [apply Hf05 | lia]|].
  intros [] w' [Hf' Hcalm']. split; [by eapply follows_trans|].
  intros Hcalm Hdrawn.
  pose proof (quiet_calm _ _ Hq1 Hcalm) as Hcalm1.
  pose proof (quiet_bars_drawn _ _ Hq1 Hdrawn) as Hdrawn1.
  destruct Hsw as [[_ Hs]|[Hno _]].
  2:{ exfalso. apply Hno. split; [lia|].
      split; apply bars_drawn_at; try done; rewrite Hd1; lia. }
  pose proof (swapped_calm _ _ _ _ Hs Hcalm1) as Hcalm2.
  pose proof (quiet_calm _ _ Hq25 Hcalm2) as Hcalm5.
  destruct Hcalm' as [Hc' Hdata']; [done | |].
  { eapply follows_bars_drawn; [exact Hf05 | done | done]. }
  split; [done|]. rewrite Hdata', Hd5.
  destruct Hs as [-> _ _ _ _ _ _]. by rewrite Hd1.
Qed.

Lemma insertion_for_spec callback v0 indices w :
  aligned v0 (vis w) →
  Forall (λ i, (i < length (data (vis w)))%nat) indices →
  wp (insertion_for callback indices)
     (λ _ w', follows (aligned v0) w w' ∧
              (calm w → bars_drawn (vis w) →
               calm w' ∧ data (vis w') = insertion_for_data indices (data (vis w)))) w.
Proof.
  revert w. induction indices as [|i rest IH]; intros w Ha Hall.
  { apply wp_ret. split; [by apply follows_refl | done]. }
  apply Forall_cons in Hall as [Hi Hrest].
  cbn [insertion_for]. apply wp_bind, wp_gets.
  destruct (running (vis w)) eqn:Hrun; simpl.
  2:{ apply wp_ret. split; [by apply follows_refl |]. intros [? ?]. congruence. }
  eapply wp_quiet_seq; [apply highlight_quiet|]. intros w1 Hq1.
  eapply wp_quiet_seq; [apply sleep_quiet|]. intros w2 Hq2.
  assert (Hq02 : quiet w w2) by by etrans.
  pose proof (quiet_fields _ _ Hq02) as (Hd2 & Hb2 & Ht2).
  assert (Ha2 : aligned v0 (vis w2)) by (by eapply quiet_follows).
  eapply wp_seq; [apply (insertion_while_spec callback v0 i); [done | by rewrite Hd2]|].
  intros [] w3 [Hf3 Hc3].
  assert (Ha3 : aligned v0 (vis w3)) by apply Hf3.
  eapply wp_quiet_seq; [apply reset_colors_quiet|]. intros w4 Hq4.
  pose proof (quiet_fields _ _ Hq4) as (Hd4 & Hb4 & Ht4).
  assert (Hf04 : follows (aligned v0) w w4).
  { eapply follows_trans; [by apply quiet_follows|].
    eapply follows_trans; [exact Hf3|]. by apply quiet_follows. }
  assert (Ha4 : aligned v0 (vis w4)) by apply Hf04.
  assert (Hlen : length (data (vis w4)) = length (data (vis w))).
  { destruct Ha4 as ([W1 W2] & Hp4 & _), Ha as ([V1 V2] & Hp & _).
    assert (Hp' : rows (vis w4) ≡ₚ rows (vis w)) by (by rewrite Hp4, Hp).
    apply Permutation_length in Hp'. unfold rows in Hp'.
    rewrite !length_zip in Hp'. lia. }
  eapply wp_mono; [apply IH; [done|]|].
  { eapply Forall_impl; [exact Hrest|]. intros k Hk. simpl in Hk. lia. }
  intros [] w' [Hf' Hc']. split; [by eapply follows_trans|].
  intros Hcalm Hdrawn.
  pose proof (quiet_calm _ _ Hq02 Hcalm) as Hcalm2.
  pose proof (quiet_bars_drawn _ _ Hq02 Hdrawn) as Hdrawn2.
  destruct (Hc3 Hcalm2 Hdrawn2) as [Hcalm3 Hdata3].
  pose proof (quiet_calm _ _ Hq4 Hcalm3) as Hcalm4.
  destruct Hc' as [Hcalm' Hdata']; [done | |].
  { eapply follows_bars_drawn; [exact Hf04 | done | done]. }
  split; [done|]. rewrite Hdata', Hd4, Hdata3, Hd2. done.
Qed.

(** ** The final highlight *)

Lemma wp_and {A} (m : M A) (Q1 Q2 : A → World → Prop) w :
  wp m Q1 w → wp m Q2 w → wp m (λ a w', Q1 a w' ∧ Q2 a w') w.
Proof. unfold wp. by destruct (m w). Qed.

Lemma fill_of_itemconfig_eq b color c :
  is_Some (items c !! b) → fill_of (canvas_itemconfig b color c) b = Some color.
Proof.
  intros [it Hit]. unfold fill_of. simpl. rewrite lookup_alter_eq, Hit.
  by destruct it.
Qed.

Lemma fill_of_itemconfig_keep b b' color c :
  fill_of c b = Some color → fill_of (canvas_itemconfig b' color c) b = Some color.
Proof.
  unfold fill_of. simpl. intros H. destruct (decide (b' = b)) as [->|Hne].
  - rewrite lookup_alter_eq. destruct (items c !! b) as [it|]; [|done].
    by destruct it.
  - by rewrite lookup_alter_ne.
Qed.

Lemma is_Some_itemconfig b b' color c :
  is_Some (items c !! b) → is_Some (items (canvas_itemconfig b' color c) !! b).
Proof. intros H. simpl. by apply lookup_alter_is_Some. Qed.

Lemma highlight_each_painted indices color w :
  wp (highlight_each indices color) (λ _ w', painted color indices w w') w.
Proof.
  revert w. induction indices as [|i rest IH]; intros w; cbn [highlight_each].
  { apply wp_ret. split; [done|]. split; [done|]. split; [done|].
    intros k b Hk. by apply elem_of_nil in Hk. }
  apply wp_bind, wp_gets.
  destruct ((0 <=? i) && (i <? len (bar_items (vis w)))) eqn:E.
  - apply in_range_nat in E as (k & -> & Hk).
    destruct (lookup_lt_is_Some_2 _ _ Hk) as [b Hb].
    apply wp_bind, wp_bind. eapply wp_getitem; [exact Hb|].
    apply wp_modify. eapply wp_mono; [apply IH|].
    intros [] w' (Hbars & Hkeep & Hsome & Hnew). simpl in *.
    split; [done|]. split; [|split].
    + intros b0 H0. by apply Hkeep, fill_of_itemconfig_keep.
    + intros b0 H0. by apply Hsome, is_Some_itemconfig.
    + intros k0 b0 [Hk0|Hk0]%elem_of_cons Hb0 Hs0.
      * apply Nat2Z.inj in Hk0. subst k0. simplify_eq.
        by apply Hkeep, fill_of_itemconfig_eq.
      * apply (Hnew k0); [done | done |]. by apply is_Some_itemconfig.
  - apply wp_bind, wp_ret. eapply wp_mono; [apply IH|].
    intros [] w' (Hbars & Hkeep & Hsome & Hnew).
    split; [done|]. split; [done|]. split; [done|].
    intros k0 b0 [Hk0|Hk0]%elem_of_cons Hb0 Hs0; [|by eapply Hnew].
    subst i. apply lookup_lt_Some in Hb0. unfold len in E.
    apply andb_false_iff in E as [E|E];
      [apply Z.leb_gt in E | apply Z.ltb_ge in E]; lia.
Qed.

Lemma yield_frame e w :
  wp (yield e) (λ _ w', canvas (vis w') = canvas (vis w) ∧
                        bar_items (vis w') = bar_items (vis w)) w.
Proof.
  unfold wp, yield. destruct (pending w) as [|a rest]; simpl; [done|].
  by destruct a.
Qed.

Lemma yield_last e w :
  wp (yield e) (λ _ w', trace w' = (e, vis w) :: trace w ∧
                        canvas (vis w') = canvas (vis w) ∧
                        bar_items (vis w') = bar_items (vis w)) w.
Proof.
  unfold wp, yield. destruct (pending w) as [|a rest]; simpl; [done|].
  by destruct a.
Qed.

Lemma highlight_last indices color w :
  wp (highlight indices color)
     (λ _ w', ∃ v rest, trace w' = (EvUpdate, v) :: rest ∧
                        canvas v = canvas (vis w') ∧
                        bar_items v = bar_items (vis w')) w.
Proof.
  unfold highlight. eapply wp_seq; [apply highlight_each_quiet|].
  intros [] w1 _. eapply wp_mono; [apply yield_last|].
  intros [] w2 (Ht & Hc & Hb). exists (vis w1), (trace w1). by rewrite Hc, Hb.
Qed.

Lemma highlight_painted indices color w :
  wp (highlight indices color) (λ _ w', painted color indices w w') w.
Proof.
  unfold highlight. eapply wp_seq; [apply highlight_each_painted|].
  intros [] w1 (Hbars & Hkeep & Hsome & Hnew).
  eapply wp_mono; [apply yield_frame|].
  intros [] w2 [Hc Hb]. unfold painted. rewrite Hc, Hb. done.
Qed.

Lemma elem_of_zrange (k n : nat) : (k < n)%nat → Z.of_nat k ∈ zrange 0 n.
Proof.
  intros Hk. unfold zrange, range. apply list_elem_of_fmap_2.
  apply elem_of_seq. lia.
Qed.

Lemma range_bound a n : Forall (λ i, (i < n)%nat) (range a n).
Proof.
  apply Forall_forall. intros i Hi. unfold range in Hi.
  apply elem_of_seq in Hi. lia.
Qed.

(** The part the two sorts share: [self.running = True], the loop, the
    final highlight, [self.running = False]. *)
Lemma sort_frame_spec (loop : nat → M unit) data_fn w :
  wf (vis w) →
  (∀ w0, layout (vis w0) = layout (vis w) → canvas_labels w0 = canvas_labels w →
     wp (loop (length (data (vis w)))) (λ _ w', follows (aligned (vis w)) w0 w' ∧
                      (calm w0 → bars_drawn (vis w0) →
                       calm w' ∧ data (vis w') = data_fn (data (vis w0)))) w0) →
  wp (modify (set_running true);;
      n ← gets (λ v, length (data v));
      loop n;;
      highlight (zrange 0 n) sorted_color;;
      modify (set_running false))
     (λ _ w', sort_done data_fn w w') w.
Proof.
  intros Hwf Hloop. apply wp_bind, wp_modify. apply wp_bind, wp_gets.
  set (w0 := set_vis (set_running true (vis w)) w).
  eapply wp_seq; [by apply (Hloop w0)|].
  intros [] w1 [Hf1 Hc1].
  assert (Ha1 : aligned (vis w) (vis w1)) by apply Hf1.
  eapply wp_seq.
  { apply wp_and; [apply highlight_quiet|].
    apply wp_and; [apply highlight_painted | apply highlight_last]. }
  intros [] w2 (Hq2 & Hp2 & Hlast). apply wp_modify.
  pose proof (quiet_fields _ _ Hq2) as (Hd2 & Hb2 & Ht2).
  assert (Hf2 : follows (aligned (vis w)) w0 w2).
  { eapply follows_trans; [exact Hf1|]. by apply quiet_follows. }
  assert (Hdrawn1 : bars_drawn (vis w) → bars_drawn (vis w1)).
  { intros Hd. eapply follows_bars_drawn; [exact Hf1 | | exact Hd].
    by apply (aligned_layout (vis w) (vis w)), aligned_refl. }
  split; [| done | | done |].
  - destruct Hf2 as [N L Pe T]. split; [| done | done | done].
    eapply aligned_layout; [|exact N]. done.
  - intros Hd k b Hk. simpl in *.
    destruct Hp2 as (Hbars & Hkeep & Hsome & Hnew). rewrite Hb2 in Hk.
    apply (Hnew k b); [| done |].
    + apply elem_of_zrange. apply lookup_lt_Some in Hk.
      destruct Ha1 as ([W1 W2] & Hp1 & _). apply Permutation_length in Hp1.
      unfold rows in Hp1. rewrite !length_zip in Hp1.
      destruct Hwf as [V1 V2]. lia.
    + apply Hdrawn1; [done|]. by eapply list_elem_of_lookup_2.
  - intros Hn Hd. simpl. rewrite Hd2.
    destruct Hc1 as [_ ->]; [by split | done | done].
Qed.

Lemma insertion_sort_spec callback w :
  wf (vis w) →
  wp (insertion_sort callback)
     (λ _ w', sort_done (insertion_for_data (range 1 (length (data (vis w))))) w w') w.
Proof.
  intros Hwf.
  apply (sort_frame_spec (λ n, insertion_for callback (range 1 n))); [done|].
  intros w0 HL0 _. apply insertion_for_spec.
  - eapply aligned_layout; [exact HL0 | by apply aligned_refl].
  - apply layout_eq in HL0 as (-> & _ & _). apply range_bound.
Qed.

(** ** Selection sort *)

Lemma selection_scan_spec i js min_idx w :
  Forall (λ j, (j < length (data (vis w)))%nat) js →
  (min_idx < length (data (vis w)))%nat →
  wp (selection_scan i js min_idx)
     (λ m w', quiet w w' ∧ (m < length (data (vis w)))%nat ∧
              (calm w → calm w' ∧
                        m = selection_scan_min (data (vis w)) js min_idx)) w.
Proof.
  revert w min_idx. induction js as [|j rest IH]; intros w min_idx Hall Hm.
  { apply wp_ret. split; [apply quiet_refl | done]. }
  apply Forall_cons in Hall as [Hj Hrest].
  cbn [selection_scan selection_scan_min]. apply wp_bind, wp_gets.
  destruct (running (vis w)) eqn:Hrun; simpl.
  2:{ apply wp_ret. split; [apply quiet_refl|]. split; [done|].
      intros [? ?]. congruence. }
  eapply wp_quiet_seq; [apply highlight_quiet|]. intros w1 Hq1.
  eapply wp_quiet_seq; [apply sleep_quiet|]. intros w2 Hq2.
  assert (Hq02 : quiet w w2) by by etrans.
  pose proof (quiet_fields _ _ Hq02) as (Hd2 & _ & _).
  destruct (lookup_lt_is_Some_2 (data (vis w)) j) as [a Hda]; [lia|].
  destruct (lookup_lt_is_Some_2 (data (vis w)) min_idx) as [b Hdb]; [lia|].
  rewrite Hda, Hdb.
  apply wp_bind. eapply key_at_spec; [by rewrite Hd2|].
  apply wp_bind. eapply key_at_spec; [by rewrite Hd2|].
  eapply wp_quiet_seq; [apply reset_colors_quiet|]. intros w3 Hq3.
  eapply wp_quiet_seq; [apply highlight_quiet|]. intros w4 Hq4.
  assert (Hq04 : quiet w w4) by (etrans; [exact Hq02|]; by etrans).
  pose proof (quiet_fields _ _ Hq04) as (Hd4 & _ & _).
  eapply wp_mono.
  { apply IH; rewrite Hd4; [done|]. by destruct (marks a <? marks b). }
  intros m w' (Hq' & Hm' & Hc'). rewrite Hd4 in Hm', Hc'.
  split; [by etrans|]. split; [done|].
  intros Hcalm. apply Hc'. by eapply quiet_calm.
Qed.

Lemma selection_for_spec callback v0 n indices w :
  aligned v0 (vis w) → n = length (data (vis w)) →
  Forall (λ i, (i < n)%nat) indices →
  wp (selection_for callback n indices)
     (λ _ w', follows (aligned v0) w w' ∧
              (calm w → bars_drawn (vis w) →
               calm w' ∧
               data (vis w') = selection_for_data n indices (data (vis w)))) w.
Proof.
  revert w. induction indices as [|i rest IH]; intros w Ha Hn Hall.
  { apply wp_ret. split; [by apply follows_refl | done]. }
  apply Forall_cons in Hall as [Hi Hrest].
  cbn [selection_for selection_for_data]. apply wp_bind, wp_gets.
  destruct (running (vis w)) eqn:Hrun; simpl.
  2:{ apply wp_ret. split; [by apply follows_refl |]. intros [? ?]. congruence. }
  pose proof Ha as [Hwf _].
  eapply wp_quiet_seq; [apply highlight_quiet|]. intros w1 Hq1.
  pose proof (quiet_fields _ _ Hq1) as (Hd1 & Hb1 & Ht1).
  eapply wp_seq.
  { apply (selection_scan_spec i (range (i + 1) n) i).
    - rewrite Hd1, <- Hn. apply range_bound.
    - rewrite Hd1. lia. }
  intros m w2 (Hq2 & Hm & Hc2). rewrite Hd1 in Hm, Hc2.
  assert (Hq02 : quiet w w2) by by etrans.
  pose proof (quiet_wf _ _ Hq02 Hwf) as Hwf2.
  pose proof (quiet_fields _ _ Hq02) as (Hd2 & Hb2 & Ht2).
  apply wp_bind, wp_gets.
  destruct (running (vis w2)) eqn:Hrun2; simpl.
  2:{ apply wp_ret. split; [by apply quiet_follows|].
      intros Hcalm _. apply (quiet_calm _ _ Hq02) in Hcalm as [? ?]. congruence. }
  eapply wp_seq with (R := λ _ w3,
    ((m ≠ i ∧ swap_applies i m (vis w2)) ∧ swapped i m w2 w3) ∨
    ((m = i ∨ ¬ swap_applies i m (vis w2)) ∧ quiet w2 w3)).
  { destruct (m =? i)%nat eqn:Emi; simpl.
    - apply Nat.eqb_eq in Emi. apply wp_ret. right. split; [by left | apply quiet_refl].
    - apply Nat.eqb_neq in Emi.
      eapply wp_seq; [by apply (swap_bars_spec i m)|].
      intros [] w3 Hsw. eapply wp_mono; [apply notify_quiet|].
      intros [] w4 Hq4. destruct Hsw as [[Happ Hs]|[Hno ->]].
      + left. split; [done|].
        pose proof (quiet_fields _ _ Hq4) as (Hd4 & Hb4 & Ht4).
        destruct Hs as [Sd Sb St Sl Sp Str Sr], Hq4 as [QL Ql Qp Qt Qr].
        split; try congruence.
        * by etrans.
        * eapply shows_trans.
          { eapply shows_mono; [|exact Str]. intros v [Hv|Hv]; [by left|].
            right. simpl in *. by rewrite Hv, QL. }
          eapply shows_mono; [|exact Qt]. intros v Hv. right.
          simpl in Hv. by rewrite Hv, QL.
        * intros Hr Hns. apply Qr; [by apply Sr|]. by eapply no_stop_suffix.
      + right. split; [by right | done]. }
  intros [] w3 Hsw.
  eapply wp_quiet_seq; [apply highlight_quiet|]. intros w4 Hq4.
  pose proof (quiet_fields _ _ Hq4) as (Hd4 & Hb4 & Ht4).
  assert (Ha2 : aligned v0 (vis w2)) by (by eapply quiet_follows).
  assert (Hf03 : follows (aligned v0) w w3).
  { eapply follows_trans; [by apply quiet_follows|].
    destruct Hsw as [[_ Hs]|[_ Hq]]; [by eapply swapped_follows | by apply quiet_follows]. }
  assert (Hf04 : follows (aligned v0) w w4).
  { eapply follows_trans; [exact Hf03|]. apply quiet_follows; [done|]. apply Hf03. }
  assert (Hlen : length (data (vis w4)) = length (data (vis w))).
  { rewrite Hd4. destruct Hsw as [[_ Hs]|[_ Hq]].
    - destruct Hs as [-> _ _ _ _ _ _]. by rewrite list_swap_length, Hd2.
    - apply quiet_fields in Hq as (-> & _ & _). by rewrite Hd2. }
  eapply wp_mono; [apply IH; [apply Hf04 | lia | done]|].
  intros [] w' [Hf' Hc']. split; [by eapply follows_trans|].
  intros Hcalm Hdrawn.
  pose proof (quiet_calm _ _ Hq1 Hcalm) as Hcalm1.
  destruct (Hc2 Hcalm1) as [Hcalm2 Hmin].
  pose proof (quiet_bars_drawn _ _ Hq02 Hdrawn) as Hdrawn2.
  assert (Hcalm4 : calm w4).
  { eapply quiet_calm; [exact Hq4|].
    destruct Hsw as [[_ Hs]|[_ Hq]]; [by eapply swapped_calm | by eapply quiet_calm]. }
  destruct Hc' as [Hcalm' Hdata']; [done | |].
  { eapply follows_bars_drawn; [exact Hf04 | done | done]. }
  split; [done|]. rewrite Hdata', Hd4, <- Hmin. f_equal.
  destruct Hsw as [[[Hne _] Hs]|[[Heq|Hno] Hq]].
  - apply Nat.eqb_neq in Hne. rewrite Hne.
    destruct Hs as [-> _ _ _ _ _ _]. by rewrite Hd2.
  - apply Nat.eqb_eq in Heq. rewrite Heq.
    apply quiet_fields in Hq as (-> & _ & _). by rewrite Hd2.
  - destruct (decide (m = i)) as [Heq|Hne].
    + apply Nat.eqb_eq in Heq. rewrite Heq.
      apply quiet_fields in Hq as (-> & _ & _). by rewrite Hd2.
    + exfalso. apply Hno. split; [done|].
      split; apply bars_drawn_at; try done; rewrite Hd2; lia.
Qed.

Lemma selection_sort_spec callback w :
  wf (vis w) →
  wp (selection_sort callback)
     (λ _ w', sort_done
        (selection_for_data (length (data (vis w)))
                            (range 0 (length (data (vis w))))) w w') w.
Proof.
  intros Hwf.
  apply (sort_frame_spec (λ n, selection_for callback n (range 0 n))); [done|].
  intros w0 HL0 _. apply selection_for_spec.
  - eapply aligned_layout; [exact HL0 | by apply aligned_refl].
  - by apply layout_eq in HL0 as (-> & _ & _).
  - apply range_bound.
Qed.

(** ** What the uncancelled loops compute *)

Lemma list_swap_adjacent {A} (p post : list A) a x :
  list_swap (S (length p)) (length p) (p ++ a :: x :: post) = p ++ x :: a :: post.
Proof.
  unfold list_swap.
  replace ((p ++ a :: x :: post) !! S (length p)) with (Some x).
  2:{ rewrite lookup_app_r by lia. by replace (S (length p) - length p)%nat with 1%nat by lia. }
  replace ((p ++ a :: x :: post) !! length p) with (Some a).
  2:{ rewrite lookup_app_r by lia. by rewrite Nat.sub_diag. }
  rewrite insert_app_r_alt by lia.
  replace (S (length p) - length p)%nat with 1%nat by lia. simpl.
  rewrite insert_app_r_alt by lia. by rewrite Nat.sub_diag.
Qed.

Lemma insertion_while_data_sorted pre x post :
  StronglySorted key_le pre →
  ∃ pre', insertion_while_data (length pre) (pre ++ x :: post) = pre' ++ post ∧
          pre' ≡ₚ pre ++ [x] ∧ StronglySorted key_le pre'.
Proof.
  revert x post. induction pre as [|a p IH] using rev_ind; intros x post Hs.
  { exists [x]. split; [done|]. split; [done|]. repeat constructor. }
  rewrite length_app. simpl. replace (length p + 1)%nat with (S (length p)) by lia.
  cbn [insertion_while_data]. rewrite <- app_assoc. simpl.
  replace ((p ++ a :: x :: post) !! length p) with (Some a).
  2:{ rewrite lookup_app_r by lia. by rewrite Nat.sub_diag. }
  replace ((p ++ a :: x :: post) !! S (length p)) with (Some x).
  2:{ rewrite lookup_app_r by lia. by replace (S (length p) - length p)%nat with 1%nat by lia. }
  apply StronglySorted_app in Hs as (Hpa & Hp & _).
  destruct (marks a >? marks x) eqn:Hgt.
  - rewrite list_swap_adjacent.
    destruct (IH x (a :: post) Hp) as (p' & -> & Hperm & Hs').
    exists (p' ++ [a]). split; [by rewrite <- app_assoc|]. split.
    + rewrite Hperm. rewrite <- !app_assoc. apply Permutation_app_head. apply perm_swap.
    + apply StronglySorted_app_2; [| done | repeat constructor].
      intros y z Hy ->%list_elem_of_singleton. rewrite Hperm in Hy.
      apply elem_of_app in Hy as [Hy| ->%list_elem_of_singleton].
      * apply Hpa; [done | by apply list_elem_of_singleton].
      * unfold key_le. apply Z.gtb_lt in Hgt. lia.
  - exists ((p ++ [a]) ++ [x]). split; [by rewrite <- !app_assoc|]. split; [done|].
    apply StronglySorted_app_2; [| | repeat constructor].
    + intros y z Hy ->%list_elem_of_singleton.
      assert (Hax : marks a ≤ marks x).
      { destruct (Z.gtb_spec (marks a) (marks x)); [done | lia]. }
      apply elem_of_app in Hy as [Hy| ->%list_elem_of_singleton]; [|done].
      specialize (Hpa y a Hy). unfold key_le in *.
      etrans; [apply Hpa; by apply list_elem_of_singleton | done].
    + apply StronglySorted_app_2; [done | done | repeat constructor].
Qed.

Lemma insertion_for_data_sorted pre post :
  StronglySorted key_le pre →
  StronglySorted key_le (insertion_for_data (seq (length pre) (length post)) (pre ++ post)) ∧
  insertion_for_data (seq (length pre) (length post)) (pre ++ post) ≡ₚ pre ++ post.
Proof.
  revert pre. induction post as [|x post IH]; intros pre Hs.
  { simpl. by rewrite app_nil_r. }
  simpl. unfold insertion_for_data in *. simpl.
  destruct (insertion_while_data_sorted pre x post Hs) as (pre' & -> & Hperm & Hs').
  assert (Hlen : length pre' = S (length pre)).
  { apply Permutation_length in Hperm. rewrite length_app in Hperm. simpl in Hperm. lia. }
  rewrite <- Hlen. destruct (IH pre' Hs') as [IH1 IH2]. split; [done|].
  rewrite IH2, Hperm, <- app_assoc. done.
Qed.

Lemma insertion_sort_data_sorted l :
  StronglySorted key_le (insertion_for_data (range 1 (length l)) l).
Proof.
  destruct l as [|x l]; [constructor|].
  unfold range. simpl. rewrite Nat.sub_0_r.
  apply (insertion_for_data_sorted [x] l). repeat constructor.
Qed.

Lemma selection_scan_min_earliest l lo a c m0 :
  earliest_min l lo a m0 → (a + c ≤ length l)%nat →
  earliest_min l lo (a + c) (selection_scan_min l (seq a c) m0).
Proof.
  revert a m0. induction c as [|c IH]; intros a m0 Hm Hlen.
  { simpl. by rewrite Nat.add_0_r. }
  destruct Hm as (Hrange & Hmin & Hfirst). simpl.
  destruct (lookup_lt_is_Some_2 l a) as [x Hx]; [lia|].
  destruct (lookup_lt_is_Some_2 l m0) as [y Hy]; [lia|].
  rewrite Hx, Hy. replace (a + S c)%nat with (S a + c)%nat by lia.
  apply IH; [|lia]. destruct (marks x <? marks y) eqn:Hlt.
  - apply Z.ltb_lt in Hlt. split; [lia|]. split.
    + intros k x' y' Hk Hx' Hy'. simplify_eq.
      destruct (decide (k = a)) as [->|Hne]; [simplify_eq; lia|].
      specialize (Hmin k y y' ltac:(lia) Hy Hy'). lia.
    + intros k x' y' Hk Hx' Hy'. simplify_eq.
      specialize (Hmin k y y' ltac:(lia) Hy Hy'). lia.
  - apply Z.ltb_ge in Hlt. split; [lia|]. split; [|done].
    intros k x' y' Hk Hx' Hy'. simplify_eq.
    destruct (decide (k = a)) as [->|Hne]; [simplify_eq; lia|].
    apply (Hmin k); [lia | done | done].
Qed.

Lemma earliest_min_start l i : (i < length l)%nat → earliest_min l i (S i) i.
Proof.
  intros Hi. split; [lia|]. split.
  - intros k x y Hk Hx Hy. assert (k = i) as -> by lia. simplify_eq. lia.
  - intros k x y Hk. lia.
Qed.

Lemma selection_scan_min_range l i n :
  (i < n)%nat → n = length l →
  earliest_min l i n (selection_scan_min l (range (i + 1) n) i).
Proof.
  intros Hi ->. unfold range.
  replace (length l) with (S i + (length l - (i + 1)))%nat at 1 by lia.
  replace (i + 1)%nat with (S i) by lia.
  apply selection_scan_min_earliest; [by apply earliest_min_start | lia].
Qed.

Lemma list_swap_lookup_at {A} (l : list A) i j k :
  (i < length l)%nat → (j < length l)%nat →
  list_swap i j l !! k =
    l !! (if decide (k = j) then i else if decide (k = i) then j else k).
Proof.
  intros Hi Hj.
  destruct (lookup_lt_is_Some_2 l i Hi) as [xi Hxi].
  destruct (lookup_lt_is_Some_2 l j Hj) as [xj Hxj].
  rewrite (list_swap_lookup _ _ _ _ _ Hxi Hxj).
  destruct (decide (k = j)) as [->|Hkj].
  - rewrite list_lookup_insert_eq by (by rewrite length_insert). done.
  - rewrite list_lookup_insert_ne by done.
    destruct (decide (k = i)) as [->|Hki].
    + by rewrite list_lookup_insert_eq.
    + by rewrite list_lookup_insert_ne.
Qed.

Lemma settled_step l i m :
  settled l i → earliest_min l i (length l) m →
  settled (if (m =? i)%nat then l else list_swap i m l) (S i).
Proof.
  intros Hset (Hrange & Hmin & _).
  assert (Hgoal : settled (list_swap i m l) (S i)).
  { intros a b x y Ha Hab.
    rewrite !list_swap_lookup_at by lia.
    set (f := λ k : nat, if decide (k = m) then i else if decide (k = i) then m else k).
    intros Hx Hy. change (l !! f a = Some x) in Hx. change (l !! f b = Some y) in Hy.
    assert (Hfb : (b < length l → i ≤ b → i ≤ f b < length l)%nat).
    { unfold f. repeat case_decide; lia. }
    assert (Hb : (b < length l)%nat).
    { apply lookup_lt_Some in Hy. unfold f in Hy. repeat case_decide; lia. }
    destruct (decide (a = i)) as [->|Hai].
    - assert (f i = m) as Hfi by (unfold f; repeat case_decide; lia).
      rewrite Hfi in Hx. apply (Hmin (f b) x y); [|done|done].
      apply Hfb; lia.
    - assert (f a = a) as Hfa by (unfold f; repeat case_decide; lia).
      rewrite Hfa in Hx. apply (Hset a (f b) x y); [lia| |done|done].
      unfold f. repeat case_decide; lia. }
  destruct (m =? i)%nat eqn:E; [|done].
  apply Nat.eqb_eq in E. subst m.
  intros a b x y Ha Hab Hx Hy. apply (Hgoal a b); try done.
  - rewrite list_swap_lookup_at by lia. by repeat case_decide; subst.
  - rewrite list_swap_lookup_at by lia. by repeat case_decide; subst.
Qed.

Lemma selection_for_data_settled n c i l :
  n = length l → (i + c = n)%nat → settled l i →
  settled (selection_for_data n (seq i c) l) n.
Proof.
  revert i l. induction c as [|c IH]; intros i l Hn Hic Hset.
  { simpl. by replace n with i by lia. }
  simpl. apply IH.
  - destruct (_ =? _)%nat; [done | by rewrite list_swap_length].
  - lia.
  - apply settled_step; [done|]. rewrite <- Hn.
    apply selection_scan_min_range; [lia | done].
Qed.

Lemma selection_for_data_length n indices l :
  length (selection_for_data n indices l) = length l.
Proof.
  revert l. induction indices as [|i rest IH]; intros l; [done|].
  simpl. rewrite IH. destruct (_ =? _)%nat; [done | by rewrite list_swap_length].
Qed.

Lemma settled_sorted l : settled l (length l) → StronglySorted key_le l.
Proof.
  induction l as [|x l IH]; intros Hset; [constructor|].
  constructor.
  - apply IH. intros a b u v Ha Hab Hu Hv.
    apply (Hset (S a) (S b)); simpl; try done; lia.
  - apply Forall_forall. intros y Hy.
    apply list_elem_of_lookup in Hy as [k Hk].
    apply (Hset 0%nat (S k)); simpl; try done; lia.
Qed.

Lemma selection_sort_data_sorted l :
  StronglySorted key_le
    (selection_for_data (length l) (range 0 (length l)) l).
Proof.
  apply settled_sorted. rewrite selection_for_data_length.
  unfold range. rewrite Nat.sub_0_r.
  apply selection_for_data_settled; [done | done |].
  intros a b x y Ha. lia.
Qed.

(** ** [load_data] *)

Lemma wp_create it (Q : Z → World → Prop) w :
  Q (next_id (canvas (vis w)))
    (set_vis (set_canvas
       (mkCanvas (<[next_id (canvas (vis w)) := it]> (items (canvas (vis w))))
                 (next_id (canvas (vis w)) + 1)) (vis w)) w) →
  wp (create it) Q w.
Proof. done. Qed.

Lemma row_shown_insert its nid it r :
  ids_fresh (mkCanvas its nid) → row_shown (mkCanvas its nid) r →
  row_shown (mkCanvas (<[nid := it]> its) (nid + 1)) r.
Proof.
  intros Hfresh (H1 & H2 & H3).
  assert (Hne : ∀ k x, labels (mkCanvas its nid) !! k = Some x → nid ≠ k).
  { intros k x Hk Heq. subst k. unfold labels in Hk. simpl in Hk.
    rewrite lookup_fmap in Hk.
    destruct (its !! nid) eqn:E; [|done].
    specialize (Hfresh nid ltac:(by eexists)). simpl in Hfresh. lia. }
  pose proof (Hne _ _ H1). pose proof (Hne _ _ H2). pose proof (Hne _ _ H3).
  unfold row_shown, labels in *. simpl in *. rewrite !lookup_fmap in *.
  by rewrite !lookup_insert_ne.
Qed.

Lemma ids_fresh_insert its nid it :
  ids_fresh (mkCanvas its nid) →
  ids_fresh (mkCanvas (<[nid := it]> its) (nid + 1)).
Proof.
  intros Hfresh id. simpl. destruct (decide (nid = id)) as [<-|Hne].
  - intros _. lia.
  - rewrite lookup_insert_ne by done. intros H%Hfresh. simpl in H. lia.
Qed.

Lemma load_bar_spec all_rows drawn_rows max_val bar_width i d w :
  loading all_rows drawn_rows (vis w) →
  wp (load_bar max_val bar_width i d)
     (λ _ w', loading all_rows (drawn_rows ++ [d]) (vis w') ∧
              pending w' = pending w ∧ trace w' = trace w) w.
Proof.
  destruct w as [[[its nid] sp dat bars texts wd ht pd run] pend tr].
  intros (Hdata & Hlb & Hlt & Hrows & Hfresh). simpl in *.
  unfold load_bar. apply wp_bind, wp_gets.
  apply wp_bind, wp_create. apply wp_bind, wp_create. apply wp_bind, wp_create.
  apply wp_bind, wp_modify. apply wp_modify. simpl.
  split; [|done]. split; [done|]. simpl.
  rewrite !length_app, Hlb, Hlt. simpl.
  split; [done|]. split; [done|]. split.
  - rewrite (zip_with_app _ bars) by lia.
    rewrite zip_with_app by (rewrite length_zip; lia).
    apply Forall_app. split.
    + eapply Forall_impl; [exact Hrows|]. intros r Hr.
      apply row_shown_insert; [by apply ids_fresh_insert, ids_fresh_insert|].
      apply row_shown_insert; [by apply ids_fresh_insert|].
      by apply row_shown_insert.
    + constructor; [|constructor]. unfold row_shown, labels. simpl.
      rewrite !lookup_fmap.
      rewrite lookup_insert_ne by lia. rewrite lookup_insert_ne by lia.
      rewrite lookup_insert_eq.
      rewrite lookup_insert_ne by lia. rewrite lookup_insert_eq.
      rewrite lookup_insert_eq. done.
  - by apply ids_fresh_insert, ids_fresh_insert, ids_fresh_insert.
Qed.

Lemma load_bars_spec all_rows drawn_rows max_val bar_width i ds w :
  loading all_rows drawn_rows (vis w) →
  wp (load_bars max_val bar_width i ds)
     (λ _ w', loading all_rows (drawn_rows ++ ds) (vis w') ∧
              pending w' = pending w ∧ trace w' = trace w) w.
Proof.
  revert drawn_rows i w. induction ds as [|d ds IH]; intros drawn_rows i w Hl.
  { apply wp_ret. by rewrite app_nil_r. }
  cbn [load_bars]. eapply wp_seq; [by apply load_bar_spec|].
  intros [] w1 (Hl1 & Hp1 & Ht1). eapply wp_mono; [by apply IH|].
  intros [] w2 (Hl2 & Hp2 & Ht2). rewrite <- app_assoc in Hl2.
  split; [done|]. split; congruence.
Qed.

Lemma load_data_spec data_list w :
  wp (load_data data_list) (λ _ w', load_done data_list w w') w.
Proof.
  unfold load_data, on_canvas.
  apply wp_bind, wp_modify. apply wp_bind, wp_modify.
  apply wp_bind, wp_modify. apply wp_bind, wp_modify.
  apply wp_bind, wp_gets. simpl.
  destruct (length data_list =? 0)%nat eqn:En.
  { apply Nat.eqb_eq, length_zero_iff_nil in En. subst data_list.
    apply wp_ret. split; simpl; try done.
    - constructor.
    - by exists []. }
  apply wp_bind, wp_gets. cbv zeta.
  eapply wp_seq.
  { apply (load_bars_spec data_list []). unfold loading. simpl.
    split; [done|]. split; [done|]. split; [done|]. split; [constructor|].
    intros id [it Hit]. simpl in Hit. by rewrite lookup_empty in Hit. }
  intros [] w1 ((Hd & Hlb & Hlt & Hrows & _) & Hp1 & Ht1). simpl in *.
  eapply wp_mono; [apply canvas_update_quiet|].
  intros [] w2 Hq. pose proof (quiet_fields _ _ Hq) as (Hd2 & Hb2 & Ht2).
  destruct Hq as [HL Hlab Hpe Htr _].
  assert (Hcanvas : labels (canvas (vis w2)) = labels (canvas (vis w1))) by done.
  split.
  - by rewrite Hd2.
  - unfold wf. rewrite Hd2, Hb2, Ht2, Hd. lia.
  - unfold labelled, rows. rewrite Hd2, Hb2, Ht2, Hd.
    eapply Forall_impl; [exact Hrows|]. intros r. unfold row_shown.
    by rewrite Hcanvas.
  - by rewrite <- Hp1.
  - destruct Htr as (new & E & F). exists new. split; [by rewrite E, Ht1|].
    eapply Forall_impl; [exact F|]. intros e He. simpl in He. by rewrite He, HL.
Qed.

Lemma labelled_bars_drawn v : wf v → labelled v → bars_drawn v.
Proof.
  intros [W1 W2] Hl b Hb.
  apply list_elem_of_lookup in Hb as [k Hk].
  destruct (lookup_lt_is_Some_2 (data v) k) as [d Hd];
    [apply lookup_lt_Some in Hk; lia|].
  destruct (lookup_lt_is_Some_2 (text_items v) k) as [t Ht];
    [apply lookup_lt_Some in Hk; lia|].
  assert (Hrow : rows v !! k = Some (d, (b, t))).
  { unfold rows. rewrite !lookup_zip_with, Hd, Hk, Ht. done. }
  unfold labelled in Hl. rewrite Forall_forall in Hl.
  destruct (Hl _ (list_elem_of_lookup_2 _ _ _ Hrow)) as (H1 & _). simpl in H1.
  unfold labels in H1. rewrite lookup_fmap in H1.
  destruct (items (canvas v) !! b); [by eexists | done].
Qed.

Lemma aligned_labelled v0 v : aligned v0 v → labelled v0 → labelled v.
Proof.
  intros (_ & Hp & Hl) H0. unfold labelled in *. rewrite Hp.
  eapply Forall_impl; [exact H0|]. intros r. unfold row_shown. by rewrite Hl.
Qed.

(** ** [swap_bars] on arbitrary indices *)

Lemma swap_bars_same i w : swap_bars i i w = Ok tt w.
Proof. unfold swap_bars. by rewrite Z.eqb_refl. Qed.

Lemma swap_bars_out_of_range_l i j w :
  ¬ (0 ≤ i < len (bar_items (vis w))) → swap_bars i j w = Ok tt w.
Proof.
  intros Hi. unfold swap_bars. destruct (i =? j); [done|].
  unfold mbind, M_bind, gets.
  replace ((0 <=? i) && (i <? len (bar_items (vis w)))) with false; [done|].
  symmetry. apply andb_false_iff.
  destruct (Z.leb_spec 0 i); [right; apply Z.ltb_ge; lia | by left].
Qed.

Lemma swap_bars_out_of_range_r i j w :
  ¬ (0 ≤ j < len (bar_items (vis w))) → swap_bars i j w = Ok tt w.
Proof.
  intros Hj. unfold swap_bars. destruct (i =? j); [done|].
  unfold mbind, M_bind, gets.
  replace ((0 <=? j) && (j <? len (bar_items (vis w)))) with false;
    [by rewrite andb_false_r|].
  symmetry. apply andb_false_iff.
  destruct (Z.leb_spec 0 j); [right; apply Z.ltb_ge; lia | by left].
Qed.

Lemma swap_bars_follows i j w :
  wf (vis w) → wp (swap_bars i j) (λ _ w', follows (aligned (vis w)) w w') w.
Proof.
  intros Hwf.
  destruct (decide (0 ≤ i < len (bar_items (vis w)))) as [Hi|Hi].
  2:{ eapply wp_of_run; [by apply swap_bars_out_of_range_l|].
      by apply follows_refl, aligned_refl. }
  destruct (decide (0 ≤ j < len (bar_items (vis w)))) as [Hj|Hj].
  2:{ eapply wp_of_run; [by apply swap_bars_out_of_range_r|].
      by apply follows_refl, aligned_refl. }
  rewrite <- (Z2Nat.id i), <- (Z2Nat.id j) by lia.
  eapply wp_mono; [by apply swap_bars_spec|].
  intros [] w' [[_ Hs]|[_ ->]].
  - eapply swapped_follows; [exact Hs | by apply aligned_refl].
  - by apply follows_refl, aligned_refl.
Qed.

(** ** Consistency at every observable point *)

Lemma consistent_layout v v' : layout v' = layout v → consistent v → consistent v'.
Proof.
  intros HL [Hwf Hl]. pose proof (layout_eq _ _ HL) as (Hd & Hb & Ht).
  assert (Hc : labels (canvas v') = labels (canvas v)).
  { unfold layout in HL. by simplify_eq. }
  split.
  - unfold wf. by rewrite Hd, Hb, Ht.
  - unfold labelled, rows. rewrite Hd, Hb, Ht.
    eapply Forall_impl; [exact Hl|]. intros r. unfold row_shown. by rewrite Hc.
Qed.

Lemma aligned_consistent v0 v : consistent v0 → aligned v0 v → consistent v.
Proof.
  intros [_ Hl] Ha. split; [apply Ha | by eapply aligned_labelled].
Qed.

Lemma quiet_throughout w w' :
  consistent (vis w) → quiet w w' → throughout consistent w w'.
Proof.
  intros Hc [HL _ _ T _]. split; [|by eapply consistent_layout].
  eapply shows_mono; [|exact T]. intros v Hv. simpl in Hv.
  eapply consistent_layout; [exact Hv | exact Hc].
Qed.

Lemma follows_throughout w w' :
  consistent (vis w) → follows (aligned (vis w)) w w' → throughout consistent w w'.
Proof.
  intros Hc [N _ _ T]. split; [|by eapply aligned_consistent].
  eapply shows_mono; [|exact T]. intros v Hv. simpl in Hv.
  eapply aligned_consistent; [exact Hc | exact Hv].
Qed.

Lemma load_done_throughout data_list w w' :
  load_done data_list w w' → throughout consistent w w'.
Proof.
  intros [_ Hwf Hl _ T]. assert (Hc : consistent (vis w')) by done.
  split; [|done]. eapply shows_mono; [|exact T].
  intros v Hv. simpl in Hv. eapply consistent_layout; [exact Hv | exact Hc].
Qed.

Lemma throughout_trans P w1 w2 w3 :
  throughout P w1 w2 → throughout P w2 w3 → throughout P w1 w3.
Proof. intros [T1 _] [T2 N]. split; [by eapply shows_trans | done]. Qed.

Lemma sort_done_follows data_fn w w' :
  sort_done data_fn w w' → follows (aligned (vis w)) w w'.
Proof. by intros []. Qed.

Lemma aligned_trans v0 v1 v2 : aligned v0 v1 → aligned v1 v2 → aligned v0 v2.
Proof.
  intros (_ & P1 & L1) (W2 & P2 & L2). split; [done|].
  split; [by rewrite P2 | by rewrite L2].
Qed.

Lemma follows_rebase v0 w w' :
  aligned v0 (vis w) → follows (aligned (vis w)) w w' → follows (aligned v0) w w'.
Proof. intros Ha. apply follows_mono. intros v. by apply aligned_trans. Qed.

Lemma call_follows v0 c w :
  aligned v0 (vis w) → wp (call c) (λ _ w', follows (aligned v0) w w') w.
Proof.
  intros Ha. pose proof Ha as [Hwf _]. destruct c; simpl.
  - eapply wp_mono; [by apply move_bar_quiet|].
    intros [] w' Hq. by apply quiet_follows.
  - eapply wp_mono; [by apply swap_bars_follows|].
    intros [] w' Hf. by apply follows_rebase.
  - eapply wp_mono; [apply highlight_quiet|].
    intros [] w' Hq. by apply quiet_follows.
  - eapply wp_mono; [apply reset_colors_quiet|].
    intros [] w' Hq. by apply quiet_follows.
  - eapply wp_mono; [by apply insertion_sort_spec|].
    intros [] w' Hs. by eapply follows_rebase, sort_done_follows.
  - eapply wp_mono; [by apply selection_sort_spec|].
    intros [] w' Hs. by eapply follows_rebase, sort_done_follows.
  - apply wp_modify. split; [| done | done | by exists []].
    by eapply aligned_layout.
Qed.

Lemma calls_follows v0 cs w :
  aligned v0 (vis w) → wp (calls cs) (λ _ w', follows (aligned v0) w w') w.
Proof.
  revert w. induction cs as [|c cs IH]; intros w Ha.
  { apply wp_ret. by apply follows_refl. }
  cbn [calls]. eapply wp_seq; [by apply call_follows|].
  intros [] w1 Hf1. eapply wp_mono; [apply IH, Hf1|].
  intros [] w2 Hf2. by eapply follows_trans.
Qed.

(** ** Runs that start with [load_data] *)

Lemma after_load (sort : M unit) data_list w (Q : World → World → Prop) :
  (∀ w1, load_done data_list w w1 → wp sort (λ _ w', Q w1 w') w1) →
  ∃ w1 w', load_done data_list w w1 ∧ Q w1 w' ∧
           (load_data data_list;; sort) w = Ok tt w'.
Proof.
  intros Hsort.
  destruct (wp_run _ _ _ (load_data_spec data_list w)) as ([] & w1 & Hrun1 & Hl).
  destruct (wp_run _ _ _ (Hsort w1 Hl)) as ([] & w' & Hrun2 & HQ).
  exists w1, w'. split; [done|]. split; [done|].
  unfold mbind, M_bind. by rewrite Hrun1.
Qed.

Lemma rows_data v : wf v → (λ r, r.1) <$> rows v = data v.
Proof.
  intros [W1 W2]. unfold rows. apply fst_zip. rewrite length_zip. lia.
Qed.

Lemma aligned_data_perm v0 v : wf v0 → aligned v0 v → data v ≡ₚ data v0.
Proof.
  intros Hwf0 (Hwf & Hp & _).
  rewrite <- (rows_data v), <- (rows_data v0) by done. by rewrite Hp.
Qed.

Lemma load_done_calm data_list w w1 :
  load_done data_list w w1 → EnvStop ∉ pending w → EnvStop ∉ pending w1.
Proof. intros [_ _ _ Hp _] Hn. by eapply no_stop_suffix. Qed.

Lemma load_done_bars_drawn data_list w w1 :
  load_done data_list w w1 → bars_drawn (vis w1).
Proof. intros [_ Hwf Hl _ _]. by apply labelled_bars_drawn. Qed.

(** ** The speed mapping *)

Lemma py_max_spec (a b : Q) :
  (a <= py_max a b)%Q ∧ (b <= py_max a b)%Q ∧ (py_max a b == Qmax a b)%Q.
Proof.
  unfold py_max, Qltb. destruct (Qle_bool b a) eqn:E; simpl.
  - apply Qle_bool_iff in E. split; [lra|]. split; [done|].
    symmetry. by apply Q.max_l.
  - assert (a < b)%Q as Hlt.
    { apply Qnot_le_lt. intros H. apply Qle_bool_iff in H. congruence. }
    split; [lra|]. split; [lra|]. symmetry. apply Q.max_r. lra.
Qed.

Lemma py_max_mono (m x y : Q) : (x <= y)%Q → (py_max m x <= py_max m y)%Q.
Proof.
  intros Hxy.
  destruct (py_max_spec m x) as (_ & _ & ->), (py_max_spec m y) as (_ & _ & ->).
  apply Q.max_le_compat_l. done.
Qed.

(** On the hundred integer positions of the slider the binary64 delays
    decrease and stay above the floor as well. *)
Lemma f64_speed_of_positions :
  f64_antitone (f64_speed_of <$> (f64_of_int <$> slider_positions)) = true ∧
  forallb (SFleb f64_minimum_delay)
          (f64_speed_of <$> (f64_of_int <$> slider_positions)) = true.
Proof. split; vm_compute; reflexivity. Qed.

(** ** Out-of-range indices *)

Lemma move_bar_out_of_range index dx dy steps w :
  ¬ (0 ≤ index < len (bar_items (vis w))) → move_bar index dx dy steps w = Ok tt w.
Proof.
  intros Hi. unfold move_bar, mbind, M_bind, gets.
  replace ((index <? 0) || (index >=? len (bar_items (vis w)))) with true; [done|].
  symmetry. apply orb_true_iff. rewrite Z.geb_leb.
  destruct (Z.ltb_spec index 0); [by left | right; apply Z.leb_le; lia].
Qed.

Lemma highlight_out_of_range i color w :
  ¬ (0 ≤ i < len (bar_items (vis w))) →
  highlight [i] color w = highlight [] color w.
Proof.
  intros Hi. unfold highlight. cbn [highlight_each].
  unfold mbind at 1 2 3, M_bind at 1 2 3, gets.
  replace ((0 <=? i) && (i <? len (bar_items (vis w)))) with false; [done|].
  symmetry. apply andb_false_iff.
  destruct (Z.leb_spec 0 i); [right; apply Z.ltb_ge; lia | by left].
Qed.

Lemma key_at_out_of_range k w :
  ¬ (- len (data (vis w)) ≤ k < len (data (vis w))) →
  key_at k w = Raise IndexError w.
Proof.
  intros Hk. unfold key_at, mbind, M_bind, gets, getitem, py_index.
  fold (len (data (vis w))).
  replace ((0 <=? k) && (k <? len (data (vis w)))) with false.
  2:{ symmetry. apply andb_false_iff.
      destruct (Z.leb_spec 0 k); [right; apply Z.ltb_ge; lia | by left]. }
  replace ((k <? 0) && (- len (data (vis w)) <=? k)) with false; [done|].
  symmetry. apply andb_false_iff.
  destruct (Z.ltb_spec k 0); [right; apply Z.leb_gt; lia | by left].
Qed.

(** ** Which operations call the progress callback *)

Create HintDb silent.

Lemma silent_ret {A} (a : A) : silent (mret a).
Proof. by intros w. Qed.

Lemma silent_bind {A B} (m : M A) (f : A → M B) :
  silent m → (∀ a, silent (f a)) → silent (m ≫= f).
Proof.
  intros Hm Hf w. specialize (Hm w). unfold mbind, M_bind.
  destruct (m w) as [a w1|e w1]; simpl in *; [|done].
  by rewrite Hf.
Qed.

Lemma silent_gets {A} (f : SortVisualizer → A) : silent (gets f).
Proof. by intros w. Qed.

Lemma silent_modify f : silent (modify f).
Proof. by intros w. Qed.

Lemma silent_raise {A} e : silent (@raise A e).
Proof. by intros w. Qed.

Lemma silent_getitem {A} (l : list A) i : silent (getitem l i).
Proof. intros w. unfold getitem. destruct (py_index l i); [|done]. by destruct (l !! n). Qed.

Lemma silent_setitem {A} (l : list A) i x : silent (setitem l i x).
Proof. intros w. unfold setitem. by destruct (py_index l i). Qed.

Lemma silent_yield e : is_callback e = false → silent (yield e).
Proof.
  intros He w. unfold yield, callbacks.
  destruct (pending w); simpl; by rewrite He.
Qed.

#[local] Hint Resolve silent_ret silent_gets silent_modify silent_raise
  silent_getitem silent_setitem : silent.

Ltac silent_step :=
  first
    [ apply silent_bind; [|intros ?]
    | apply silent_yield; reflexivity
    | match goal with |- silent (if ?b then _ else _) => destruct b end
    | match goal with |- silent (match ?x with _ => _ end) => destruct x end
    | solve [auto with silent] ].

Lemma silent_canvas_update : silent canvas_update.
Proof. by apply silent_yield. Qed.

Lemma silent_sleep : silent sleep.
Proof. unfold sleep, get_speed. repeat silent_step. Qed.

Lemma silent_on_canvas f : silent (on_canvas f).
Proof. apply silent_modify. Qed.

#[local] Hint Resolve silent_canvas_update silent_sleep silent_on_canvas : silent.

Lemma silent_repeatM k (m : M unit) : silent m → silent (repeatM k m).
Proof. intros Hm. induction k; simpl; repeat silent_step. Qed.

Lemma silent_move_bar index dx dy steps : silent (move_bar index dx dy steps).
Proof.
  unfold move_bar. silent_step; [silent_step|]. silent_step; [silent_step|].
  apply silent_repeatM. repeat silent_step.
Qed.

Lemma silent_swap_items {A} get set i j : silent (@swap_items A get set i j).
Proof. unfold swap_items. repeat silent_step. Qed.

#[local] Hint Resolve silent_move_bar silent_swap_items : silent.

Lemma silent_swap_bars i j : silent (swap_bars i j).
Proof. unfold swap_bars. repeat silent_step. Qed.

Lemma silent_highlight_each indices color : silent (highlight_each indices color).
Proof. induction indices; cbn [highlight_each]; repeat silent_step. Qed.

#[local] Hint Resolve silent_highlight_each : silent.

Lemma silent_highlight indices color : silent (highlight indices color).
Proof. unfold highlight. silent_step; [apply silent_highlight_each | silent_step]. Qed.

Lemma silent_reset_each indices : silent (reset_each indices).
Proof. induction indices; cbn [reset_each]; repeat silent_step. Qed.

#[local] Hint Resolve silent_reset_each : silent.

Lemma silent_reset_colors : silent reset_colors.
Proof.
  unfold reset_colors. silent_step; [silent_step|].
  silent_step; [apply silent_reset_each | silent_step].
Qed.

Lemma silent_key_at k : silent (key_at k).
Proof. unfold key_at. repeat silent_step. Qed.

#[local] Hint Resolve silent_swap_bars silent_highlight silent_reset_colors
  silent_key_at : silent.

Lemma silent_selection_scan i js min_idx : silent (selection_scan i js min_idx).
Proof.
  revert min_idx. induction js as [|j rest IH]; intros min_idx;
    cbn [selection_scan]; repeat silent_step.
Qed.

Lemma notify_callbacks callback w :
  wp (notify callback)
     (λ _ w', callbacks w' = (callbacks w + (if callback then 1 else 0))%nat) w.
Proof.
  unfold notify. destruct callback.
  - unfold wp, mbind, M_bind, gets, yield, callbacks.
    destruct (pending w); simpl; lia.
  - apply wp_ret. lia.
Qed.

Lemma wp_silent {A} (m : M A) (R : A → World → Prop) w :
  silent m → wp m R w → wp m (λ a w', R a w' ∧ callbacks w' = callbacks w) w.
Proof.
  intros Hs. specialize (Hs w). unfold wp in *. by destruct (m w).
Qed.

Lemma no_stop_nil : EnvStop ∉ ([] : list EnvAction).
Proof. apply not_elem_of_nil. Qed.

(** ** The scenarios of the specification *)

Example scenario_final_order :
  data (vis (world_of ((load_data example_rows;; insertion_sort true) example_world)))
    = [mkStudent 2 "B" "r2" 10; mkStudent 3 "C" "r3" 20; mkStudent 1 "A" "r1" 30] ∧
  data (vis (world_of ((load_data example_rows;; selection_sort true) example_world)))
    = [mkStudent 2 "B" "r2" 10; mkStudent 3 "C" "r3" 20; mkStudent 1 "A" "r1" 30].
Proof. split; vm_compute; reflexivity. Qed.

(** The observable points of that insertion sort: one for the load, and the
    updates, pauses and notifications of the run. *)
Example scenario_observable_points :
  length (trace (world_of ((load_data example_rows;; insertion_sort true) example_world)))
    = 498%nat.
Proof. vm_compute; reflexivity. Qed.

(** A run stopped at its fourth observable point: the swap under way is
    completed and the run ends there. *)
Example scenario_cancelled :
  data (vis (world_of ((load_data example_rows;; insertion_sort true) stopping_world)))
    = [mkStudent 2 "B" "r2" 10; mkStudent 1 "A" "r1" 30; mkStudent 3 "C" "r3" 20].
Proof. vm_compute; reflexivity. Qed.

(** Among equal keys the scan keeps the first. *)
Example scenario_tie :
  selection_scan_min
    [mkStudent 1 "A" "r1" 20; mkStudent 2 "B" "r2" 10; mkStudent 3 "C" "r3" 10]
    (range 1 3) 0 = 1%nat.
Proof. reflexivity. Qed.


(** * The properties of the specification *)

Lemma no_stop_example : EnvStop ∉ pending example_world.
Proof.
  simpl. intros H.
  repeat (apply elem_of_cons in H as [H|H]; [discriminate|]).
  by apply elem_of_nil in H.
Qed.

(** C1. For every list of records, a sort that is not cancelled returns,
    and leaves [data] non-decreasing by key (field 3, [marks]) and a
    permutation of the input: no record is created, lost or duplicated.
    This holds for [insertion_sort] and for [selection_sort], run on the
    bars that [load_data] drew for the input. *)
Theorem sort_correctness (callback : bool) (data_list : list Student) (w : World) :
  EnvStop ∉ pending w →
  (∃ w', (load_data data_list;; insertion_sort callback) w = Ok tt w' ∧
         sorted_by_key (data (vis w')) ∧ data (vis w') ≡ₚ data_list) ∧
  (∃ w', (load_data data_list;; selection_sort callback) w = Ok tt w' ∧
         sorted_by_key (data (vis w')) ∧ data (vis w') ≡ₚ data_list).
Proof.
  intros Hn. split.
  - destruct (after_load (insertion_sort callback) data_list w
      (λ w1 w', sort_done (insertion_for_data (range 1 (length (data (vis w1))))) w1 w'))
      as (w1 & w' & Hl & Hs & Hrun).
    { intros w1 Hl. apply insertion_sort_spec, Hl. }
    exists w'. split; [done|].
    pose proof (load_done_calm _ _ _ Hl Hn) as Hn1.
    pose proof (load_done_bars_drawn _ _ _ Hl) as Hd1.
    destruct Hl as [Hdata Hwf _ _ _]. destruct Hs as [Hf _ _ _ Hd].
    split.
    + rewrite (Hd Hn1 Hd1). apply StronglySorted_Sorted, insertion_sort_data_sorted.
    + rewrite <- Hdata. apply aligned_data_perm; [done | apply Hf].
  - destruct (after_load (selection_sort callback) data_list w
      (λ w1 w', sort_done (selection_for_data (length (data (vis w1)))
                             (range 0 (length (data (vis w1))))) w1 w'))
      as (w1 & w' & Hl & Hs & Hrun).
    { intros w1 Hl. apply selection_sort_spec, Hl. }
    exists w'. split; [done|].
    pose proof (load_done_calm _ _ _ Hl Hn) as Hn1.
    pose proof (load_done_bars_drawn _ _ _ Hl) as Hd1.
    destruct Hl as [Hdata Hwf _ _ _]. destruct Hs as [Hf _ _ _ Hd].
    split.
    + rewrite (Hd Hn1 Hd1). apply StronglySorted_Sorted, selection_sort_data_sorted.
    + rewrite <- Hdata. apply aligned_data_perm; [done | apply Hf].
Qed.

Lemma sort_correctness_witness :
  (EnvStop ∉ pending example_world) ∧
  (∃ w', (load_data example_rows;; insertion_sort true) example_world = Ok tt w' ∧
         sorted_by_key (data (vis w')) ∧ data (vis w') ≡ₚ example_rows) ∧
  (∃ w', (load_data example_rows;; selection_sort true) example_world = Ok tt w' ∧
         sorted_by_key (data (vis w')) ∧ data (vis w') ≡ₚ example_rows).
Proof.
  split; [exact no_stop_example|].
  apply (sort_correctness true example_rows example_world). exact no_stop_example.
Defined.

(** C3. Whatever the user does while a sort runs, and so wherever a press
    on "Stop Sorting" takes effect, the sort returns and [data] is still a
    permutation of the input: of the same length, with every record of the
    input and no other. *)
Theorem cancellation_keeps_records (callback : bool) (data_list : list Student)
    (w : World) :
  (∃ w', (load_data data_list;; insertion_sort callback) w = Ok tt w' ∧
         data (vis w') ≡ₚ data_list ∧
         length (data (vis w')) = length data_list) ∧
  (∃ w', (load_data data_list;; selection_sort callback) w = Ok tt w' ∧
         data (vis w') ≡ₚ data_list ∧
         length (data (vis w')) = length data_list).
Proof.
  split.
  - destruct (after_load (insertion_sort callback) data_list w
      (λ w1 w', sort_done (insertion_for_data (range 1 (length (data (vis w1))))) w1 w'))
      as (w1 & w' & Hl & Hs & Hrun).
    { intros w1 Hl. apply insertion_sort_spec, Hl. }
    exists w'. split; [done|].
    destruct Hl as [Hdata Hwf _ _ _]. destruct Hs as [Hf _ _ _ _].
    assert (Hp : data (vis w') ≡ₚ data_list).
    { rewrite <- Hdata. apply aligned_data_perm; [done | apply Hf]. }
    split; [done | by rewrite Hp].
  - destruct (after_load (selection_sort callback) data_list w
      (λ w1 w', sort_done (selection_for_data (length (data (vis w1)))
                             (range 0 (length (data (vis w1))))) w1 w'))
      as (w1 & w' & Hl & Hs & Hrun).
    { intros w1 Hl. apply selection_sort_spec, Hl. }
    exists w'. split; [done|].
    destruct Hl as [Hdata Hwf _ _ _]. destruct Hs as [Hf _ _ _ _].
    assert (Hp : data (vis w') ≡ₚ data_list).
    { rewrite <- Hdata. apply aligned_data_perm; [done | apply Hf]. }
    split; [done | by rewrite Hp].
Qed.

(** C2. After [load_data], whatever methods are called next and whatever
    the user does meanwhile, at every observable point ([canvas.update()],
    [time.sleep], the progress callback) and at the end: the three lists
    have one length, every position holds a record together with the
    handles [load_data] drew for it (the value label reads its marks, the
    name label its name), and the rows are those of the loaded state in
    some order.  In particular [swap_bars] reorders the handle lists as it
    reorders [data], and no observable point falls between. *)
Theorem handles_stay_aligned (data_list : list Student) (cs : list Call) (w : World) :
  ∃ w1 w', load_data data_list w = Ok tt w1 ∧ calls cs w1 = Ok tt w' ∧
           data (vis w1) = data_list ∧
           throughout consistent w w' ∧
           throughout (aligned (vis w1)) w1 w'.
Proof.
  destruct (wp_run _ _ _ (load_data_spec data_list w)) as ([] & w1 & Hrun1 & Hl).
  assert (Hc1 : consistent (vis w1)) by (split; apply Hl).
  assert (Ha1 : aligned (vis w1) (vis w1)) by apply aligned_refl, Hl.
  destruct (wp_run _ _ _ (calls_follows (vis w1) cs w1 Ha1)) as ([] & w' & Hrun2 & Hf).
  exists w1, w'. split; [done|]. split; [done|]. split; [apply Hl|].
  pose proof (follows_throughout _ _ Hc1 Hf) as Ht.
  split.
  - eapply throughout_trans; [by eapply load_done_throughout | done].
  - destruct Hf as [N _ _ T]. by split.
Qed.

Lemma run_data {A} (m : M A) w a w' :
  m w = Ok a w' → data (vis (world_of (m w))) = data (vis w').
Proof. by intros ->. Qed.

(** C10. Whatever the user does while a sort runs, the sort returns with
    [running] false and with every bar painted in the "sorted" colour by
    the final highlight, which the last [canvas.update()] shows; this is so
    for a cancelled run too, whose data is not sorted (the example run is
    stopped at its fourth observable point). *)
Theorem sort_exit_state (callback : bool) (data_list : list Student) (w : World) :
  (∃ w', (load_data data_list;; insertion_sort callback) w = Ok tt w' ∧
         running (vis w') = false ∧
         length (bar_items (vis w')) = length data_list ∧
         all_bars_filled sorted_color (vis w') ∧
         ∃ v rest, trace w' = (EvUpdate, v) :: rest ∧
                   all_bars_filled sorted_color v) ∧
  (∃ w', (load_data data_list;; selection_sort callback) w = Ok tt w' ∧
         running (vis w') = false ∧
         length (bar_items (vis w')) = length data_list ∧
         all_bars_filled sorted_color (vis w') ∧
         ∃ v rest, trace w' = (EvUpdate, v) :: rest ∧
                   all_bars_filled sorted_color v) ∧
  (∃ w', (load_data example_rows;; insertion_sort callback) stopping_world = Ok tt w' ∧
         ¬ sorted_by_key (data (vis w')) ∧
         all_bars_filled sorted_color (vis w')).
Proof.
  assert (Hgen : ∀ (sort : M unit) data_fn dl w0,
    (∀ w1, wf (vis w1) → wp sort (λ _ w', sort_done (data_fn w1) w1 w') w1) →
    ∃ w', (load_data dl;; sort) w0 = Ok tt w' ∧
          running (vis w') = false ∧
          length (bar_items (vis w')) = length dl ∧
          all_bars_filled sorted_color (vis w') ∧
          ∃ v rest, trace w' = (EvUpdate, v) :: rest ∧
                    all_bars_filled sorted_color v).
  { intros sort data_fn dl w0 Hsort.
    destruct (after_load sort dl w0 (λ w1 w', sort_done (data_fn w1) w1 w'))
      as (w1 & w' & Hl & Hs & Hrun).
    { intros w1 Hl. apply Hsort, Hl. }
    exists w'. split; [done|].
    pose proof (load_done_bars_drawn _ _ _ Hl) as Hd1.
    destruct Hl as [Hdata Hwf _ _ _].
    destruct Hs as [Hf Hr Hfill (v & rest & Ht & Hvc & Hvb) _].
    split; [done|]. split.
    - destruct Hf as [Ha _ _ _]. pose proof Ha as ([W1 W2] & _).
      rewrite <- W1, <- Hdata. by apply aligned_length.
    - split; [by apply Hfill|]. exists v, rest. split; [done|].
      intros k b Hk. rewrite Hvc. rewrite Hvb in Hk. by apply (Hfill Hd1 k). }
  split; [|split].
  - apply (Hgen _ (λ w1, insertion_for_data (range 1 (length (data (vis w1)))))).
    intros w1. apply insertion_sort_spec.
  - apply (Hgen _ (λ w1, selection_for_data (length (data (vis w1)))
                            (range 0 (length (data (vis w1)))))).
    intros w1. apply selection_sort_spec.
  - destruct (Hgen (insertion_sort callback)
                (λ w1, insertion_for_data (range 1 (length (data (vis w1)))))
                example_rows stopping_world)
      as (w' & Hrun & _ & _ & Hfill & _).
    { intros w1. apply insertion_sort_spec. }
    exists w'. split; [done|]. split; [|done].
    rewrite <- (run_data _ _ _ _ Hrun).
    destruct callback; vm_compute; intros Hs;
      apply Sorted_inv in Hs as [Hs _]; apply Sorted_inv in Hs as [_ Hs];
      apply HdRel_inv in Hs; vm_compute in Hs; by apply Hs.
Qed.

(** C5. [get_speed] returns [max(0.001, (101 - val) / 700)] for the slider
    value [val]; a larger slider value never gives a larger delay, and the
    delay is at least the floor 0.001, so strictly positive. *)
Theorem get_speed_antitone (a b : Q) :
  (a < b)%Q →
  (speed_of b <= speed_of a)%Q ∧
  (∀ val, (speed_of val == Qmax (1 # 1000) ((101 - val) / 700))%Q ∧
          (minimum_delay <= speed_of val)%Q ∧ (0 < speed_of val)%Q) ∧
  (∀ w, get_speed w = Ok (speed_of (speed_scale (vis w))) w).
Proof.
  intros Hab. split; [|split].
  - unfold speed_of. apply py_max_mono. unfold speed_divisor, Qz.
    apply Qmult_le_compat_r; [|done].
    change (inject_Z 101) with (101 # 1)%Q. lra.
  - intros val. unfold speed_of.
    destruct (py_max_spec minimum_delay ((Qz 101 - val) / speed_divisor)%Q)
      as (H1 & _ & H3).
    split; [exact H3|]. split; [exact H1|].
    unfold minimum_delay in *. lra.
  - done.
Qed.

Lemma get_speed_antitone_witness :
  (1 < 100)%Q ∧
  (speed_of 100 <= speed_of 1)%Q ∧
  (∀ val, (speed_of val == Qmax (1 # 1000) ((101 - val) / 700))%Q ∧
          (minimum_delay <= speed_of val)%Q ∧ (0 < speed_of val)%Q) ∧
  (∀ w, get_speed w = Ok (speed_of (speed_scale (vis w))) w).
Proof.
  split; [done|]. apply (get_speed_antitone 1 100). done.
Defined.

(** C8. [swap_bars(i, j)] with [i == j], or with an index outside
    [[0, len(bar_items))], returns normally and changes nothing: the lists,
    the canvas with every position on it, and the log of observable points
    are the same afterwards. *)
Theorem swap_bars_noop (i j : Z) (w : World) :
  i = j ∨ ¬ (0 ≤ i < len (bar_items (vis w))) ∨
          ¬ (0 ≤ j < len (bar_items (vis w))) →
  swap_bars i j w = Ok tt w.
Proof.
  intros [->|[Hi|Hj]].
  - apply swap_bars_same.
  - by apply swap_bars_out_of_range_l.
  - by apply swap_bars_out_of_range_r.
Qed.

Lemma swap_bars_noop_witness :
  (5 = 0 ∨ ¬ (0 ≤ 5 < len (bar_items (vis example_loaded))) ∨
           ¬ (0 ≤ 0 < len (bar_items (vis example_loaded)))) ∧
  swap_bars 5 0 example_loaded = Ok tt example_loaded.
Proof.
  assert (H : 5 = 0 ∨ ¬ (0 ≤ 5 < len (bar_items (vis example_loaded))) ∨
                      ¬ (0 ≤ 0 < len (bar_items (vis example_loaded)))).
  { right. left. vm_compute. intros [_ H]. discriminate H. }
  split; [exact H|]. exact (swap_bars_noop 5 0 example_loaded H).
Defined.

(** C6, as stated, fails: index 7 is out of range for the three bars of the
    example, 7 and 0 are not a self-swap, and [swap_bars(7, 0)] returns
    normally instead of raising. *)
Lemma out_of_range_swap_returns :
  len (bar_items (vis example_loaded)) = 3 ∧
  7 ≠ 0 ∧
  swap_bars 7 0 example_loaded = Ok tt example_loaded ∧
  (∀ e w', swap_bars 7 0 example_loaded ≠ Raise e w').
Proof.
  split; [done|]. split; [done|].
  assert (H : swap_bars 7 0 example_loaded = Ok tt example_loaded) by by vm_compute.
  split; [exact H|]. intros e w'. by rewrite H.
Qed.

(** C6, amended.  An index outside [[0, len(bar_items))] given to
    [swap_bars], [move_bar] or [highlight] is ignored without any error:
    the swap and the move return with nothing changed, and the highlight
    behaves as if the index were not listed.  Only a direct read
    [self.data[k]] raises [IndexError], for [k] outside
    [[-len(data), len(data))]. *)
Theorem out_of_range_is_ignored (i j k : Z) (dx dy : Q) (steps : nat)
    (color : string) (w : World) :
  ¬ (0 ≤ i < len (bar_items (vis w))) →
  ¬ (- len (data (vis w)) ≤ k < len (data (vis w))) →
  swap_bars i j w = Ok tt w ∧
  swap_bars j i w = Ok tt w ∧
  move_bar i dx dy steps w = Ok tt w ∧
  highlight [i] color w = highlight [] color w ∧
  key_at k w = Raise IndexError w.
Proof.
  intros Hi Hk. split; [by apply swap_bars_out_of_range_l|].
  split; [by apply swap_bars_out_of_range_r|].
  split; [by apply move_bar_out_of_range|].
  split; [by apply highlight_out_of_range | by apply key_at_out_of_range].
Qed.

Lemma out_of_range_is_ignored_witness :
  ¬ (0 ≤ 7 < len (bar_items (vis example_loaded))) ∧
  ¬ (- len (data (vis example_loaded)) ≤ 7 < len (data (vis example_loaded))) ∧
  swap_bars 7 0 example_loaded = Ok tt example_loaded ∧
  swap_bars 0 7 example_loaded = Ok tt example_loaded ∧
  move_bar 7 0 (- Qz 30) 20 example_loaded = Ok tt example_loaded ∧
  highlight [7] key_color example_loaded = highlight [] key_color example_loaded ∧
  key_at 7 example_loaded = Raise IndexError example_loaded.
Proof.
  assert (H1 : ¬ (0 ≤ 7 < len (bar_items (vis example_loaded)))).
  { vm_compute. intros [_ H]. discriminate H. }
  assert (H2 : ¬ (- len (data (vis example_loaded)) ≤ 7
                  < len (data (vis example_loaded)))).
  { vm_compute. intros [_ H]. discriminate H. }
  split; [exact H1|]. split; [exact H2|].
  exact (out_of_range_is_ignored 7 0 7 0 (- Qz 30) 20 key_color example_loaded H1 H2).
Defined.

(** C4. While the sort thread is alive, a start request for either sort
    only shows the information dialog "Already running.": the application
    is left exactly as it was (data and handles not reloaded, label and
    thread untouched, no new thread). *)
Theorem start_while_running_is_busy (app : StudentApp) :
  thread_alive (sort_thread app) = true →
  start_insertion_sort app = (ShowInfo "Sorting" "Already running.", app) ∧
  start_selection_sort app = (ShowInfo "Sorting" "Already running.", app).
Proof.
  intros Halive. unfold start_insertion_sort, start_selection_sort, start_sort.
  by rewrite Halive.
Qed.

Lemma start_while_running_is_busy_witness :
  thread_alive (sort_thread busy_app) = true ∧
  start_insertion_sort busy_app = (ShowInfo "Sorting" "Already running.", busy_app) ∧
  start_selection_sort busy_app = (ShowInfo "Sorting" "Already running.", busy_app).
Proof.
  split; [reflexivity|]. apply (start_while_running_is_busy busy_app). reflexivity.
Defined.

(** C9, as stated, fails: with an empty table and a sort still running, a
    start request shows "Already running.", not "No data.". *)
Lemma empty_start_while_running :
  db busy_empty_app = [] ∧
  start_insertion_sort busy_empty_app
    = (ShowInfo "Sorting" "Already running.", busy_empty_app) ∧
  (start_insertion_sort busy_empty_app).1 ≠ ShowInfo "Empty" "No data.".
Proof. split; [done|]. split; [done|]. discriminate. Qed.

(** C9, amended.  [load_data] of an empty list leaves an empty state: no
    records, no handles, nothing on the canvas, and no observable point.
    A start request for either sort, when the table is empty and no sort
    is running, only shows the dialog "No data.": no thread is created and
    the application is left as it was. *)
Theorem empty_start_is_no_data (app : StudentApp) (w : World) :
  db app = [] →
  thread_alive (sort_thread app) = false →
  (∃ w', load_data [] w = Ok tt w' ∧
         data (vis w') = [] ∧ bar_items (vis w') = [] ∧ text_items (vis w') = [] ∧
         items (canvas (vis w')) = ∅ ∧ trace w' = trace w) ∧
  start_insertion_sort app = (ShowInfo "Empty" "No data.", app) ∧
  start_selection_sort app = (ShowInfo "Empty" "No data.", app).
Proof.
  intros Hdb Halive. split.
  - eexists. split; [reflexivity|]. done.
  - unfold start_insertion_sort, start_selection_sort, start_sort.
    by rewrite Halive, Hdb.
Qed.

Lemma empty_start_is_no_data_witness :
  db idle_empty_app = [] ∧
  thread_alive (sort_thread idle_empty_app) = false ∧
  (∃ w', load_data [] example_loaded = Ok tt w' ∧
         data (vis w') = [] ∧ bar_items (vis w') = [] ∧ text_items (vis w') = [] ∧
         items (canvas (vis w')) = ∅ ∧ trace w' = trace example_loaded) ∧
  start_insertion_sort idle_empty_app = (ShowInfo "Empty" "No data.", idle_empty_app) ∧
  start_selection_sort idle_empty_app = (ShowInfo "Empty" "No data.", idle_empty_app).
Proof.
  split; [reflexivity|]. split; [reflexivity|].
  apply (empty_start_is_no_data idle_empty_app example_loaded); reflexivity.
Defined.

(** C7. One turn of the outer loop of [selection_sort] at position [i], not
    cancelled: the index the scan ends with is the first position in
    [[i, n)] that holds the least key there (a later equal key does not
    replace it, the comparison being strict).  If that index is [i], no
    swap is made: lists and canvas items are as before and the progress
    callback is not called.  Otherwise the records and the handles at [i]
    and at that index are exchanged, and the callback, if one was given, is
    called once. *)
Theorem selection_turn_picks_earliest_min (callback : bool) (i : nat) (w : World) :
  wf (vis w) → bars_drawn (vis w) → calm w →
  (i < length (data (vis w)))%nat →
  ∃ m w',
    selection_for callback (length (data (vis w))) [i] w = Ok tt w' ∧
    m = selection_scan_min (data (vis w)) (range (i + 1) (length (data (vis w)))) i ∧
    earliest_min (data (vis w)) i (length (data (vis w))) m ∧
    (m = i → layout (vis w') = layout (vis w) ∧ callbacks w' = callbacks w) ∧
    (m ≠ i → data (vis w') = list_swap i m (data (vis w)) ∧
             bar_items (vis w') = list_swap i m (bar_items (vis w)) ∧
             text_items (vis w') = list_swap i m (text_items (vis w)) ∧
             callbacks w' = (callbacks w + (if callback then 1 else 0))%nat).
Proof.
  intros Hwf Hdrawn Hcalm Hi. set (n := length (data (vis w))).
  set (m := selection_scan_min (data (vis w)) (range (i + 1) n) i).
  assert (Hmin : earliest_min (data (vis w)) i n m).
  { by apply selection_scan_min_range. }
  cut (wp (selection_for callback n [i])
          (λ _ w', (m = i → layout (vis w') = layout (vis w) ∧
                            callbacks w' = callbacks w) ∧
                   (m ≠ i → data (vis w') = list_swap i m (data (vis w)) ∧
                            bar_items (vis w') = list_swap i m (bar_items (vis w)) ∧
                            text_items (vis w') = list_swap i m (text_items (vis w)) ∧
                            callbacks w' =
                              (callbacks w + (if callback then 1 else 0))%nat)) w).
  { intros ([] & w' & Hrun & H1 & H2)%wp_run. exists m, w'. done. }
  cbn [selection_for]. apply wp_bind, wp_gets.
  destruct Hcalm as [Hrun Hns]. rewrite Hrun. simpl.
  eapply wp_seq.
  { apply wp_silent; [apply silent_highlight | apply highlight_quiet]. }
  intros [] w1 [Hq1 Hc1].
  pose proof (quiet_fields _ _ Hq1) as (Hd1 & Hb1 & Ht1).
  assert (Hcalm1 : calm w1) by (by eapply quiet_calm).
  eapply wp_seq.
  { apply wp_silent; [apply silent_selection_scan|].
    apply (selection_scan_spec i (range (i + 1) n) i).
    - rewrite Hd1. apply range_bound.
    - rewrite Hd1. done. }
  intros m' w2 [(Hq2 & _ & Hm') Hc2].
  destruct (Hm' Hcalm1) as [Hcalm2 ->]. rewrite Hd1. fold n. fold m.
  assert (Hq02 : quiet w w2) by by etrans.
  pose proof (quiet_fields _ _ Hq02) as (Hd2 & Hb2 & Ht2).
  pose proof (quiet_wf _ _ Hq02 Hwf) as Hwf2.
  pose proof (quiet_bars_drawn _ _ Hq02 Hdrawn) as Hdrawn2.
  apply wp_bind, wp_gets. destruct Hcalm2 as [Hrun2 Hns2]. rewrite Hrun2. simpl.
  destruct Hmin as (Hrange & _).
  destruct (m =? i)%nat eqn:Emi; simpl.
  - apply Nat.eqb_eq in Emi. apply wp_bind, wp_ret.
    eapply wp_seq.
    { apply wp_silent; [apply silent_highlight | apply highlight_quiet]. }
    intros [] w3 [Hq3 Hc3]. apply wp_ret.
    split; [|done]. intros _. split; [|congruence].
    destruct Hq3 as [-> _ _ _ _]. by destruct Hq02 as [-> _ _ _ _].
  - apply Nat.eqb_neq in Emi.
    eapply wp_seq with (R := λ _ w4,
      data (vis w4) = list_swap i m (data (vis w2)) ∧
      bar_items (vis w4) = list_swap i m (bar_items (vis w2)) ∧
      text_items (vis w4) = list_swap i m (text_items (vis w2)) ∧
      callbacks w4 = (callbacks w2 + (if callback then 1 else 0))%nat).
    { eapply wp_seq.
      - apply wp_silent; [apply silent_swap_bars | by apply (swap_bars_spec i m)].
      - intros [] w3 [Hsw Hc3].
        destruct Hsw as [[_ Hs]|[Hno _]].
        2:{ exfalso. apply Hno. split; [done|].
            split; apply bars_drawn_at; try done; rewrite Hd2; fold n; lia. }
        eapply wp_mono.
        { apply wp_and; [apply notify_quiet | apply notify_callbacks]. }
        intros [] w4 [Hq4 Hc4].
        pose proof (quiet_fields _ _ Hq4) as (Hd4 & Hb4 & Ht4).
        destruct Hs as [Sd Sb St _ _ _ _].
        rewrite Hd4, Hb4, Ht4, Hc4, Hc3. done. }
    intros [] w4 (Hd4 & Hb4 & Ht4 & Hc4).
    eapply wp_seq.
    { apply wp_silent; [apply silent_highlight | apply highlight_quiet]. }
    intros [] w5 [Hq5 Hc5]. apply wp_ret.
    pose proof (quiet_fields _ _ Hq5) as (Hd5 & Hb5 & Ht5).
    split; [done|]. intros _.
    rewrite Hd5, Hb5, Ht5, Hc5, Hd4, Hb4, Ht4, Hc4, Hd2, Hb2, Ht2, Hc2, Hc1. done.
Qed.

Lemma selection_turn_picks_earliest_min_witness :
  wf (vis example_loaded) ∧
  bars_drawn (vis example_loaded) ∧
  calm (set_vis (set_running true (vis example_loaded)) example_loaded) ∧
  (0 < length (data (vis example_loaded)))%nat ∧
  ∃ m w',
    selection_for true 3 [0%nat]
      (set_vis (set_running true (vis example_loaded)) example_loaded) = Ok tt w' ∧
    m = 1%nat ∧
    earliest_min example_rows 0 3 m ∧
    data (vis w') = list_swap 0 m example_rows ∧
    callbacks w' = 1%nat.
Proof.
  assert (Hwf : wf (vis example_loaded)) by (split; reflexivity).
  assert (Hdrawn : bars_drawn (vis example_loaded)).
  { intros b Hb. vm_compute in Hb.
    repeat (apply elem_of_cons in Hb as [->|Hb]; [vm_compute; eauto|]).
    by apply elem_of_nil in Hb. }
  assert (Hcalm : calm (set_vis (set_running true (vis example_loaded)) example_loaded)).
  { split; [reflexivity | apply no_stop_nil]. }
  assert (Hlen : (0 < length (data (vis example_loaded)))%nat) by (vm_compute; lia).
  split; [exact Hwf|]. split; [exact Hdrawn|]. split; [exact Hcalm|].
  split; [exact Hlen|].
  destruct (selection_turn_picks_earliest_min true 0
              (set_vis (set_running true (vis example_loaded)) example_loaded)
              Hwf Hdrawn Hcalm Hlen)
    as (m & w' & Hrun & Hm & Hmin & _ & Hswap).
  exists m, w'. split; [exact Hrun|].
  assert (Hm1 : m = 1%nat) by (rewrite Hm; reflexivity).
  split; [exact Hm1|]. split; [exact Hmin|].
  destruct Hswap as (Hd & _ & _ & Hc); [lia|]. split; [exact Hd | exact Hc].
Defined.

(** * Further properties of the code *)

(** ** Insertion sort keeps equal keys in their order *)

Lemma lookup_adjacent {A} (l : list A) j a b :
  l !! j = Some a → l !! S j = Some b →
  l = take j l ++ a :: b :: drop (S (S j)) l.
Proof.
  intros Ha Hb. rewrite <- (take_drop_middle l j a Ha) at 1. f_equal. f_equal.
  assert (H : drop (S j) l !! 0%nat = Some b).
  { rewrite lookup_drop. by rewrite Nat.add_0_r. }
  rewrite <- (take_drop_middle (drop (S j) l) 0 b H). simpl.
  by rewrite drop_drop, Nat.add_1_r.
Qed.

Lemma with_key_swap_adjacent k (p post : list Student) a b :
  marks a ≠ marks b →
  with_key k (p ++ b :: a :: post) = with_key k (p ++ a :: b :: post).
Proof.
  intros Hne. unfold with_key. rewrite !filter_app. f_equal.
  rewrite !filter_cons.
  destruct (decide (marks b = k)), (decide (marks a = k)); try done. congruence.
Qed.

Lemma insertion_while_data_with_key k j l :
  with_key k (insertion_while_data j l) = with_key k l.
Proof.
  revert l. induction j as [|j IH]; intros l; [done|].
  cbn [insertion_while_data].
  destruct (l !! j) as [a|] eqn:Ha; [|done].
  destruct (l !! S j) as [b|] eqn:Hb; [|done].
  destruct (marks a >? marks b) eqn:Hgt; [|done].
  rewrite IH. rewrite (lookup_adjacent l j a b Ha Hb) at 1 2.
  assert (Hlen : length (take j l) = j).
  { apply length_take_le. apply lookup_lt_Some in Ha. lia. }
  rewrite <- Hlen at 1 2. rewrite list_swap_adjacent.
  rewrite with_key_swap_adjacent.
  - by rewrite <- (lookup_adjacent l j a b Ha Hb).
  - apply Z.gtb_lt in Hgt. lia.
Qed.

Lemma insertion_for_data_with_key k indices l :
  with_key k (insertion_for_data indices l) = with_key k l.
Proof.
  revert l. induction indices as [|i rest IH]; intros l; [done|].
  unfold insertion_for_data in *. simpl. rewrite IH.
  apply insertion_while_data_with_key.
Qed.

(** ** Uncancelled runs from [load_data] *)

Lemma insertion_run callback data_list w :
  EnvStop ∉ pending w →
  ∃ w', (load_data data_list;; insertion_sort callback) w = Ok tt w' ∧
        data (vis w') = insertion_for_data (range 1 (length data_list)) data_list.
Proof.
  intros Hn.
  destruct (after_load (insertion_sort callback) data_list w
    (λ w1 w', sort_done (insertion_for_data (range 1 (length (data (vis w1))))) w1 w'))
    as (w1 & w' & Hl & Hs & Hrun).
  { intros w1 Hl. apply insertion_sort_spec, Hl. }
  exists w'. split; [done|].
  pose proof (load_done_calm _ _ _ Hl Hn) as Hn1.
  pose proof (load_done_bars_drawn _ _ _ Hl) as Hd1.
  destruct Hl as [Hdata _ _ _ _]. destruct Hs as [_ _ _ _ Hd].
  by rewrite (Hd Hn1 Hd1), Hdata.
Qed.

Lemma selection_run callback data_list w :
  EnvStop ∉ pending w →
  ∃ w', (load_data data_list;; selection_sort callback) w = Ok tt w' ∧
        data (vis w') = selection_for_data (length data_list)
                          (range 0 (length data_list)) data_list.
Proof.
  intros Hn.
  destruct (after_load (selection_sort callback) data_list w
    (λ w1 w', sort_done (selection_for_data (length (data (vis w1)))
                           (range 0 (length (data (vis w1))))) w1 w'))
    as (w1 & w' & Hl & Hs & Hrun).
  { intros w1 Hl. apply selection_sort_spec, Hl. }
  exists w'. split; [done|].
  pose proof (load_done_calm _ _ _ Hl Hn) as Hn1.
  pose proof (load_done_bars_drawn _ _ _ Hl) as Hd1.
  destruct Hl as [Hdata _ _ _ _]. destruct Hs as [_ _ _ _ Hd].
  by rewrite (Hd Hn1 Hd1), Hdata.
Qed.

Lemma insertion_for_data_perm indices l : insertion_for_data indices l ≡ₚ l.
Proof.
  revert l. induction indices as [|i rest IH]; intros l; [done|].
  unfold insertion_for_data in *. simpl. rewrite IH. clear IH.
  revert l. induction i as [|j IHj]; intros l; [done|].
  cbn [insertion_while_data].
  destruct (l !! j); [|done]. destruct (l !! S j); [|done].
  destruct (_ >? _); [|done]. by rewrite IHj, list_swap_perm.
Qed.

Lemma selection_for_data_perm n indices l : selection_for_data n indices l ≡ₚ l.
Proof.
  revert l. induction indices as [|i rest IH]; intros l; [done|].
  cbn [selection_for_data]. rewrite IH.
  destruct (_ =? _)%nat; [done | apply list_swap_perm].
Qed.


Lemma sorted_keys_unique (l1 l2 : list Student) :
  StronglySorted key_le l1 → StronglySorted key_le l2 → l1 ≡ₚ l2 →
  marks <$> l1 = marks <$> l2.
Proof.
  intros H1 H2 Hp.
  apply (Sorted_unique Z.le).
  - apply (Sorted_fmap marks key_le Z.le); [done | by apply StronglySorted_Sorted].
  - apply (Sorted_fmap marks key_le Z.le); [done | by apply StronglySorted_Sorted].
  - by rewrite Hp.
Qed.

(** ** Sorting what is sorted *)









(** ** Recolouring *)

Lemma with_canvas_id w : with_canvas (λ c, c) w = w.
Proof. by destruct w as [[] ? ?]. Qed.

Lemma with_canvas_compose f g w :
  with_canvas g (with_canvas f w) = with_canvas (λ c, g (f c)) w.
Proof. done. Qed.

Lemma highlight_each_run indices color w :
  highlight_each indices color w
  = Ok tt (with_canvas (recolor (picked (bar_items (vis w)) indices) color) w).
Proof.
  revert w. induction indices as [|i rest IH]; intros w.
  { simpl. by rewrite with_canvas_id. }
  cbn [highlight_each picked omap list_omap]. unfold mbind at 1, M_bind at 1, gets at 1.
  destruct ((0 <=? i) && (i <? len (bar_items (vis w)))) eqn:E.
  - apply in_range_nat in E as (k & -> & Hk). rewrite Nat2Z.id.
    destruct (lookup_lt_is_Some_2 _ _ Hk) as [b Hb]. rewrite Hb.
    unfold mbind at 1 2, M_bind at 1 2, getitem.
    rewrite py_index_nat by done. rewrite Hb. simpl.
    unfold on_canvas, modify. rewrite IH. done.
  - unfold mbind at 1, M_bind at 1. simpl. by rewrite IH.
Qed.

Lemma reset_each_run indices w :
  Forall (λ i, (i < length (bar_items (vis w)))%nat) indices →
  reset_each indices w
  = Ok tt (with_canvas
             (recolor (omap (λ i, bar_items (vis w) !! i) indices) default_color) w).
Proof.
  revert w. induction indices as [|i rest IH]; intros w Hall.
  { simpl. by rewrite with_canvas_id. }
  apply Forall_cons in Hall as [Hi Hrest].
  cbn [reset_each omap list_omap].
  destruct (lookup_lt_is_Some_2 _ _ Hi) as [b Hb]. rewrite Hb.
  unfold mbind at 1 2, M_bind at 1 2, gets at 1, getitem.
  rewrite py_index_nat by done. rewrite Hb. simpl.
  unfold mbind at 1, M_bind at 1, on_canvas, modify. rewrite IH by done. done.
Qed.

Lemma omap_lookup_seq_app {A} (pre l : list A) :
  omap (λ i, (pre ++ l) !! i) (seq (length pre) (length l)) = l.
Proof.
  revert pre. induction l as [|x l IH]; intros pre; [done|].
  cbn [length seq omap list_omap].
  rewrite lookup_app_r by lia. rewrite Nat.sub_diag. simpl. f_equal.
  specialize (IH (pre ++ [x])). rewrite <- app_assoc in IH. simpl in IH.
  rewrite length_app in IH. simpl in IH. by rewrite Nat.add_1_r in IH.
Qed.

Lemma omap_lookup_seq {A} (l : list A) :
  omap (λ i, l !! i) (seq 0 (length l)) = l.
Proof. apply (omap_lookup_seq_app [] l). Qed.

Lemma yield_run e w :
  ∃ w', yield e w = Ok tt w' ∧
        canvas (vis w') = canvas (vis w) ∧ data (vis w') = data (vis w) ∧
        bar_items (vis w') = bar_items (vis w) ∧
        text_items (vis w') = text_items (vis w) ∧
        trace w' = (e, vis w) :: trace w.
Proof.
  unfold yield. destruct (pending w) as [|a rest]; [by eexists|].
  eexists. split; [done|]. by destruct a.
Qed.

Lemma recolor_next_id bs color c : next_id (recolor bs color c) = next_id c.
Proof.
  revert c. induction bs as [|b bs IH]; intros c; [done|].
  simpl. by rewrite IH.
Qed.

Lemma recolor_lookup bs color c id :
  items (recolor bs color c) !! id
  = (if decide (id ∈ bs) then fill_item color else λ it, it) <$> items c !! id.
Proof.
  revert c. induction bs as [|b bs IH]; intros c.
  { destruct (decide (id ∈ [])) as [Hin|_]; [by apply elem_of_nil in Hin|].
    simpl. by destruct (items c !! id). }
  cbn [recolor foldl]. fold (recolor bs color (canvas_itemconfig b color c)).
  rewrite IH. cbn [canvas_itemconfig items].
  destruct (decide (b = id)) as [->|Hne].
  - rewrite lookup_alter_eq.
    destruct (decide (id ∈ id :: bs)) as [_|Hnin]; [|exfalso; apply Hnin; by left].
    destruct (items c !! id) as [it|]; [|by destruct (decide _)]. simpl.
    destruct (decide (id ∈ bs)); [|done]. by destruct it.
  - rewrite lookup_alter_ne by done.
    destruct (decide (id ∈ bs)) as [Hin|Hnin];
      destruct (decide (id ∈ b :: bs)) as [Hin'|Hnin']; try done.
    + exfalso. apply Hnin'. by right.
    + exfalso. apply elem_of_cons in Hin' as [->|?]; done.
Qed.

Lemma canvas_eq (c c' : Canvas) :
  items c = items c' → next_id c = next_id c' → c = c'.
Proof. destruct c, c'. simpl. by intros -> ->. Qed.

Lemma recolor_idemp bs color c :
  recolor bs color (recolor bs color c) = recolor bs color c.
Proof.
  apply canvas_eq; [|by rewrite !recolor_next_id].
  apply map_eq. intros id. rewrite !recolor_lookup.
  destruct (items c !! id) as [it|]; [|done]. simpl.
  destruct (decide (id ∈ bs)); [|done]. by destruct it.
Qed.

Lemma recolor_shape bs color c :
  item_shape <$> items (recolor bs color c) = item_shape <$> items c.
Proof.
  apply map_eq. intros id. rewrite !lookup_fmap, recolor_lookup.
  destruct (items c !! id) as [it|]; [|done]. simpl.
  destruct (decide (id ∈ bs)); [|done]. by destruct it.
Qed.

Lemma recolor_fill bs color c id :
  id ∈ bs → is_Some (items c !! id) → fill_of (recolor bs color c) id = Some color.
Proof.
  intros Hin [it Hit]. unfold fill_of. rewrite recolor_lookup, Hit.
  rewrite decide_True by done. by destruct it.
Qed.

Lemma recolor_other bs color c id :
  id ∉ bs → items (recolor bs color c) !! id = items c !! id.
Proof.
  intros Hnin. rewrite recolor_lookup, decide_False by done.
  by destruct (items c !! id).
Qed.

Lemma elem_of_picked bars indices b :
  b ∈ picked bars indices ↔ ∃ k : nat, Z.of_nat k ∈ indices ∧ bars !! k = Some b.
Proof.
  unfold picked. rewrite list_elem_of_omap. split.
  - intros (i & Hi & Hb).
    destruct ((0 <=? i) && (i <? len bars)) eqn:E; [|done].
    apply in_range_nat in E as (k & -> & Hk). rewrite Nat2Z.id in Hb. eauto.
  - intros (k & Hk & Hb). exists (Z.of_nat k). split; [done|].
    pose proof (lookup_lt_Some _ _ _ Hb) as Hlt. unfold len.
    replace ((0 <=? Z.of_nat k) && (Z.of_nat k <? Z.of_nat (length bars))) with true.
    + by rewrite Nat2Z.id.
    + symmetry. apply andb_true_iff. split; [apply Z.leb_le | apply Z.ltb_lt]; lia.
Qed.

Lemma highlight_run indices color w :
  ∃ w', highlight indices color w = Ok tt w' ∧
        canvas (vis w')
          = recolor (picked (bar_items (vis w)) indices) color (canvas (vis w)) ∧
        data (vis w') = data (vis w) ∧ bar_items (vis w') = bar_items (vis w) ∧
        text_items (vis w') = text_items (vis w).
Proof.
  unfold highlight, mbind, M_bind. rewrite highlight_each_run.
  destruct (yield_run EvUpdate
    (with_canvas (recolor (picked (bar_items (vis w)) indices) color) w))
    as (w' & Hrun & Hc & Hd & Hb & Ht & _).
  exists w'. unfold canvas_update. by rewrite Hrun.
Qed.

Lemma reset_colors_run w :
  ∃ w', reset_colors w = Ok tt w' ∧
        canvas (vis w') = recolor (bar_items (vis w)) default_color (canvas (vis w)) ∧
        data (vis w') = data (vis w) ∧ bar_items (vis w') = bar_items (vis w) ∧
        text_items (vis w') = text_items (vis w).
Proof.
  unfold reset_colors, mbind, M_bind, gets. rewrite reset_each_run.
  2:{ apply Forall_forall. intros i Hi. apply elem_of_seq in Hi. lia. }
  rewrite omap_lookup_seq.
  destruct (yield_run EvUpdate
    (with_canvas (recolor (bar_items (vis w)) default_color) w))
    as (w' & Hrun & Hc & Hd & Hb & Ht & _).
  exists w'. unfold canvas_update. by rewrite Hrun.
Qed.

(** ** What [load_data] draws *)

Lemma load_bar_drawing pad ht max_val bw n0 drawn_rows d w :
  drawing pad ht max_val bw n0 drawn_rows (vis w) →
  wp (load_bar max_val bw (length drawn_rows) d)
     (λ _ w', drawing pad ht max_val bw n0 (drawn_rows ++ [d]) (vis w') ∧
              data (vis w') = data (vis w) ∧ width (vis w') = width (vis w) ∧
              pending w' = pending w ∧ trace w' = trace w ∧
              running (vis w') = running (vis w) ∧
              speed_scale (vis w') = speed_scale (vis w)) w.
Proof.
  destruct w as [[[its nid] sp dat bars texts wd ht' pd run] pend tr].
  intros [Hp Hh Hb Ht Hn Hdom Hit]. simpl in *. subst pd ht' bars texts nid.
  unfold load_bar. apply wp_bind, wp_gets.
  apply wp_bind, wp_create. apply wp_bind, wp_create. apply wp_bind, wp_create.
  apply wp_bind, wp_modify. apply wp_modify. simpl.
  split; [|done].
  set (n := length drawn_rows) in *.
  assert (Hlen : length (drawn_rows ++ [d]) = S n) by (rewrite length_app; simpl; lia).
  split; simpl; try done.
  - rewrite Hlen, seq_S, fmap_app. done.
  - rewrite Hlen, seq_S, fmap_app. simpl. unfold value_id, name_id. do 3 f_equal; lia.
  - rewrite Hlen. lia.
  - intros id. rewrite Hlen. intros [it Hid].
    destruct (decide (id = n0 + 3 * Z.of_nat n + 1 + 1)) as [->|H2]; [lia|].
    rewrite lookup_insert_ne in Hid by done.
    destruct (decide (id = n0 + 3 * Z.of_nat n + 1)) as [->|H1]; [lia|].
    rewrite lookup_insert_ne in Hid by done.
    destruct (decide (id = n0 + 3 * Z.of_nat n)) as [->|H0]; [lia|].
    rewrite lookup_insert_ne in Hid by done.
    specialize (Hdom id ltac:(by eexists)). lia.
  - intros k d' Hk. unfold bar_id, value_id, name_id.
    destruct (decide (k = n)) as [->|Hne].
    + rewrite lookup_app_r in Hk by lia. fold n in Hk. rewrite Nat.sub_diag in Hk.
      simpl in Hk. simplify_eq.
      rewrite lookup_insert_ne by lia. rewrite lookup_insert_ne by lia.
      rewrite lookup_insert_eq.
      rewrite lookup_insert_ne by lia. rewrite lookup_insert_eq.
      replace (n0 + 3 * Z.of_nat n + 2) with (n0 + 3 * Z.of_nat n + 1 + 1) by lia.
      rewrite lookup_insert_eq. done.
    + assert (Hkn : (k < n)%nat).
      { apply lookup_lt_Some in Hk. rewrite Hlen in Hk. lia. }
      rewrite lookup_app_l in Hk by done.
      destruct (Hit k d' Hk) as (H1 & H2 & H3).
      unfold bar_id, value_id, name_id in *.
      rewrite !lookup_insert_ne by lia. done.
Qed.

Lemma load_bars_drawing pad ht max_val bw n0 drawn_rows ds w :
  drawing pad ht max_val bw n0 drawn_rows (vis w) →
  wp (load_bars max_val bw (length drawn_rows) ds)
     (λ _ w', drawing pad ht max_val bw n0 (drawn_rows ++ ds) (vis w') ∧
              data (vis w') = data (vis w) ∧ width (vis w') = width (vis w) ∧
              pending w' = pending w ∧ trace w' = trace w ∧
              running (vis w') = running (vis w) ∧
              speed_scale (vis w') = speed_scale (vis w)) w.
Proof.
  revert drawn_rows w. induction ds as [|d ds IH]; intros drawn_rows w Hd.
  { apply wp_ret. by rewrite app_nil_r. }
  cbn [load_bars]. eapply wp_seq; [by apply (load_bar_drawing pad ht)|].
  intros [] w1 (Hd1 & E1 & E2 & E3 & E4 & E5 & E6).
  replace (S (length drawn_rows)) with (length (drawn_rows ++ [d]))
    by (rewrite length_app; simpl; lia).
  eapply wp_mono; [by apply IH|].
  intros [] w2 (Hd2 & F1 & F2 & F3 & F4 & F5 & F6). rewrite <- app_assoc in Hd2.
  split; [done|]. repeat split; congruence.
Qed.

Lemma yield_geometry e w :
  ∃ w', yield e w = Ok tt w' ∧
        canvas (vis w') = canvas (vis w) ∧ data (vis w') = data (vis w) ∧
        bar_items (vis w') = bar_items (vis w) ∧
        text_items (vis w') = text_items (vis w) ∧
        padding (vis w') = padding (vis w) ∧ height (vis w') = height (vis w) ∧
        width (vis w') = width (vis w).
Proof.
  unfold yield. destruct (pending w) as [|a rest]; [by eexists|].
  eexists. split; [done|]. by destruct a.
Qed.

Lemma load_data_drawing data_list w :
  wp (load_data data_list)
     (λ _ w', drawing (padding (vis w)) (height (vis w)) (max_marks data_list)
                (bar_width_of (width (vis w)) (padding (vis w)) (length data_list))
                (next_id (canvas (vis w))) data_list (vis w') ∧
              data (vis w') = data_list) w.
Proof.
  unfold load_data, on_canvas.
  apply wp_bind, wp_modify. apply wp_bind, wp_modify.
  apply wp_bind, wp_modify. apply wp_bind, wp_modify.
  apply wp_bind, wp_gets. simpl.
  set (w0 := set_vis _ (set_vis _ (set_vis _ (set_vis _ w)))).
  assert (Hd0 : drawing (padding (vis w)) (height (vis w)) (max_marks data_list)
            (bar_width_of (width (vis w)) (padding (vis w)) (length data_list))
            (next_id (canvas (vis w))) [] (vis w0)).
  { split; simpl; try done; try lia.
    intros id [it Hit]. by rewrite lookup_empty in Hit. }
  destruct (length data_list =? 0)%nat eqn:En.
  { apply Nat.eqb_eq, length_zero_iff_nil in En. subst data_list.
    apply wp_ret. done. }
  apply wp_bind, wp_gets. cbv zeta.
  eapply wp_seq.
  { apply (load_bars_drawing _ _ _ _ _ [] data_list w0 Hd0). }
  intros [] w1 (Hd1 & E1 & _). simpl in Hd1, E1.
  pose proof (yield_geometry EvUpdate w1) as (w2 & Hrun & Hc & Hdat & Hb & Ht & Hp & Hh & _).
  eapply wp_of_run; [exact Hrun|].
  split; [|by rewrite Hdat].
  destruct Hd1 as [D1 D2 D3 D4 D5 D6 D7].
  split; rewrite ?Hc, ?Hb, ?Ht, ?Hp, ?Hh; done.
Qed.

Lemma foldl_max_spec (l : list Student) (m : Z) :
  let r := foldl (λ m x, Z.max m (marks x)) m l in
  m ≤ r ∧ (∀ d, d ∈ l → marks d ≤ r) ∧ (r = m ∨ ∃ d, d ∈ l ∧ marks d = r).
Proof.
  revert m. induction l as [|x l IH]; intros m; simpl.
  { split; [lia|]. split; [by intros d ?%elem_of_nil | by left]. }
  destruct (IH (Z.max m (marks x))) as (H1 & H2 & H3). split; [lia|]. split.
  - intros d [->|Hd]%elem_of_cons; [lia | by apply H2].
  - destruct H3 as [H3|(d & Hd & H3)].
    + destruct (Z.max_spec m (marks x)) as [[_ E]|[_ E]].
      * right. exists x. split; [by left | by rewrite H3].
      * left. by rewrite H3.
    + right. exists d. split; [by right | done].
Qed.


Lemma max_marks_attained (l : list Student) :
  l ≠ [] → ∃ d, d ∈ l ∧ marks d = max_marks l.
Proof.
  destruct l as [|x l]; [done|]. intros _. simpl.
  destruct (foldl_max_spec l (marks x)) as (_ & _ & [H|(d & Hd & H)]).
  - exists x. split; [by left | done].
  - exists d. split; [by right | done].
Qed.


Lemma drawing_NoDup pad ht mx bw n0 dl v :
  drawing pad ht mx bw n0 dl v → NoDup (handles v).
Proof.
  intros [_ _ Hb Ht _ _ _]. unfold handles. rewrite Hb, Ht.
  rewrite <- !list_fmap_compose.
  assert (Hinj : ∀ f : nat → Z, (∀ a b, f a = f b → a = b) →
                 NoDup (f <$> seq 0 (length dl))).
  { intros f Hf. apply NoDup_fmap_2; [|apply NoDup_seq]. intros a b. apply Hf. }
  apply NoDup_app. split; [|split].
  - apply Hinj. unfold bar_id. intros a b. lia.
  - intros id (a & Ea & _)%list_elem_of_fmap
      [(b & E & _)%list_elem_of_fmap|(b & E & _)%list_elem_of_fmap]%elem_of_app;
      subst id; simpl in E; unfold bar_id, value_id, name_id in E; lia.
  - apply NoDup_app. split; [|split].
    + apply Hinj. simpl. unfold value_id. intros a b. lia.
    + intros id (a & Ea & _)%list_elem_of_fmap (b & E & _)%list_elem_of_fmap.
      subst id. simpl in E. unfold value_id, name_id in E. lia.
    + apply Hinj. simpl. unfold name_id. intros a b. lia.
Qed.







(** ** Moving items *)


















Lemma ind_in x id (l : list Z) : x ∈ l → id ∉ l → ind x id = 0%Q.
Proof. intros Hx Hid. unfold ind. destruct (decide (id = x)); [by subst|done]. Qed.










(** ** Invariants of the sorts *)






















Section keeps_sorts.
Context (pad ht mx : Z) (bw : Q).








End keeps_sorts.

Lemma same_place_refl a : same_place a a.
Proof. destruct a; simpl; repeat split; reflexivity. Qed.

Lemma drawing_pictured pad ht mx bw n0 dl v :
  drawing pad ht mx bw n0 dl v → data v = dl → pictured pad ht mx bw v.
Proof.
  intros D Ed. pose proof D as [_ _ Eb Et _ _ Hi]. split.
  - unfold wf. by rewrite Ed, Eb, Et, !length_fmap, !length_seq.
  - by eapply drawing_NoDup.
  - intros k d b t n. rewrite Ed, Eb, Et, !list_lookup_fmap. intros Hd Hb Ht.
    pose proof (lookup_lt_Some _ _ _ Hd) as Hk.
    rewrite lookup_seq_lt in Hb, Ht by done. simpl in Hb, Ht. simplify_eq.
    destruct (Hi k d Hd) as (H1 & H2 & H3).
    eexists _, _, _. repeat split; try eassumption; apply same_place_refl.
Qed.

(** ** Counting the progress callbacks *)

Lemma cam_silent {A} (m : M A) : silent m → calls_at_most 0 m.
Proof. intros H w. rewrite H. lia. Qed.

Lemma cam_weaken {A} (a b : nat) (m : M A) :
  (a ≤ b)%nat → calls_at_most a m → calls_at_most b m.
Proof. intros Hab H w. specialize (H w). lia. Qed.

Lemma cam_bind {A B} (a b : nat) (m : M A) (f : A → M B) :
  calls_at_most a m → (∀ x, calls_at_most b (f x)) →
  calls_at_most (a + b) (m ≫= f).
Proof.
  intros Hm Hf w. specialize (Hm w). unfold mbind, M_bind.
  destruct (m w) as [x w1|e w1]; simpl in *; [|lia].
  specialize (Hf x w1). lia.
Qed.

Lemma cam_after {A B} (k : nat) (m : M A) (f : A → M B) :
  silent m → (∀ x, calls_at_most k (f x)) → calls_at_most k (m ≫= f).
Proof. intros Hm Hf. apply (cam_bind 0 k); [by apply cam_silent | done]. Qed.

Lemma cam_ret {A} (k : nat) (a : A) : calls_at_most k (mret a).
Proof. intros w. simpl. lia. Qed.

Lemma cam_notify callback : calls_at_most 1 (notify callback).
Proof.
  intros w. pose proof (notify_callbacks callback w) as H. unfold wp in H.
  destruct (notify callback w); [|done]. simpl. destruct callback; lia.
Qed.

Lemma cam_insertion_while callback j : calls_at_most j (insertion_while callback j).
Proof.
  induction j as [|j IH]; [apply cam_ret|].
  cbn [insertion_while].
  apply cam_after; [apply silent_key_at|]. intros a.
  apply cam_after; [apply silent_key_at|]. intros b.
  destruct (a >? b); [|apply cam_ret].
  apply cam_after; [apply silent_gets|]. intros r.
  destruct (negb r); [apply cam_ret|].
  apply cam_after; [apply silent_highlight|]. intros _.
  apply cam_after; [apply silent_swap_bars|]. intros _.
  apply cam_after; [apply silent_highlight|]. intros _.
  apply (cam_bind 1 j); [apply cam_notify|]. intros _.
  by apply cam_after; [apply silent_sleep|].
Qed.

Lemma cam_insertion_for callback indices :
  calls_at_most (sum_list indices) (insertion_for callback indices).
Proof.
  induction indices as [|i rest IH]; [apply cam_ret|].
  cbn [insertion_for sum_list sum_list_with].
  apply cam_after; [apply silent_gets|]. intros r.
  destruct (negb r); [apply cam_ret|].
  apply cam_after; [apply silent_highlight|]. intros _.
  apply cam_after; [apply silent_sleep|]. intros _.
  apply cam_bind; [apply cam_insertion_while|]. intros _.
  by apply cam_after; [apply silent_reset_colors|].
Qed.

Lemma sum_list_seq a n : (2 * sum_list (seq a n) + n = n * (2 * a + n))%nat.
Proof.
  revert a. induction n as [|n IH]; intros a; [simpl; lia|].
  simpl seq. simpl sum_list. specialize (IH (S a)). lia.
Qed.

(** The turns of [selection_sort]'s outer loop that can swap: those that
    have a bar to their right. *)
Lemma cam_selection_for callback n indices :
  calls_at_most (length (filter (λ i, (i + 1 < n)%nat) indices))
                (selection_for callback n indices).
Proof.
  induction indices as [|i rest IH]; [apply cam_ret|].
  cbn [selection_for].
  apply (cam_weaken (length (filter (λ i, (i + 1 < n)%nat) [i])
                     + length (filter (λ i, (i + 1 < n)%nat) rest))).
  { change (i :: rest) with ([i] ++ rest). by rewrite filter_app, length_app. }
  apply cam_after; [apply silent_gets|]. intros r.
  destruct (negb r); [apply cam_ret|].
  apply cam_after; [apply silent_highlight|]. intros _.
  destruct (decide (i + 1 < n)%nat) as [Hi|Hi].
  - rewrite filter_cons_True by done. simpl.
    apply cam_after; [apply silent_selection_scan|]. intros m.
    apply cam_after; [apply silent_gets|]. intros r'.
    destruct (negb r'); [apply cam_ret|].
    apply (cam_bind 1).
    + destruct (negb (m =? i)%nat); [|apply cam_ret].
      apply cam_after; [apply silent_swap_bars|]. intros _. apply cam_notify.
    + intros _. by apply cam_after; [apply silent_highlight|].
  - rewrite filter_cons_False by done. simpl.
    replace (range (i + 1) n) with (@nil nat)
      by (unfold range; replace (n - (i + 1))%nat with 0%nat by lia; done).
    intros w. unfold mbind, M_bind. cbn [selection_scan mret M_ret].
    destruct (negb (running (vis w))) eqn:Er.
    { unfold gets. rewrite Er. simpl. lia. }
    unfold gets at 1. rewrite Er. rewrite Nat.eqb_refl. simpl.
    pose proof (silent_highlight (zrange 0 (i + 1)) settled_color w) as Hh.
    destruct (highlight (zrange 0 (i + 1)) settled_color w) as [[] w1|e w1];
      simpl in *; [|lia].
    specialize (IH w1). lia.
Qed.

Lemma filter_seq_inner n a k :
  length (filter (λ i, (i + 1 < n)%nat) (seq a k)) = (k `min` (n - 1 - a))%nat.
Proof.
  revert a. induction k as [|k IH]; intros a; [done|].
  cbn [seq]. destruct (decide (a + 1 < n)%nat).
  - rewrite filter_cons_True by done. cbn [length]. rewrite IH. lia.
  - rewrite filter_cons_False by done. rewrite IH. lia.
Qed.

Lemma cam_sort_frame (k : nat) (loop : nat → M unit) w :
  calls_at_most k (loop (length (data (vis w)))) →
  (callbacks (world_of
     ((modify (set_running true);;
       n ← gets (λ v, length (data v));
       loop n;;
       highlight (zrange 0 n) sorted_color;;
       modify (set_running false)) w)) ≤ callbacks w + k)%nat.
Proof.
  intros Hl.
  assert (H : calls_at_most k
            (loop (length (data (vis w)));;
             highlight (zrange 0 (length (data (vis w)))) sorted_color;;
             modify (set_running false))).
  { replace k with (k + 0)%nat by lia. apply cam_bind; [done|]. intros _.
    apply cam_after; [apply silent_highlight|]. intros _.
    apply cam_silent, silent_modify. }
  specialize (H (set_vis (set_running true (vis w)) w)).
  destruct w as [v p t]. destruct v. exact H.
Qed.

(** ** Callbacks after a stop *)

Lemma end_of_bind {A B} (m : M A) (f : A → M B) w :
  end_of (m ≫= f) w = match m w with
                      | Ok a w1 => end_of (f a) w1
                      | Raise _ w1 => w1
                      end.
Proof. unfold end_of, mbind, M_bind. by destruct (m w). Qed.

Lemma discreet_ret {A} (a : A) : discreet (mret a).
Proof. by intros w. Qed.

Lemma discreet_bind {A B} (m : M A) (f : A → M B) :
  discreet m → (∀ a, discreet (f a)) → discreet (m ≫= f).
Proof.
  intros Hm Hf w. rewrite end_of_bind. specialize (Hm w). unfold end_of in Hm.
  destruct (m w) as [a w1|e w1]; simpl in Hm; [|done].
  destruct Hm as [L R]. destruct (Hf a w1) as [L1 R1]. split; [lia | auto].
Qed.

Lemma discreet_gets {A} (f : SortVisualizer → A) : discreet (gets f).
Proof. by intros w. Qed.

Lemma discreet_raise {A} e : discreet (@raise A e).
Proof. by intros w. Qed.

Lemma discreet_getitem {A} (l : list A) i : discreet (getitem l i).
Proof.
  intros w. unfold end_of, getitem. destruct (py_index l i); [|done].
  by destruct (l !! n).
Qed.

Lemma discreet_setitem {A} (l : list A) i x : discreet (setitem l i x).
Proof. intros w. unfold end_of, setitem. by destruct (py_index l i). Qed.

Lemma discreet_modify f :
  (∀ v, running (f v) = running v) → discreet (modify f).
Proof. intros Hf w. unfold end_of, modify. simpl. rewrite Hf. done. Qed.

Lemma discreet_yield e : is_callback e = false → discreet (yield e).
Proof.
  intros He w. unfold end_of, yield, late_callbacks.
  destruct (pending w) as [|a rest]; simpl; rewrite He; simpl; [done|].
  split; [done|]. intros Hr. destruct a; simpl; by destruct (vis w).
Qed.

Lemma discreet_on_canvas f : discreet (on_canvas f).
Proof. apply discreet_modify. by intros []. Qed.

Ltac discreet_step :=
  first
    [ apply discreet_ret | apply discreet_gets | apply discreet_raise
    | apply discreet_getitem | apply discreet_setitem | apply discreet_on_canvas
    | apply discreet_yield; reflexivity
    | assumption
    | apply discreet_bind; [|intros ?]
    | match goal with |- discreet (if ?b then _ else _) => destruct b end
    | match goal with |- discreet (match ?x with _ => _ end) => destruct x end ].

Lemma discreet_canvas_update : discreet canvas_update.
Proof. by apply discreet_yield. Qed.

Lemma discreet_sleep : discreet sleep.
Proof. unfold sleep, get_speed. repeat discreet_step. Qed.

Lemma discreet_repeatM k (m : M unit) : discreet m → discreet (repeatM k m).
Proof. intros Hm. induction k; simpl; repeat discreet_step. Qed.

Lemma discreet_move_bar index dx dy steps : discreet (move_bar index dx dy steps).
Proof.
  unfold move_bar. pose proof discreet_canvas_update. pose proof discreet_sleep.
  repeat first [apply discreet_repeatM | discreet_step].
Qed.

Lemma discreet_swap_items {A} get set i j :
  (∀ l v, running (set l v) = running v) → discreet (@swap_items A get set i j).
Proof.
  intros Hs. unfold swap_items.
  repeat first [apply discreet_modify; intros; apply Hs | discreet_step].
Qed.

Lemma discreet_swap_bars i j : discreet (swap_bars i j).
Proof.
  unfold swap_bars. pose proof discreet_canvas_update.
  repeat first [ apply discreet_move_bar
               | apply discreet_swap_items; by intros ? []
               | discreet_step ].
Qed.

Lemma discreet_highlight indices color : discreet (highlight indices color).
Proof.
  unfold highlight. pose proof discreet_canvas_update.
  apply discreet_bind; [|by intros].
  induction indices as [|i rest IH]; cbn [highlight_each]; repeat discreet_step.
Qed.

Lemma discreet_reset_colors : discreet reset_colors.
Proof.
  unfold reset_colors. pose proof discreet_canvas_update.
  apply discreet_bind; [apply discreet_gets|]. intros n.
  apply discreet_bind; [|by intros].
  induction (seq 0 n) as [|i rest IH]; cbn [reset_each]; repeat discreet_step.
Qed.

Lemma discreet_key_at k : discreet (key_at k).
Proof. unfold key_at. repeat discreet_step. Qed.

Lemma discreet_selection_scan i js min_idx : discreet (selection_scan i js min_idx).
Proof.
  revert min_idx. induction js as [|j rest IH]; intros min_idx;
    cbn [selection_scan]; [apply discreet_ret|].
  apply discreet_bind; [apply discreet_gets|]. intros r.
  destruct (negb r); [apply discreet_ret|].
  apply discreet_bind; [apply discreet_highlight|]. intros _.
  apply discreet_bind; [apply discreet_sleep|]. intros _.
  apply discreet_bind; [apply discreet_key_at|]. intros a.
  apply discreet_bind; [apply discreet_key_at|]. intros b.
  apply discreet_bind; [apply discreet_reset_colors|]. intros _.
  apply discreet_bind; [apply discreet_highlight|]. intros _. apply IH.
Qed.

Lemma discreet_settles {A} (m : M A) : discreet m → settles m.
Proof.
  intros H. split; intros w; destruct (H w) as [L R].
  - split; [lia|]. split; [done|]. by intros _.
  - by intros _.
Qed.

Lemma settles_ret {A} (a : A) : settles (mret a).
Proof. apply discreet_settles, discreet_ret. Qed.

Lemma settles_bind {A B} (m : M A) (f : A → M B) :
  settles m → (∀ a, settles (f a)) → settles (m ≫= f).
Proof.
  intros [Hm Hm0] Hf. split; intros w; rewrite end_of_bind;
    specialize (Hm w); specialize (Hm0 w); unfold end_of in Hm, Hm0;
    destruct (m w) as [a w1|e w1]; simpl in Hm, Hm0; try done.
  - destruct Hm as (L & R & K). destruct (Hf a) as [Hf1 Hf0].
    destruct (Hf1 w1) as (L1 & R1 & K1). specialize (Hf0 w1).
    split; [|split].
    + destruct (running (vis w1)) eqn:Er.
      * rewrite K in L1 by done. done.
      * rewrite Hf0 by done. done.
    + auto.
    + intros Ht. destruct (running (vis w1)) eqn:Er.
      * rewrite K1, K by done. done.
      * rewrite R1 in Ht by done. done.
  - intros Hr. destruct Hm as (L & R & K). destruct (Hf a) as [Hf1 Hf0].
    rewrite Hf0 by auto. auto.
Qed.

Lemma settles_after {A B} (m : M A) (f : A → M B) :
  discreet m → (∀ a, settles (f a)) → settles (m ≫= f).
Proof. intros Hm Hf. apply settles_bind; [by apply discreet_settles | done]. Qed.

Lemma one_more_then {A B} (m : M A) (f : A → M B) :
  one_more m → (∀ a, settles (f a)) → one_more (m ≫= f).
Proof.
  intros Hm Hf w. rewrite end_of_bind.
  specialize (Hm w). unfold end_of in Hm.
  destruct (m w) as [a w1|e w1]; simpl in Hm; [|done].
  destruct Hm as (L & R & K). destruct (Hf a) as [Hf1 Hf0].
  destruct (Hf1 w1) as (L1 & R1 & K1). specialize (Hf0 w1).
  split; [|split].
  - destruct (running (vis w1)) eqn:Er.
    + rewrite K in L1 by done. done.
    + rewrite Hf0 by done. done.
  - auto.
  - intros Ht. destruct (running (vis w1)) eqn:Er.
    + rewrite K1, K by done. done.
    + rewrite R1 in Ht by done. done.
Qed.

Lemma one_more_after {A B} (m : M A) (f : A → M B) :
  discreet m → (∀ a, one_more (f a)) → one_more (m ≫= f).
Proof.
  intros Hm Hf w. rewrite end_of_bind.
  specialize (Hm w). unfold end_of in Hm.
  destruct (m w) as [a w1|e w1]; simpl in Hm.
  - destruct Hm as (L & R). destruct (Hf a w1) as (L1 & R1 & K1).
    split; [lia|]. split; [auto|]. intros Ht. rewrite K1 by done. done.
  - destruct Hm as (L & R). split; [lia|]. split; [done|]. by intros _.
Qed.

(** [if not self.running: return] in front of a block. *)
Lemma settles_guard (m : M unit) :
  one_more m → settles (r ← gets running; if negb r then mret tt else m).
Proof.
  intros Hm. split; intros w.
  - destruct (Hm w) as (L & R & K).
    unfold end_of, mbind, M_bind, gets in *. destruct (running (vis w)) eqn:Er; simpl.
    + split; [exact L|]. split; [done | exact K].
    + rewrite Er. split; [lia|]. split; [done|]. by intros _.
  - intros Er. unfold end_of, mbind, M_bind, gets. by rewrite Er.
Qed.

Lemma one_more_notify callback : one_more (notify callback).
Proof.
  intros w. unfold end_of, notify. destruct callback.
  - unfold mbind, M_bind, gets, yield, late_callbacks.
    destruct (pending w) as [|a rest]; simpl.
    + destruct (running (vis w)); simpl; split; try lia; split; try done.
    + destruct (running (vis w)) eqn:Er; simpl.
      * split; [lia|]. split; [done|]. by intros _.
      * split; [lia|]. split.
        -- intros _. destruct a; simpl; by destruct (vis w).
        -- intros Ht. destruct a; simpl in Ht; destruct (vis w); simpl in *; congruence.
  - simpl. split; [lia|]. split; [done|]. by intros _.
Qed.

Lemma settles_insertion_while callback j : settles (insertion_while callback j).
Proof.
  induction j as [|j IH]; [apply settles_ret|].
  cbn [insertion_while].
  apply settles_after; [apply discreet_key_at|]. intros a.
  apply settles_after; [apply discreet_key_at|]. intros b.
  destruct (a >? b); [|apply settles_ret].
  apply settles_guard.
  apply one_more_after; [apply discreet_highlight|]. intros _.
  apply one_more_after; [apply discreet_swap_bars|]. intros _.
  apply one_more_after; [apply discreet_highlight|]. intros _.
  apply one_more_then; [apply one_more_notify|]. intros _.
  by apply settles_after; [apply discreet_sleep|].
Qed.

Lemma settles_insertion_for callback indices : settles (insertion_for callback indices).
Proof.
  induction indices as [|i rest IH]; [apply settles_ret|].
  cbn [insertion_for]. apply settles_guard.
  apply one_more_after; [apply discreet_highlight|]. intros _.
  apply one_more_after; [apply discreet_sleep|]. intros _.
  apply settles_bind; [apply settles_insertion_while|]. intros _.
  by apply settles_after; [apply discreet_reset_colors|].
Qed.

Lemma settles_selection_for callback n indices :
  settles (selection_for callback n indices).
Proof.
  induction indices as [|i rest IH]; [apply settles_ret|].
  cbn [selection_for]. apply settles_guard.
  apply one_more_after; [apply discreet_highlight|]. intros _.
  apply one_more_after; [apply discreet_selection_scan|]. intros m.
  apply settles_guard.
  apply one_more_then.
  - destruct (negb (m =? i)%nat).
    + apply one_more_after; [apply discreet_swap_bars|]. intros _.
      apply one_more_notify.
    + apply settles_ret.
  - intros _. by apply settles_after; [apply discreet_highlight|].
Qed.

Lemma late_then_modify {A} (m : M A) f w :
  late_callbacks (end_of (m ≫= λ _, modify f) w) = late_callbacks (end_of m w).
Proof. rewrite end_of_bind. unfold end_of. by destruct (m w). Qed.

Lemma late_sort_frame (loop : nat → M unit) w :
  (∀ n, settles (loop n)) →
  (late_callbacks (end_of
     (modify (set_running true);;
      n ← gets (λ v, length (data v));
      loop n;;
      highlight (zrange 0 n) sorted_color;;
      modify (set_running false)) w) ≤ late_callbacks w + 1)%nat.
Proof.
  intros Hl.
  set (w0 := set_vis (set_running true (vis w)) w).
  set (n := length (data (vis w))).
  assert (S : settles (loop n ≫= λ _, highlight (zrange 0 n) sorted_color)).
  { apply settles_bind; [apply Hl|]. intros _.
    apply discreet_settles, discreet_highlight. }
  destruct S as [S _]. destruct (S w0) as (L & _).
  pose proof (late_then_modify (loop n ≫= λ _, highlight (zrange 0 n) sorted_color)
                (set_running false) w0) as E.
  assert (E0 : late_callbacks w0 = late_callbacks w) by done.
  rewrite E0 in L. rewrite <- E in L.
  assert (E1 : end_of
     (modify (set_running true);;
      n ← gets (λ v, length (data v));
      loop n;;
      highlight (zrange 0 n) sorted_color;;
      modify (set_running false)) w
    = end_of ((loop n ≫= λ _, highlight (zrange 0 n) sorted_color)
              ≫= λ _, modify (set_running false)) w0).
  { unfold end_of, mbind, M_bind, modify, gets. subst w0 n.
    destruct w as [v p t]; destruct v; simpl.
    match goal with |- context [loop ?k ?x] => destruct (loop k x) end; [|done].
    done. }
  by rewrite E1.
Qed.

(** ** Round trips *)



(** ** The run controller *)


(** * Further properties *)

(** X1. [insertion_sort] is stable: when it is not cancelled, the records
    of any one key stand in the result in the order in which the input has
    them. *)
Theorem insertion_sort_stable (callback : bool) (data_list : list Student)
    (w : World) :
  EnvStop ∉ pending w →
  ∃ w', (load_data data_list;; insertion_sort callback) w = Ok tt w' ∧
        ∀ k, with_key k (data (vis w')) = with_key k data_list.
Proof.
  intros Hn. destruct (insertion_run callback data_list w Hn) as (w' & Hrun & Hd).
  exists w'. split; [done|]. intros k. rewrite Hd.
  apply insertion_for_data_with_key.
Qed.

Lemma insertion_sort_stable_witness :
  (EnvStop ∉ pending example_world) ∧
  ∃ w', (load_data example_rows;; insertion_sort true) example_world = Ok tt w' ∧
        ∀ k, with_key k (data (vis w')) = with_key k example_rows.
Proof.
  assert (H : EnvStop ∉ pending example_world).
  { simpl. intros H.
    repeat (apply elem_of_cons in H as [H|H]; [discriminate|]).
    by apply elem_of_nil in H. }
  split; [exact H|]. exact (insertion_sort_stable true example_rows example_world H).
Defined.

(** X2. Run on the same input and not cancelled, [insertion_sort] and
    [selection_sort] end with the same sequence of keys (the records of
    equal keys may stand in a different order). *)
Theorem sorts_agree_on_keys (callback : bool) (data_list : list Student)
    (w : World) :
  EnvStop ∉ pending w →
  ∃ wi ws, (load_data data_list;; insertion_sort callback) w = Ok tt wi ∧
           (load_data data_list;; selection_sort callback) w = Ok tt ws ∧
           marks <$> data (vis wi) = marks <$> data (vis ws).
Proof.
  intros Hn.
  destruct (insertion_run callback data_list w Hn) as (wi & Hruni & Hdi).
  destruct (selection_run callback data_list w Hn) as (ws & Hruns & Hds).
  exists wi, ws. split; [done|]. split; [done|]. rewrite Hdi, Hds.
  apply sorted_keys_unique.
  - apply insertion_sort_data_sorted.
  - apply selection_sort_data_sorted.
  - by rewrite insertion_for_data_perm, selection_for_data_perm.
Qed.

Lemma sorts_agree_on_keys_witness :
  (EnvStop ∉ pending example_world) ∧
  ∃ wi ws, (load_data example_rows;; insertion_sort true) example_world = Ok tt wi ∧
           (load_data example_rows;; selection_sort true) example_world = Ok tt ws ∧
           marks <$> data (vis wi) = marks <$> data (vis ws).
Proof.
  assert (H : EnvStop ∉ pending example_world).
  { simpl. intros H.
    repeat (apply elem_of_cons in H as [H|H]; [discriminate|]).
    by apply elem_of_nil in H. }
  split; [exact H|]. exact (sorts_agree_on_keys true example_rows example_world H).
Defined.



(** X4. [reset_colors] never fails.  It gives every bar that is on the
    canvas the default colour and touches nothing else: the lists, the
    place of every item, the content of every text and all items that are
    not bars stay as they are.  Calling it a second time changes nothing
    on the canvas. *)
Theorem reset_colors_idempotent (w : World) :
  ∃ w1 w2, reset_colors w = Ok tt w1 ∧ reset_colors w1 = Ok tt w2 ∧
    canvas (vis w2) = canvas (vis w1) ∧
    (data (vis w1), bar_items (vis w1), text_items (vis w1))
      = (data (vis w), bar_items (vis w), text_items (vis w)) ∧
    (∀ b, b ∈ bar_items (vis w) → is_Some (items (canvas (vis w)) !! b) →
          fill_of (canvas (vis w1)) b = Some default_color) ∧
    item_shape <$> items (canvas (vis w1)) = item_shape <$> items (canvas (vis w)) ∧
    (∀ id, id ∉ bar_items (vis w) →
           items (canvas (vis w1)) !! id = items (canvas (vis w)) !! id).
Proof.
  destruct (reset_colors_run w) as (w1 & Hrun1 & Hc1 & Hd1 & Hb1 & Ht1).
  destruct (reset_colors_run w1) as (w2 & Hrun2 & Hc2 & _).
  exists w1, w2. split; [done|]. split; [done|]. split.
  { rewrite Hc2, Hb1, Hc1. apply recolor_idemp. }
  split; [by rewrite Hd1, Hb1, Ht1|]. rewrite Hc1. split; [|split].
  - intros b Hb Hs. by apply recolor_fill.
  - apply recolor_shape.
  - intros id Hid. by apply recolor_other.
Qed.

(** X5. [highlight(indices, color)] never fails, whatever the indices.  It
    gives [color] to the bars at the listed indices that lie in
    [[0, len(bar_items))] and touches nothing else: the lists, the place of
    every item, the content of every text and every item that is not such
    a bar stay as they are.  The same call made again changes nothing on
    the canvas. *)
Theorem highlight_only_recolours (indices : list Z) (color : string) (w : World) :
  ∃ w1 w2, highlight indices color w = Ok tt w1 ∧
    highlight indices color w1 = Ok tt w2 ∧
    canvas (vis w2) = canvas (vis w1) ∧
    (data (vis w1), bar_items (vis w1), text_items (vis w1))
      = (data (vis w), bar_items (vis w), text_items (vis w)) ∧
    (∀ (k : nat) b, Z.of_nat k ∈ indices → bar_items (vis w) !! k = Some b →
          is_Some (items (canvas (vis w)) !! b) →
          fill_of (canvas (vis w1)) b = Some color) ∧
    item_shape <$> items (canvas (vis w1)) = item_shape <$> items (canvas (vis w)) ∧
    (∀ id, (∀ k : nat, Z.of_nat k ∈ indices → bar_items (vis w) !! k ≠ Some id) →
           items (canvas (vis w1)) !! id = items (canvas (vis w)) !! id).
Proof.
  destruct (highlight_run indices color w) as (w1 & Hrun1 & Hc1 & Hd1 & Hb1 & Ht1).
  destruct (highlight_run indices color w1) as (w2 & Hrun2 & Hc2 & _).
  exists w1, w2. split; [done|]. split; [done|]. split.
  { rewrite Hc2, Hb1, Hc1. apply recolor_idemp. }
  split; [by rewrite Hd1, Hb1, Ht1|]. rewrite Hc1. split; [|split].
  - intros k b Hk Hb Hs. apply recolor_fill; [|done].
    apply elem_of_picked. eauto.
  - apply recolor_shape.
  - intros id Hid. apply recolor_other.
    intros (k & Hk & Hb)%elem_of_picked. by apply (Hid k).
Qed.









(** X11. [selection_sort] on [n] records calls the progress callback at
    most [n - 1] times, whatever the keys and whatever the user does
    meanwhile: it calls it only after a swap, and the last turn of its
    outer loop, having nothing to its right, never swaps. *)
Theorem selection_sort_callback_bound (callback : bool) (data_list : list Student)
    (w : World) :
  ∃ w1 w', load_data data_list w = Ok tt w1 ∧
           selection_sort callback w1 = Ok tt w' ∧
           (callbacks w' ≤ callbacks w1 + (length data_list - 1))%nat.
Proof.
  destruct (wp_run _ _ _ (load_data_drawing data_list w)) as ([] & w1 & E1 & D & Ed).
  pose proof (pi_wf _ _ _ _ _ (drawing_pictured _ _ _ _ _ _ _ D Ed)) as W1.
  destruct (wp_run _ _ _ (selection_sort_spec callback w1 W1)) as ([] & w' & E & _).
  exists w1, w'. split; [done|]. split; [done|].
  assert (Hl : calls_at_most (length data_list - 1)
            (selection_for callback (length (data (vis w1)))
                           (range 0 (length (data (vis w1)))))).
  { rewrite Ed. eapply cam_weaken; [|apply cam_selection_for].
    unfold range. rewrite filter_seq_inner. lia. }
  pose proof (cam_sort_frame _ (λ n, selection_for callback n (range 0 n)) w1 Hl) as H.
  assert (H2 : (callbacks (world_of (selection_sort callback w1))
                ≤ callbacks w1 + (length data_list - 1))%nat) by exact H.
  by rewrite E in H2.
Qed.

(** X12. [insertion_sort] on [n] records calls the progress callback at
    most [n * (n - 1) / 2] times, whatever the keys and whatever the user
    does meanwhile: once for each swap, and the record picked at position
    [i] is swapped at most [i] times. *)
Theorem insertion_sort_callback_bound (callback : bool) (data_list : list Student)
    (w : World) :
  ∃ w1 w', load_data data_list w = Ok tt w1 ∧
           insertion_sort callback w1 = Ok tt w' ∧
           (2 * callbacks w'
            ≤ 2 * callbacks w1 + length data_list * (length data_list - 1))%nat.
Proof.
  destruct (wp_run _ _ _ (load_data_drawing data_list w)) as ([] & w1 & E1 & D & Ed).
  pose proof (pi_wf _ _ _ _ _ (drawing_pictured _ _ _ _ _ _ _ D Ed)) as W1.
  destruct (wp_run _ _ _ (insertion_sort_spec callback w1 W1)) as ([] & w' & E & _).
  exists w1, w'. split; [done|]. split; [done|].
  assert (Hl : calls_at_most (sum_list (range 1 (length data_list)))
            (insertion_for callback (range 1 (length (data (vis w1)))))).
  { rewrite Ed. apply cam_insertion_for. }
  pose proof (cam_sort_frame _ (λ n, insertion_for callback (range 1 n)) w1 Hl) as H.
  assert (H2 : (callbacks (world_of (insertion_sort callback w1))
                ≤ callbacks w1 + sum_list (range 1 (length data_list)))%nat) by exact H.
  rewrite E in H2. simpl in H2. unfold range in H2.
  pose proof (sum_list_seq 1 (length data_list - 1)) as S.
  destruct (length data_list) as [|n]; simpl in *; [lia|].
  replace (n - 0)%nat with n in * by lia. nia.
Qed.

(** X13. Stopping is prompt.  Once "Stop Sorting" has taken effect (the
    [running] flag is false), a sort started by the application calls the
    progress callback, which it does after each swap, at most once more,
    whichever algorithm runs, whatever the data and whenever the stop
    arrives: the swap under way is finished and reported, and every later
    turn of a loop finds the flag down and leaves. *)
Theorem stop_is_prompt (algo : Algo) (data_list : list Student) (w : World) :
  ∃ w1 w', load_data data_list w = Ok tt w1 ∧
           _run_sort algo w1 = Ok tt w' ∧
           (late_callbacks w' ≤ late_callbacks w1 + 1)%nat.
Proof.
  destruct (wp_run _ _ _ (load_data_drawing data_list w)) as ([] & w1 & E1 & D & Ed).
  pose proof (pi_wf _ _ _ _ _ (drawing_pictured _ _ _ _ _ _ _ D Ed)) as W1.
  destruct algo; simpl.
  - destruct (wp_run _ _ _ (insertion_sort_spec true w1 W1)) as ([] & w' & E & _).
    exists w1, w'. split; [done|]. split; [done|].
    pose proof (late_sort_frame (λ n, insertion_for true (range 1 n)) w1
                  (λ n, settles_insertion_for true (range 1 n))) as H.
    assert (H2 : (late_callbacks (end_of (insertion_sort true) w1)
                  ≤ late_callbacks w1 + 1)%nat) by exact H.
    unfold end_of in H2. by rewrite E in H2.
  - destruct (wp_run _ _ _ (selection_sort_spec true w1 W1)) as ([] & w' & E & _).
    exists w1, w'. split; [done|]. split; [done|].
    pose proof (late_sort_frame (λ n, selection_for true n (range 0 n)) w1
                  (λ n, settles_selection_for true n (range 0 n))) as H.
    assert (H2 : (late_callbacks (end_of (selection_sort true) w1)
                  ≤ late_callbacks w1 + 1)%nat) by exact H.
    unfold end_of in H2. by rewrite E in H2.
Qed.






